(** * TACS element kernels: PoissonQuad<order> and TACSBeamConstitutive

    A shallow embedding of [src/elements/PoissonElement.h] and of the beam
    constitutive object.

    Numbers.  [TacsScalar] and [double] are both read as real numbers
    ([R]): every sum, product, quotient, [sqrt] and [cos] of the source is
    the exact operation, and rounding is not modelled.  [int] values are
    read in [Z] (array indices and loop counters in [nat]); the template
    parameter [order] is a [nat].

    Arrays.  A C array handed over as a pointer is a [list]; [a[i]] is
    [get a i], [a[i] = v] is [write a i v] and [a[i] += v] is
    [add_at a i v].  The source never checks a bound, so an access past
    the end is undefined there; here a read past the end gives [0] and a
    write past the end does nothing, and a theorem that depends on an
    entry being there asks for a buffer that holds it.

    Loops.  [for (int i = 0; i < n; i++) body] is [for_loop n body],
    threading the mutated variables through as the loop state. *)

From Stdlib Require Import String.
From Stdlib Require Import Reals Lra Lia List ZArith Bool Arith Psatz.
Import ListNotations.

Set Implicit Arguments.

(** ** Arrays and loops *)

Definition get (a : list R) (i : nat) : R := nth i a 0%R.

Fixpoint write {A : Type} (a : list A) (i : nat) (v : A) : list A :=
  match a, i with
  | [], _ => []
  | _ :: t, O => v :: t
  | x :: t, S k => x :: write t k v
  end.

Definition add_at (a : list R) (i : nat) (v : R) : list R :=
  write a i (get a i + v)%R.

Definition for_loop {S : Type} (n : nat) (body : nat -> S -> S) (s : S) : S :=
  fold_left (fun st i => body i st) (seq 0 n) s.

(** ** FElibrary *)

Module FElibrary.

(** Modelled from the spec: [FElibrary::lagrangeSFKnots(N, u, knots,
    order)]; the code of [FElibrary] is missing from the sources
    embedded here.  The basis is the
    Lagrange interpolation over the knot vector: [N[i]] is the product
    over [j <> i] of [(u - knots[j]) / (knots[i] - knots[j])]. *)
Definition lagrangeSFKnots (u : R) (knots : list R) (order : nat) : list R :=
  map (fun i =>
         for_loop order (fun j Ni =>
           if (i =? j)%nat then Ni
           else (Ni * ((u - get knots j) * (1 / (get knots i - get knots j))))%R)
           1%R)
      (seq 0 order).

(** Modelled from the spec: [FElibrary::lagrangeSFKnots(N, Nd, u, knots,
    order)], the overload that also gives the parametric derivative:
    [Nd[i]] is the sum over [j <> i] of [1 / (knots[i] - knots[j])] times
    the product over [k <> i, j] of
    [(u - knots[k]) / (knots[i] - knots[k])]. *)
Definition lagrangeSFKnotsDeriv (u : R) (knots : list R) (order : nat)
  : list R * list R :=
  (lagrangeSFKnots u knots order,
   map (fun i =>
          for_loop order (fun j Ndi =>
            if (i =? j)%nat then Ndi
            else
              let d :=
                for_loop order (fun k d =>
                  if (k =? i)%nat || (k =? j)%nat then d
                  else (d * ((u - get knots k) / (get knots i - get knots k)))%R)
                  (1 / (get knots i - get knots j))%R in
              (Ndi + d)%R)
            0%R)
       (seq 0 order)).

(** Modelled from the spec: [FElibrary::jacobian2d(Xd, J)], the 2 by 2
    inverse: it returns the determinant of [Xd] and fills [J] with the
    inverse of [Xd]. *)
Definition jacobian2d (Xd : list R) : R * list R :=
  let h := (get Xd 0 * get Xd 3 - get Xd 1 * get Xd 2)%R in
  let hinv := (1 / h)%R in
  (h, [ get Xd 3 * hinv; - get Xd 1 * hinv;
        - get Xd 2 * hinv; get Xd 0 * hinv ]%R).

(** Modelled from the spec: [FElibrary::getGaussPtsWts(n, &pts, &wts)],
    the Gauss-Legendre rule with [n] points on [[-1, 1]].  The rules
    with one, two and three points are written out; the statements below
    that use this table are at order 2. *)
Definition getGaussPtsWts (n : nat) : list R * list R :=
  match n with
  | 1%nat => ([0], [2])%R
  | 2%nat => ([- (1 / sqrt 3); 1 / sqrt 3], [1; 1])%R
  | 3%nat => ([- sqrt (3 / 5); 0; sqrt (3 / 5)], [5 / 9; 8 / 9; 5 / 9])%R
  | _ => ([], [])
  end.

End FElibrary.

(** ** PoissonQuad<order> *)

Module PoissonQuad.

(** The two private members, [TacsScalar f[order*order]] and
    [double knots[order]]. *)
Record t : Type := mk { f : list R; knots : list R }.

Section Order.

Variable order : nat.

(** The [FElibrary] routines the element calls live in another file of
    the repository.  The kernels below take them as parameters: the
    Gauss table [getGaussPtsWts(order, &pts, &wts)], the two overloads of
    [lagrangeSFKnots] (values; values and derivatives) and [jacobian2d],
    which returns the determinant and fills the inverse [J]. *)
Variable getGaussPtsWts : nat -> list R * list R.
Variable lagrangeSFKnots : R -> list R -> nat -> list R.
Variable lagrangeSFKnotsDeriv : R -> list R -> nat -> list R * list R.
Variable jacobian2d : list R -> R * list R.

(** The bit masks [TACSElement::OUTPUT_NODES], [OUTPUT_DISPLACEMENTS],
    [OUTPUT_STRAINS] and [OUTPUT_STRESSES] are constants of the base
    class, declared in another file; [getOutputData] takes them as
    parameters. *)
Variable OUTPUT_NODES OUTPUT_DISPLACEMENTS : Z.
Variable OUTPUT_STRAINS OUTPUT_STRESSES : Z.

(** The constructor [PoissonQuad(const TacsScalar _f[])]. *)
Definition PoissonQuad (_f : list R) : t :=
  {| f := map (fun i => get _f i) (seq 0 (order * order));
     knots :=
       if (order =? 2)%nat then [-1; 1]%R
       else if (order =? 3)%nat then [-1; 0; 1]%R
       else map (fun k => (- cos (PI * INR k / INR (order - 1)))%R)
                (seq 0 order) |}.

Definition elementName : string := "PoissonQuad"%string.
Definition displacementName (i : Z) : option string := Some "phi"%string.

(** [NULL] is [None]. *)
Definition stressName (i : Z) : option string :=
  if (i =? 0)%Z then Some "px"%string
  else if (i =? 1)%Z then Some "py"%string
  else None.

Definition strainName (i : Z) : option string :=
  if (i =? 0)%Z then Some "px"%string
  else if (i =? 1)%Z then Some "py"%string
  else None.

Definition extraName (i : Z) : option string := None.

Definition numDisplacements : Z := 1.
Definition numNodes : Z := Z.of_nat order * Z.of_nat order.
Definition numStresses : Z := 2.
Definition numExtras : Z := 0.

Definition getNumGaussPts : nat := order * order.

(** [getGaussWtsPts(num, pt)]: the function returns the weight and fills
    [pt]; here it returns both.  [num] is a quadrature index, not
    negative, on which [%] and [/] of C are [mod] and [/] of [nat]. *)
Definition getGaussWtsPts (num : nat) : R * list R :=
  let n := (num mod order)%nat in
  let m := (num / order)%nat in
  let '(pts, wts) := getGaussPtsWts order in
  ((get wts n * get wts m)%R, [get pts n; get pts m]).

(** [getShapeFunctions(pt, N)].  The source writes [N[0]] and advances the
    pointer [N]; the array under construction grows by one entry per
    step. *)
Definition getShapeFunctions (q : t) (pt : list R) : list R :=
  let na := lagrangeSFKnots (get pt 0) (knots q) order in
  let nb := lagrangeSFKnots (get pt 1) (knots q) order in
  for_loop order (fun j N =>
    for_loop order (fun i N => N ++ [get na i * get nb j]%R) N) [].

(** [getShapeFunctions(pt, N, Na, Nb)]. *)
Definition getShapeFunctionsDeriv (q : t) (pt : list R)
  : list R * list R * list R :=
  let '(na, dna) := lagrangeSFKnotsDeriv (get pt 0) (knots q) order in
  let '(nb, dnb) := lagrangeSFKnotsDeriv (get pt 1) (knots q) order in
  for_loop order (fun j st =>
    for_loop order (fun i '(N, Na, Nb) =>
      (N ++ [get na i * get nb j]%R,
       Na ++ [get dna i * get nb j]%R,
       Nb ++ [get na i * get dnb j]%R)) st) ([], [], []).

Definition getJacobianTransform (Na Nb Xpts : list R) : list R :=
  for_loop (order * order) (fun i Xd =>
    let Xd := add_at Xd 0 (get Na i * get Xpts (3 * i)) in
    let Xd := add_at Xd 1 (get Nb i * get Xpts (3 * i)) in
    let Xd := add_at Xd 2 (get Na i * get Xpts (3 * i + 1)) in
    add_at Xd 3 (get Nb i * get Xpts (3 * i + 1))) [0; 0; 0; 0]%R.

Definition getDetJacobian (q : t) (pt Xpts : list R) : R :=
  let '(N, Na, Nb) := getShapeFunctionsDeriv q pt in
  let Xd := getJacobianTransform Na Nb Xpts in
  (get Xd 0 * get Xd 3 - get Xd 1 * get Xd 2)%R.

(** [addResidual]: [res] is the buffer accumulated into; the function
    returns its final contents. *)
Definition addResidual (q : t) (time : R)
           (res Xpts vars dvars ddvars : list R) : list R :=
  let '(pts, wts) := getGaussPtsWts order in
  for_loop order (fun m res =>
    for_loop order (fun n res =>
      let pt := [get pts n; get pts m] in
      let '(N, Na, Nb) := getShapeFunctionsDeriv q pt in
      let Xd := getJacobianTransform Na Nb Xpts in
      let '(h, J) := jacobian2d Xd in
      let h := (h * (get wts n * get wts m))%R in
      let '(fval, px, py) :=
        for_loop (order * order) (fun i '(fval, px, py) =>
          ((fval + get N i * get (f q) i)%R,
           (px + (get Na i * get J 0 + get Nb i * get J 2) * get vars i)%R,
           (py + (get Na i * get J 1 + get Nb i * get J 3) * get vars i)%R))
          (0, 0, 0)%R in
      for_loop (order * order) (fun i res =>
        let Nxi := (get Na i * get J 0 + get Nb i * get J 2)%R in
        let Nyi := (get Na i * get J 1 + get Nb i * get J 3)%R in
        add_at res i (h * (Nxi * px + Nyi * py - fval * get N i))) res)
      res) res.

(** [addJacobian]: [mat] is accumulated into, column [j] at offset
    [j*order*order]. *)
Definition addJacobian (q : t) (time : R) (mat : list R)
           (alpha beta gamma : R)
           (Xpts vars dvars ddvars : list R) : list R :=
  let '(pts, wts) := getGaussPtsWts order in
  for_loop order (fun m mat =>
    for_loop order (fun n mat =>
      let pt := [get pts n; get pts m] in
      let '(N, Na, Nb) := getShapeFunctionsDeriv q pt in
      let Xd := getJacobianTransform Na Nb Xpts in
      let '(h, J) := jacobian2d Xd in
      let h := (h * (alpha * get wts n * get wts m))%R in
      for_loop (order * order) (fun j mat =>
        let Nxj := (get Na j * get J 0 + get Nb j * get J 2)%R in
        let Nyj := (get Na j * get J 1 + get Nb j * get J 3)%R in
        for_loop (order * order) (fun i mat =>
          let Nxi := (get Na i * get J 0 + get Nb i * get J 2)%R in
          let Nyi := (get Na i * get J 1 + get Nb i * get J 3)%R in
          add_at mat (i + j * order * order)
                 (h * (Nxi * Nxj + Nyi * Nyj))) mat) mat)
      mat) mat.

(** The four weights [Nerr] of [addLocalizedError] at a quadrature
    point. *)
Definition Nerr (pt : list R) : list R :=
  [ 0.25 * (1 - get pt 0) * (1 - get pt 1);
    0.25 * (1 + get pt 0) * (1 - get pt 1);
    0.25 * (1 - get pt 0) * (1 + get pt 1);
    0.25 * (1 + get pt 0) * (1 + get pt 1) ]%R.

Definition addLocalizedError (q : t) (time : R)
           (err adjoint Xpts vars : list R) : list R :=
  let '(pts, wts) := getGaussPtsWts order in
  for_loop order (fun m err =>
    for_loop order (fun n err =>
      let pt := [get pts n; get pts m] in
      let '(N, Na, Nb) := getShapeFunctionsDeriv q pt in
      let Xd := getJacobianTransform Na Nb Xpts in
      let '(h, J) := jacobian2d Xd in
      let h := (h * (get wts n * get wts m))%R in
      let '(fval, adj, px, py, ax, ay) :=
        for_loop (order * order) (fun i '(fval, adj, px, py, ax, ay) =>
          let Nx := (get Na i * get J 0 + get Nb i * get J 2)%R in
          let Ny := (get Na i * get J 1 + get Nb i * get J 3)%R in
          ((fval + get N i * get (f q) i)%R,
           (adj + get N i * get adjoint i)%R,
           (px + Nx * get vars i)%R,
           (py + Ny * get vars i)%R,
           (ax + Nx * get adjoint i)%R,
           (ay + Ny * get adjoint i)%R))
          (0, 0, 0, 0, 0, 0)%R in
      let product := (h * (ax * px + ay * py - adj * fval))%R in
      let Nerr := Nerr pt in
      let err := add_at err 0 (get Nerr 0 * product) in
      let err := add_at err (order - 1) (get Nerr 1 * product) in
      let err := add_at err (order * (order - 1)) (get Nerr 2 * product) in
      add_at err (order * order - 1) (get Nerr 3 * product)) err) err.

(** [addOutputCount]: the three counters are passed by pointer and
    incremented. *)
Definition addOutputCount (nelems nnodes ncsr : Z) : Z * Z * Z :=
  ((nelems + (Z.of_nat order - 1) * (Z.of_nat order - 1))%Z,
   (nnodes + Z.of_nat order * Z.of_nat order)%Z,
   (ncsr + 4 * (Z.of_nat order - 1) * (Z.of_nat order - 1))%Z).

(** [TacsRealPart(x)]: [TacsScalar] being real here, the real part of a
    value is the value. *)
Definition TacsRealPart (x : R) : R := x.

(** [out_type & FLAG] as a condition. *)
Definition flagged (out_type FLAG : Z) : bool :=
  negb (Z.land out_type FLAG =? 0)%Z.

(** [getOutputData]: the loop state is the offset [base] that the pointer
    [data] has advanced from the start of the caller's buffer, and the
    buffer; [data[k]] of the source is entry [base + k]. *)
Definition getOutputData (q : t) (out_type : Z) (data : list R)
           (ld_data : nat) (Xpts vars : list R) : list R :=
  snd (for_loop order (fun m st =>
    for_loop order (fun n '(base, data) =>
      let p := (n + order * m)%nat in
      let index := 0%nat in
      let '(index, data) :=
        if flagged out_type OUTPUT_NODES then
          ((index + 3)%nat,
           for_loop 3 (fun k data =>
             write data (base + (index + k))
                   (TacsRealPart (get Xpts (3 * p + k)))) data)
        else (index, data) in
      let '(index, data) :=
        if flagged out_type OUTPUT_DISPLACEMENTS then
          ((index + 1)%nat,
           write data (base + index) (TacsRealPart (get vars p)))
        else (index, data) in
      let pt := [get (knots q) n; get (knots q) m] in
      let '(N, Na, Nb) := getShapeFunctionsDeriv q pt in
      let Xd := getJacobianTransform Na Nb Xpts in
      let '(_, J) := jacobian2d Xd in
      let '(px, py) :=
        for_loop (order * order) (fun i '(px, py) =>
          ((px + (get Na i * get J 0 + get Nb i * get J 2) * get vars i)%R,
           (py + (get Na i * get J 1 + get Nb i * get J 3) * get vars i)%R))
          (0, 0)%R in
      let '(index, data) :=
        if flagged out_type OUTPUT_STRAINS then
          ((index + 2)%nat,
           write (write data (base + index) px) (base + (index + 1)) py)
        else (index, data) in
      let '(index, data) :=
        if flagged out_type OUTPUT_STRESSES then
          ((index + 2)%nat,
           write (write data (base + index) px) (base + (index + 1)) py)
        else (index, data) in
      ((base + ld_data)%nat, data)) st) (0%nat, data)).

(** [getOutputConnectivity]: the loop state is the counter [p] and the
    array [con].  Both loops run while the counter is below [order-1],
    which for [order = 0] is no iteration at all, as with [order - 1] on
    [nat]. *)
Definition connectivityStep (node : Z) (m n : nat) (st : nat * list Z)
  : nat * list Z :=
  let '(p, con) := st in
  let con := write con (4 * p)
               (node + Z.of_nat n + Z.of_nat m * Z.of_nat order)%Z in
  let con := write con (4 * p + 1)
               (node + Z.of_nat n + 1 + Z.of_nat m * Z.of_nat order)%Z in
  let con := write con (4 * p + 2)
               (node + Z.of_nat n + 1 + (Z.of_nat m + 1) * Z.of_nat order)%Z in
  let con := write con (4 * p + 3)
               (node + Z.of_nat n + (Z.of_nat m + 1) * Z.of_nat order)%Z in
  (S p, con).

Definition connectivityLoop (node : Z) (con : list Z) : nat * list Z :=
  for_loop (order - 1) (fun m st =>
    for_loop (order - 1) (fun n st => connectivityStep node m n st) st)
    (O, con).

Definition getOutputConnectivity (con : list Z) (node : Z) : list Z :=
  snd (connectivityLoop node con).

End Order.

End PoissonQuad.

(** ** TACSBeamConstitutive *)

Module TACSBeamConstitutive.

(** The number of entries of the packed stiffness array [C].  The constant
    is declared in the class header, which is missing from the sources
    embedded here; the constructors write the entries [C[0]] to [C[20]],
    the upper triangle of a 6 by 6 matrix stored row by row. *)
Definition NUM_TANGENT_STIFFNESS_ENTRIES : nat := 21.

(** The members [C], [rho] and [axis]. *)
Record t : Type := mk { C : list R; rho : list R; axis : list R }.

(** [memcpy(dst, src, n*sizeof(TacsScalar))]. *)
Definition memcpy (dst src : list R) (n : nat) : list R :=
  for_loop n (fun i dst => write dst i (get src i)) dst.

(** [memset(C, 0, n*sizeof(TacsScalar))]. *)
Definition memset0 (dst : list R) (n : nat) : list R :=
  for_loop n (fun i dst => write dst i 0%R) dst.

(** "Set the reference axis and normalize it": the seven statements that
    open both explicit constructors and the [if (axs)] branch of
    [setProperties]. *)
Definition setAxis (axis axs : list R) : list R :=
  let axis := write axis 0 (get axs 0) in
  let axis := write axis 1 (get axs 1) in
  let axis := write axis 2 (get axs 2) in
  let tmp := (1 / sqrt (get axis 0 * get axis 0 +
                        get axis 1 * get axis 1 +
                        get axis 2 * get axis 2))%R in
  let axis := write axis 0 (get axis 0 * tmp)%R in
  let axis := write axis 1 (get axis 1 * tmp)%R in
  write axis 2 (get axis 2 * tmp)%R.

(** The three member arrays have their declared sizes. *)
Definition sized (o : t) : Prop :=
  length (C o) = NUM_TANGENT_STIFFNESS_ENTRIES
  /\ length (rho o) = 4%nat /\ length (axis o) = 3%nat.

(** The class has three overloaded constructors, numbered here in the
    order of the source.  First, the constructor "for Timoshenko beam
    theory based constitutive object".  The members of an object under
    construction hold indeterminate values; [fresh] stands for them. *)
Definition TACSBeamConstitutive_1 (fresh : t) (axs : list R)
    (EA EI22 EI33 EI23 GJ kG22 kG33 kG23 m00 m11 m22 m33
     xm2 xm3 xc2 xc3 xk2 xk3 muS : R) : t :=
  let axis := setAxis (axis fresh) axs in
  let C := memset0 (C fresh) NUM_TANGENT_STIFFNESS_ENTRIES in
  let C := write C 0 EA in
  let C := write C 2 (xc3 * EA)%R in
  let C := write C 3 (- xc2 * EA)%R in
  let C := write C 6 (GJ + xk2 * xk2 * kG33 + xk3 * xk3 * kG22
                      + 2 * xk2 * xk3 * kG23)%R in
  let C := write C 9 (- xk2 * kG23 - xk3 * kG22)%R in
  let C := write C 10 (xk2 * kG33 + xk3 * kG23)%R in
  let C := write C 11 (EI22 + xc3 * xc3 * EA)%R in
  let C := write C 12 (- (EI23 + xc2 * xc3 * EA))%R in
  let C := write C 15 (EI33 + xc2 * xc2 * EA)%R in
  let C := write C 18 kG22 in
  let C := write C 19 (- kG23)%R in
  let C := write C 20 kG33 in
  let rho := write (rho fresh) 0 m00 in
  let rho := write rho 1 m11 in
  let rho := write rho 2 m22 in
  let rho := write rho 3 (m00 * xm2 * xm3)%R in
  {| C := C; rho := rho; axis := axis |}.

(** Second, the constructor that sets "the diagonal components of the
    stiffness matrix and the mass moments of the cross-section". *)
Definition TACSBeamConstitutive_2 (fresh : t)
    (rhoA rhoIy rhoIz rhoIyz EA GJ EIy EIz kGAy kGAz : R)
    (axs : list R) : t :=
  let axis := setAxis (axis fresh) axs in
  let C := memset0 (C fresh) NUM_TANGENT_STIFFNESS_ENTRIES in
  let C := write C 0 EA in
  let C := write C 6 GJ in
  let C := write C 11 EIy in
  let C := write C 15 EIz in
  let C := write C 18 kGAy in
  let C := write C 20 kGAz in
  let rho := write (rho fresh) 0 rhoA in
  let rho := write rho 1 rhoIy in
  let rho := write rho 2 rhoIz in
  let rho := write rho 3 rhoIyz in
  {| C := C; rho := rho; axis := axis |}.

(** A null pointer argument is [None]. *)
Definition setProperties (self : t) (rho0 C0 axs : option (list R)) : t :=
  let axis :=
    match axs with
    | Some axs => setAxis (axis self) axs
    | None => axis self
    end in
  let rho :=
    match rho0 with
    | Some rho0 => memcpy (rho self) rho0 4
    | None => rho self
    end in
  let C :=
    match C0 with
    | Some C0 => memcpy (C self) C0 NUM_TANGENT_STIFFNESS_ENTRIES
    | None => C self
    end in
  {| C := C; rho := rho; axis := axis |}.

(** Third, the constructor that sets "the full stiffness matrix": it only
    calls [setProperties]. *)
Definition TACSBeamConstitutive_3 (fresh : t) (rho0 C0 axs : option (list R)) : t :=
  setProperties fresh rho0 C0 axs.

(** [getProperties]: each non-null argument is a buffer of the caller that
    is filled; the function returns the three buffers. *)
Definition getProperties (self : t) (rho0 C0 axs : option (list R))
  : option (list R) * option (list R) * option (list R) :=
  let axs :=
    match axs with
    | Some axs =>
        let axs := write axs 0 (get (axis self) 0) in
        let axs := write axs 1 (get (axis self) 1) in
        Some (write axs 2 (get (axis self) 2))
    | None => None
    end in
  let rho0 :=
    match rho0 with
    | Some rho0 => Some (memcpy rho0 (rho self) 4)
    | None => None
    end in
  let C0 :=
    match C0 with
    | Some C0 => Some (memcpy C0 (C self) NUM_TANGENT_STIFFNESS_ENTRIES)
    | None => None
    end in
  (rho0, C0, axs).

Definition getNumStresses : Z := 6.

Definition evalDensity (self : t) (elemIndex : Z) (pt X : list R) : R :=
  get (rho self) 0.

Definition evalSpecificHeat (self : t) (elemIndex : Z) (pt X : list R) : R :=
  0%R.

Definition constName : string := "TACSBeamConstitutive"%string.
Definition getObjectName : string := constName.

(** Modelled from the spec: [computeStress(C, e, s)], an inline function
    of the class header, which is missing from the sources embedded
    here.  The stress is [s = C e] for the symmetric 6 by 6 operator
    whose upper triangle [Ct] stores row by row. *)
Definition computeStress (Ct e s : list R) : list R :=
  let c := get Ct in
  let s := write s 0 (c 0%nat * get e 0 + c 1%nat * get e 1 + c 2%nat * get e 2
                      + c 3%nat * get e 3 + c 4%nat * get e 4
                      + c 5%nat * get e 5)%R in
  let s := write s 1 (c 1%nat * get e 0 + c 6%nat * get e 1 + c 7%nat * get e 2
                      + c 8%nat * get e 3 + c 9%nat * get e 4
                      + c 10%nat * get e 5)%R in
  let s := write s 2 (c 2%nat * get e 0 + c 7%nat * get e 1 + c 11%nat * get e 2
                      + c 12%nat * get e 3 + c 13%nat * get e 4
                      + c 14%nat * get e 5)%R in
  let s := write s 3 (c 3%nat * get e 0 + c 8%nat * get e 1 + c 12%nat * get e 2
                      + c 15%nat * get e 3 + c 16%nat * get e 4
                      + c 17%nat * get e 5)%R in
  let s := write s 4 (c 4%nat * get e 0 + c 9%nat * get e 1 + c 13%nat * get e 2
                      + c 16%nat * get e 3 + c 18%nat * get e 4
                      + c 19%nat * get e 5)%R in
  write s 5 (c 5%nat * get e 0 + c 10%nat * get e 1 + c 14%nat * get e 2
             + c 17%nat * get e 3 + c 19%nat * get e 4
             + c 20%nat * get e 5)%R.

(** [evalStress]: [s] is the caller's output buffer; the function returns
    its final contents. *)
Definition evalStress (self : t) (elemIndex : Z) (pt X e s : list R)
  : list R :=
  computeStress (C self) e s.

Definition evalTangentStiffness (self : t) (elemIndex : Z) (pt X C0 : list R)
  : list R :=
  memcpy C0 (C self) NUM_TANGENT_STIFFNESS_ENTRIES.

End TACSBeamConstitutive.

(** * Specification vocabulary

    The notions the statements below are written with.  None of them is
    code of the repository. *)

Open Scope R_scope.

(** [sum_list] and [Rsum] are specification devices: the sum of an array
    and the sum of [g 0 .. g (n-1)]. *)
Definition sum_list (a : list R) : R := fold_right Rplus 0 a.

Fixpoint Rsum (n : nat) (g : nat -> R) : R :=
  match n with
  | O => 0
  | S k => Rsum k g + g k
  end.

(** ** Accumulation *)

(** [adds F c]: the buffer transformer [F] keeps the length and adds
    [c p] to entry [p], whatever the buffer holds. *)
Definition adds (F : list R -> list R) (c : nat -> R) : Prop :=
  forall buf,
    length (F buf) = length buf
    /\ forall p, (p < length buf)%nat -> get (F buf) p = get buf p + c p.

(** ** Output connectivity *)

Section ConnectivityVocabulary.

Variable order : nat.
Variable node : Z.
Variable con : list Z.
Variable K : nat.

(** The four corners of sub-quadrilateral [(m, n)], in the order the source
    writes them. *)
Definition quadNodes (m n : nat) : list Z :=
  [ (node + Z.of_nat n + Z.of_nat m * Z.of_nat order)%Z;
    (node + Z.of_nat n + 1 + Z.of_nat m * Z.of_nat order)%Z;
    (node + Z.of_nat n + 1 + (Z.of_nat m + 1) * Z.of_nat order)%Z;
    (node + Z.of_nat n + (Z.of_nat m + 1) * Z.of_nat order)%Z ].

(** What holds after [q] sub-quadrilaterals have been written, [K] of
    them to a row. *)
Definition written (q : nat) (st : nat * list Z) : Prop :=
  fst st = q
  /\ length (snd st) = length con
  /\ (forall m n k, (n < K)%nat -> (n + m * K < q)%nat -> (k < 4)%nat ->
        nth (4 * (n + m * K) + k) (snd st) 0%Z = nth k (quadNodes m n) 0%Z)
  /\ (forall i, (4 * q <= i)%nat -> nth i (snd st) 0%Z = nth i con 0%Z).

End ConnectivityVocabulary.

(** ** The terms the element kernels accumulate *)

Section Terms.

Variable order : nat.
Variable getGaussPtsWts : nat -> list R * list R.
Variable lagrangeSFKnotsDeriv : R -> list R -> nat -> list R * list R.
Variable jacobian2d : list R -> R * list R.
Variable q : PoissonQuad.t.

Local Abbreviation getShapeFunctionsDeriv :=
  (PoissonQuad.getShapeFunctionsDeriv order lagrangeSFKnotsDeriv).
Local Abbreviation getJacobianTransform :=
  (PoissonQuad.getJacobianTransform order).

(** The amount [addResidual] adds to [res[i]] at quadrature point
    [(m, n)]. *)
Definition residualTerm (Xpts vars : list R) (m n i : nat) : R :=
  let '(pts, wts) := getGaussPtsWts order in
  let pt := [get pts n; get pts m] in
  let '(N, Na, Nb) := getShapeFunctionsDeriv q pt in
  let Xd := getJacobianTransform Na Nb Xpts in
  let '(h, J) := jacobian2d Xd in
  let h := h * (get wts n * get wts m) in
  let '(fval, px, py) :=
    for_loop (order * order) (fun i '(fval, px, py) =>
      (fval + get N i * get (PoissonQuad.f q) i,
       px + (get Na i * get J 0 + get Nb i * get J 2) * get vars i,
       py + (get Na i * get J 1 + get Nb i * get J 3) * get vars i))
      (0, 0, 0) in
  let Nxi := get Na i * get J 0 + get Nb i * get J 2 in
  let Nyi := get Na i * get J 1 + get Nb i * get J 3 in
  h * (Nxi * px + Nyi * py - fval * get N i).

(** The total [addResidual] adds to entry [p]. *)
Definition residualIncrement (Xpts vars : list R) (p : nat) : R :=
  Rsum order (fun m => Rsum order (fun n =>
    Rsum (order * order) (fun i =>
      if (p =? i)%nat then residualTerm Xpts vars m n i else 0))).

(** The amount [addJacobian] adds to [mat[i + j*order*order]] at
    quadrature point [(m, n)]. *)
Definition jacobianTerm (alpha : R) (Xpts : list R) (m n i j : nat) : R :=
  let '(pts, wts) := getGaussPtsWts order in
  let pt := [get pts n; get pts m] in
  let '(N, Na, Nb) := getShapeFunctionsDeriv q pt in
  let Xd := getJacobianTransform Na Nb Xpts in
  let '(h, J) := jacobian2d Xd in
  let h := h * (alpha * get wts n * get wts m) in
  let Nxj := get Na j * get J 0 + get Nb j * get J 2 in
  let Nyj := get Na j * get J 1 + get Nb j * get J 3 in
  let Nxi := get Na i * get J 0 + get Nb i * get J 2 in
  let Nyi := get Na i * get J 1 + get Nb i * get J 3 in
  h * (Nxi * Nxj + Nyi * Nyj).

(** The total [addJacobian] adds to entry [p]. *)
Definition jacobianIncrement (alpha : R) (Xpts : list R) (p : nat) : R :=
  Rsum order (fun m => Rsum order (fun n =>
    Rsum (order * order) (fun j => Rsum (order * order) (fun i =>
      if (p =? i + j * order * order)%nat
      then jacobianTerm alpha Xpts m n i j else 0)))).

(** The quadrature point [(m, n)] as [addLocalizedError] sets it. *)
Definition quadraturePoint (m n : nat) : list R :=
  let '(pts, wts) := getGaussPtsWts order in [get pts n; get pts m].

(** The scalar [product] of [addLocalizedError] at quadrature point
    [(m, n)]. *)
Definition errorProduct (adjoint Xpts vars : list R) (m n : nat) : R :=
  let '(pts, wts) := getGaussPtsWts order in
  let pt := [get pts n; get pts m] in
  let '(N, Na, Nb) := getShapeFunctionsDeriv q pt in
  let Xd := getJacobianTransform Na Nb Xpts in
  let '(h, J) := jacobian2d Xd in
  let h := h * (get wts n * get wts m) in
  let '(fval, adj, px, py, ax, ay) :=
    for_loop (order * order) (fun i '(fval, adj, px, py, ax, ay) =>
      let Nx := get Na i * get J 0 + get Nb i * get J 2 in
      let Ny := get Na i * get J 1 + get Nb i * get J 3 in
      (fval + get N i * get (PoissonQuad.f q) i,
       adj + get N i * get adjoint i,
       px + Nx * get vars i,
       py + Ny * get vars i,
       ax + Nx * get adjoint i,
       ay + Ny * get adjoint i))
      (0, 0, 0, 0, 0, 0) in
  h * (ax * px + ay * py - adj * fval).

(** The factor [h] of [addJacobian] at quadrature point [(m, n)], after
    [h *= alpha*wts[n]*wts[m]]. *)
Definition jacobianWeight (alpha : R) (Xpts : list R) (m n : nat) : R :=
  let '(pts, wts) := getGaussPtsWts order in
  let pt := [get pts n; get pts m] in
  let '(N, Na, Nb) := getShapeFunctionsDeriv q pt in
  let Xd := getJacobianTransform Na Nb Xpts in
  let '(h, J) := jacobian2d Xd in
  h * (alpha * get wts n * get wts m).

(** The total [addLocalizedError] adds to entry [p]. *)
Definition errorIncrement (adjoint Xpts vars : list R) (p : nat) : R :=
  Rsum order (fun m => Rsum order (fun n =>
    let w := PoissonQuad.Nerr (quadraturePoint m n) in
    let product := errorProduct adjoint Xpts vars m n in
    (if (p =? 0)%nat then get w 0 * product else 0)
    + (if (p =? order - 1)%nat then get w 1 * product else 0)
    + (if (p =? order * (order - 1))%nat then get w 2 * product else 0)
    + (if (p =? order * order - 1)%nat then get w 3 * product else 0))).

End Terms.

(** ** The output of [getOutputData] *)

(** The gradient [(px, py)] that [getOutputData] evaluates at the node
    [(m, n)] of the grid. *)
Definition nodalGradient (order : nat)
    (lagrangeSFKnotsDeriv : R -> list R -> nat -> list R * list R)
    (jacobian2d : list R -> R * list R)
    (q : PoissonQuad.t) (Xpts vars : list R) (m n : nat) : R * R :=
  let pt := [get (PoissonQuad.knots q) n; get (PoissonQuad.knots q) m] in
  let '(N, Na, Nb) :=
    PoissonQuad.getShapeFunctionsDeriv order lagrangeSFKnotsDeriv q pt in
  let Xd := PoissonQuad.getJacobianTransform order Na Nb Xpts in
  let '(_, J) := jacobian2d Xd in
  (Rsum (order * order) (fun i =>
     (get Na i * get J 0 + get Nb i * get J 2) * get vars i),
   Rsum (order * order) (fun i =>
     (get Na i * get J 1 + get Nb i * get J 3) * get vars i)).

(** The row of node [p] in the output of [getOutputData]: the blocks the
    four flags select, in the order the source writes them. *)
Definition outputRow (nodes disp strains stresses : bool)
    (Xpts vars : list R) (p : nat) (g : R * R) : list R :=
  (if nodes
   then [get Xpts (3 * p); get Xpts (3 * p + 1); get Xpts (3 * p + 2)]
   else [])
  ++ (if disp then [get vars p] else [])
  ++ (if strains then [fst g; snd g] else [])
  ++ (if stresses then [fst g; snd g] else []).

(** The number of entries of a row. *)
Definition outputWidth (nodes disp strains stresses : bool) : nat :=
  (if nodes then 3 else 0) + (if disp then 1 else 0)
  + (if strains then 2 else 0) + (if stresses then 2 else 0).

(** What holds after the rows of [c] nodes have been written, [ld_data]
    entries apart, into the buffer [data]. *)
Definition rowsWritten (ld_data : nat) (data : list R) (row : nat -> list R)
    (c : nat) (st : nat * list R) : Prop :=
  fst st = (c * ld_data)%nat
  /\ length (snd st) = length data
  /\ (forall p k, (p < c)%nat -> (k < ld_data)%nat ->
        get (snd st) (p * ld_data + k)
        = if (k <? length (row p))%nat then get (row p) k
          else get data (p * ld_data + k))
  /\ (forall i, (c * ld_data <= i)%nat -> get (snd st) i = get data i).

(** ** Lagrange interpolation over a knot vector *)

Section LagrangeVocabulary.

Variable k : nat -> R.

(** [Lag u t i]: the value of [N[i]] after the inner loop of
    [lagrangeSFKnots] has run over the knots [j < t]. *)
Definition Lag (u : R) (t i : nat) : R :=
  for_loop t (fun j Ni =>
    if (i =? j)%nat then Ni
    else Ni * ((u - k j) * (1 / (k i - k j)))) 1.

(** [W u t]: the product of [u - k j] over [j < t]. *)
Definition W (u : R) (t : nat) : R :=
  for_loop t (fun j w => w * (u - k j)) 1.

End LagrangeVocabulary.

(** ** The beam constitutive object *)

(** The position of entry [(i, j)] of a symmetric 6 by 6 matrix in the
    array that stores its upper triangle row by row. *)
Definition tri6 (i j : nat) : nat :=
  (nth (Nat.min i j) [0; 6; 11; 15; 18; 20] 0 + (Nat.max i j - Nat.min i j))%nat.

Definition sym6 (Ct : list R) (i j : nat) : R := get Ct (tri6 i j).

(** The energy form [sum_i sum_j e[i] C(i,j) e[j]] of the symmetric
    matrix a packed array stores. *)
Definition energyForm (Ct e : list R) : R :=
  Rsum 6 (fun i => Rsum 6 (fun j => get e i * sym6 Ct i j * get e j)).

(** [a e1 + b e2] on the six strain components. *)
Definition combine6 (a : R) (e1 : list R) (b : R) (e2 : list R) : list R :=
  map (fun i => a * get e1 i + b * get e2 i) (seq 0 6).

(** The squared Euclidean length of a 3-vector. *)
Definition norm2 (a : list R) : R :=
  get a 0 * get a 0 + get a 1 * get a 1 + get a 2 * get a 2.

(** [axs] divided by its Euclidean length. *)
Definition unitAxis (axs : list R) : list R :=
  [ get axs 0 / sqrt (norm2 axs);
    get axs 1 / sqrt (norm2 axs);
    get axs 2 / sqrt (norm2 axs) ].

(** What C10 says of an object [o] whose axis was set from [axs]: the
    stored axis is [axs] over its length, it has length 1, and
    [getProperties] hands it out. *)
Definition storesUnitAxis (axs : list R) (o : TACSBeamConstitutive.t)
  : Prop :=
  TACSBeamConstitutive.axis o = unitAxis axs
  /\ norm2 (TACSBeamConstitutive.axis o) = 1
  /\ sqrt (norm2 (TACSBeamConstitutive.axis o)) = 1
  /\ forall rho0 C0 out, length out = 3%nat ->
       snd (TACSBeamConstitutive.getProperties o rho0 C0 (Some out))
         = Some (unitAxis axs).

(** * Properties *)

(** ** Arrays and loops *)

Lemma write_length {A : Type} (a : list A) (i : nat) (v : A) :
  length (write a i v) = length a.
Proof.
  revert i; induction a as [|x a IH]; intros [|i]; simpl; auto.
Qed.

Lemma nth_write_same {A : Type} (a : list A) (i : nat) (v d : A) :
  (i < length a)%nat -> nth i (write a i v) d = v.
Proof.
  revert i; induction a as [|x a IH]; intros [|i] H; simpl in *;
    try lia; auto.
  apply IH; lia.
Qed.

Lemma nth_write_other {A : Type} (a : list A) (i j : nat) (v d : A) :
  i <> j -> nth j (write a i v) d = nth j a d.
Proof.
  revert i j; induction a as [|x a IH]; intros [|i] [|j] H; simpl;
    auto; try congruence.
Qed.

Lemma for_loop_S {S : Type} (n : nat) (body : nat -> S -> S) (s : S) :
  for_loop (Datatypes.S n) body s = body n (for_loop n body s).
Proof.
  unfold for_loop. rewrite seq_S, fold_left_app. reflexivity.
Qed.

Lemma for_loop_0 {S : Type} (body : nat -> S -> S) (s : S) :
  for_loop 0 body s = s.
Proof. reflexivity. Qed.

(** A loop keeps whatever every iteration keeps. *)
Lemma for_loop_invariant {S : Type} (P : nat -> S -> Prop) (n : nat)
      (body : nat -> S -> S) (s : S) :
  P O s ->
  (forall i st, (i < n)%nat -> P i st -> P (Datatypes.S i) (body i st)) ->
  P n (for_loop n body s).
Proof.
  intros H0 Hstep.
  assert (G : forall k, (k <= n)%nat -> P k (for_loop k body s)).
  { induction k as [|k IH]; intros Hk.
    - exact H0.
    - rewrite for_loop_S. apply Hstep; [lia | apply IH; lia]. }
  apply G; lia.
Qed.

(** ** Field names (C9) *)

(** C9: outside the component range the field-name queries answer with the
    null sentinel: [stressName i] and [strainName i] are [NULL] for every
    [i] other than 0 and 1, and [extraName i] is [NULL] for every [i]. *)
Theorem names_out_of_range_null (i : Z) (H0 : i <> 0%Z) (H1 : i <> 1%Z) :
  PoissonQuad.stressName i = None
  /\ PoissonQuad.strainName i = None
  /\ (forall k : Z, PoissonQuad.extraName k = None).
Proof.
  unfold PoissonQuad.stressName, PoissonQuad.strainName.
  destruct (Z.eqb_spec i 0) as [E|_]; [contradiction|].
  destruct (Z.eqb_spec i 1) as [E|_]; [contradiction|].
  repeat split; reflexivity.
Qed.

Lemma names_out_of_range_null_witness :
  PoissonQuad.stressName 2 = None
  /\ PoissonQuad.strainName (-1) = None
  /\ PoissonQuad.extraName 0 = None.
Proof.
  split; [|split].
  - apply (names_out_of_range_null (i := 2)); lia.
  - apply (names_out_of_range_null (i := -1)); lia.
  - apply (names_out_of_range_null (i := 2)); lia.
Defined.

(** ** Output connectivity (C5) *)

Section Connectivity.

Variable order : nat.
Variable node : Z.
Variable con : list Z.

Let K := (order - 1)%nat.

Local Abbreviation quadNodes := (quadNodes order node).
Local Abbreviation written := (written order node con K).

Lemma grid_index_unique (m n m' n' : nat) :
  (n < K)%nat -> (n' < K)%nat -> (n' + m' * K = n + m * K)%nat ->
  m' = m /\ n' = n.
Proof.
  intros Hn Hn' E.
  assert (m' = m) by nia. subst m'. split; [reflexivity | lia].
Qed.

Lemma connectivityStep_written (m n : nat) (st : nat * list Z) :
  (n < K)%nat -> (4 * (n + m * K) + 4 <= length con)%nat ->
  written (n + m * K) st ->
  written (S (n + m * K)) (PoissonQuad.connectivityStep order node m n st).
Proof.
  intros Hn Hlen (Hp & Hl & Hdone & Hrest).
  destruct st as [p c]; cbn [fst snd] in Hp, Hl, Hdone, Hrest; subst p.
  unfold written, PoissonQuad.connectivityStep; cbn [fst snd].
  set (p := (n + m * K)%nat) in *.
  split; [reflexivity|].
  split; [now rewrite !write_length|].
  assert (W : forall i d,
    nth i (write (write (write (write c (4 * p)
        (node + Z.of_nat n + Z.of_nat m * Z.of_nat order)%Z) (4 * p + 1)
        (node + Z.of_nat n + 1 + Z.of_nat m * Z.of_nat order)%Z) (4 * p + 2)
        (node + Z.of_nat n + 1 + (Z.of_nat m + 1) * Z.of_nat order)%Z)
        (4 * p + 3)
        (node + Z.of_nat n + (Z.of_nat m + 1) * Z.of_nat order)%Z) d =
    if (i =? 4 * p + 3)%nat
    then (node + Z.of_nat n + (Z.of_nat m + 1) * Z.of_nat order)%Z
    else if (i =? 4 * p + 2)%nat
    then (node + Z.of_nat n + 1 + (Z.of_nat m + 1) * Z.of_nat order)%Z
    else if (i =? 4 * p + 1)%nat
    then (node + Z.of_nat n + 1 + Z.of_nat m * Z.of_nat order)%Z
    else if (i =? 4 * p)%nat
    then (node + Z.of_nat n + Z.of_nat m * Z.of_nat order)%Z
    else nth i c d).
  { intros i d.
    destruct (Nat.eqb_spec i (4 * p + 3)) as [->|N3].
    { apply nth_write_same. rewrite !write_length. lia. }
    rewrite nth_write_other by lia.
    destruct (Nat.eqb_spec i (4 * p + 2)) as [->|N2].
    { apply nth_write_same. rewrite !write_length. lia. }
    rewrite nth_write_other by lia.
    destruct (Nat.eqb_spec i (4 * p + 1)) as [->|N1].
    { apply nth_write_same. rewrite !write_length. lia. }
    rewrite nth_write_other by lia.
    destruct (Nat.eqb_spec i (4 * p)) as [->|N0].
    { apply nth_write_same. lia. }
    now rewrite nth_write_other by lia. }
  split.
  - intros m' n' k Hn' Hlt Hk. rewrite W.
    destruct (Nat.eq_dec (n' + m' * K) p) as [E|NE].
    + destruct (@grid_index_unique m n m' n' Hn Hn' E) as [-> ->].
      fold p.
      destruct k as [|[|[|[|k]]]]; try lia; simpl nth.
      * replace (4 * p + 0 =? 4 * p + 3)%nat with false
          by (symmetry; apply Nat.eqb_neq; lia).
        replace (4 * p + 0 =? 4 * p + 2)%nat with false
          by (symmetry; apply Nat.eqb_neq; lia).
        replace (4 * p + 0 =? 4 * p + 1)%nat with false
          by (symmetry; apply Nat.eqb_neq; lia).
        replace (4 * p + 0 =? 4 * p)%nat with true
          by (symmetry; apply Nat.eqb_eq; lia).
        reflexivity.
      * replace (4 * p + 1 =? 4 * p + 3)%nat with false
          by (symmetry; apply Nat.eqb_neq; lia).
        replace (4 * p + 1 =? 4 * p + 2)%nat with false
          by (symmetry; apply Nat.eqb_neq; lia).
        now rewrite Nat.eqb_refl.
      * replace (4 * p + 2 =? 4 * p + 3)%nat with false
          by (symmetry; apply Nat.eqb_neq; lia).
        now rewrite Nat.eqb_refl.
      * now rewrite Nat.eqb_refl.
    + assert (n' + m' * K < p)%nat by lia.
      repeat match goal with
      | |- context [(?a =? ?b)%nat] =>
          replace (a =? b)%nat with false by (symmetry; apply Nat.eqb_neq; lia)
      end.
      apply Hdone; assumption.
  - intros i Hi. rewrite W.
    repeat match goal with
    | |- context [(?a =? ?b)%nat] =>
        replace (a =? b)%nat with false by (symmetry; apply Nat.eqb_neq; lia)
    end.
    apply Hrest. lia.
Qed.

Lemma connectivityLoop_written :
  (4 * (K * K) <= length con)%nat ->
  written (K * K) (PoissonQuad.connectivityLoop order node con).
Proof.
  intros Hlen. unfold PoissonQuad.connectivityLoop. fold K.
  replace (K * K)%nat with (0 + K * K)%nat at 1 by lia.
  apply (for_loop_invariant (fun m st => written (0 + m * K) st)).
  - unfold written; simpl. repeat split; auto; intros; lia.
  - intros m st Hm Hst.
    replace (0 + S m * K)%nat with (K + m * K)%nat by lia.
    apply (for_loop_invariant (fun n st => written (n + m * K) st));
      [exact Hst|].
    intros n st' Hn Hst'.
    change (S n + m * K)%nat with (S (n + m * K)).
    apply connectivityStep_written; auto. nia.
Qed.

End Connectivity.

(** C5: for an element of order at least 1 and any base node offset,
    [getOutputConnectivity] writes exactly [(order-1)^2] quadrilaterals,
    the count [addOutputCount] announces: sub-quadrilateral [(m, n)] is
    number [n + m*(order-1)] and holds the grid nodes
    [node + n + m*order], [node + n+1 + m*order],
    [node + n+1 + (m+1)*order], [node + n + (m+1)*order]; nothing past
    the [4*(order-1)^2] entries is touched.  For order 3 these are the 4
    quadrilaterals of the 3 by 3 grid. *)
Theorem getOutputConnectivity_quads (order : nat) (node : Z) (con : list Z)
    (Hord : (1 <= order)%nat)
    (Hlen : (4 * ((order - 1) * (order - 1)) <= length con)%nat) :
  let con' := PoissonQuad.getOutputConnectivity order con node in
  fst (PoissonQuad.connectivityLoop order node con)
    = ((order - 1) * (order - 1))%nat
  /\ length con' = length con
  /\ (forall m n k, (m < order - 1)%nat -> (n < order - 1)%nat -> (k < 4)%nat ->
        nth (4 * (n + m * (order - 1)) + k) con' 0%Z
          = nth k (quadNodes order node m n) 0%Z)
  /\ (forall i, (4 * ((order - 1) * (order - 1)) <= i)%nat ->
        nth i con' 0%Z = nth i con 0%Z)
  /\ (forall nelems nnodes ncsr,
        PoissonQuad.addOutputCount order nelems nnodes ncsr
          = ((nelems + Z.of_nat ((order - 1) * (order - 1)))%Z,
             (nnodes + Z.of_nat (order * order))%Z,
             (ncsr + 4 * Z.of_nat ((order - 1) * (order - 1)))%Z))
  /\ (forall nd,
        PoissonQuad.getOutputConnectivity 3 (repeat 0%Z 16) nd
          = [ nd + 0; nd + 1; nd + 4; nd + 3;
              nd + 1; nd + 2; nd + 5; nd + 4;
              nd + 3; nd + 4; nd + 7; nd + 6;
              nd + 4; nd + 5; nd + 8; nd + 7 ]%Z).
Proof.
  intros con'.
  destruct (connectivityLoop_written order node con Hlen)
    as (Hp & Hl & Hdone & Hrest).
  split; [exact Hp|]. split; [exact Hl|].
  split.
  { intros m n k Hm Hn Hk. apply Hdone; auto. nia. }
  split; [exact Hrest|].
  split.
  { intros. unfold PoissonQuad.addOutputCount.
    rewrite !Nat2Z.inj_mul. replace (Z.of_nat (order - 1)) with
      (Z.of_nat order - 1)%Z by lia.
    f_equal; lia. }
  intros nd. unfold PoissonQuad.getOutputConnectivity,
    PoissonQuad.connectivityLoop, PoissonQuad.connectivityStep, for_loop.
  simpl. repeat (f_equal; try ring).
Qed.

Lemma getOutputConnectivity_quads_witness :
  nth (4 * (1 + 1 * (3 - 1)) + 2)
      (PoissonQuad.getOutputConnectivity 3 (repeat 0%Z 16) 100) 0%Z
    = nth 2 (quadNodes 3 100 1 1) 0%Z.
Proof.
  assert (Hord : (1 <= 3)%nat) by lia.
  assert (Hlen : (4 * ((3 - 1) * (3 - 1)) <= length (repeat 0%Z 16))%nat)
    by (simpl; lia).
  destruct (getOutputConnectivity_quads 100 (repeat 0%Z 16) Hord Hlen)
    as (_ & _ & H & _).
  apply H; lia.
Defined.

(** ** Accumulating loops *)

Lemma get_write_same (a : list R) (i : nat) (v : R) :
  (i < length a)%nat -> get (write a i v) i = v.
Proof. apply nth_write_same. Qed.

Lemma get_write_other (a : list R) (i j : nat) (v : R) :
  i <> j -> get (write a i v) j = get a j.
Proof. apply nth_write_other. Qed.

Lemma get_overflow (a : list R) (i : nat) :
  (length a <= i)%nat -> get a i = 0.
Proof. intros H. apply nth_overflow; exact H. Qed.

Lemma list_eq_get (a b : list R) :
  length a = length b -> (forall i, get a i = get b i) -> a = b.
Proof.
  intros Hl H. apply (nth_ext a b 0 0 Hl). intros n _. apply H.
Qed.

Lemma get_repeat_0 (n i : nat) : get (repeat 0 n) i = 0.
Proof.
  unfold get. revert i; induction n as [|n IH]; intros [|i]; simpl; auto.
Qed.

Lemma get_map_seq (g : nat -> R) (n i : nat) :
  (i < n)%nat -> get (map g (seq 0 n)) i = g i.
Proof.
  intros H. unfold get.
  rewrite (nth_indep _ 0 (g 0%nat)) by now rewrite length_map, length_seq.
  rewrite (map_nth g (seq 0 n) 0%nat i), seq_nth by exact H. reflexivity.
Qed.

Lemma get_map_scal (k : R) (a : list R) (i : nat) :
  get (map (fun x => k * x) a) i = k * get a i.
Proof.
  unfold get. revert i; induction a as [|x a IH]; intros [|i]; simpl;
    auto; ring.
Qed.

Lemma for_loop_ext {S : Type} (n : nat) (body body' : nat -> S -> S) (s : S) :
  (forall i st, (i < n)%nat -> body i st = body' i st) ->
  for_loop n body s = for_loop n body' s.
Proof.
  intros H. induction n as [|n IH]; [reflexivity|].
  rewrite !for_loop_S, IH by (intros; apply H; lia). apply H; lia.
Qed.

Lemma Rsum_ext (n : nat) (g g' : nat -> R) :
  (forall k, (k < n)%nat -> g k = g' k) -> Rsum n g = Rsum n g'.
Proof.
  intros H. induction n as [|n IH]; simpl; [reflexivity|].
  rewrite IH, H by (intros; auto with arith). reflexivity.
Qed.

Lemma Rsum_0 (n : nat) : Rsum n (fun _ => 0) = 0.
Proof. induction n as [|n IH]; simpl; [|rewrite IH]; ring. Qed.

Lemma Rsum_scal (n : nat) (a : R) (g : nat -> R) :
  Rsum n (fun k => a * g k) = a * Rsum n g.
Proof. induction n as [|n IH]; simpl; [|rewrite IH]; ring. Qed.

Lemma Rsum_plus (n : nat) (g g' : nat -> R) :
  Rsum n (fun k => g k + g' k) = Rsum n g + Rsum n g'.
Proof. induction n as [|n IH]; simpl; [|rewrite IH]; ring. Qed.

(** The sum of [g k] over the one index [k0] that a test selects. *)
Lemma Rsum_delta (n k0 : nat) (g : nat -> R) :
  Rsum n (fun k => if (k0 =? k)%nat then g k else 0)
    = if (k0 <? n)%nat then g k0 else 0.
Proof.
  induction n as [|n IH]; simpl Rsum; [reflexivity|]. rewrite IH.
  destruct (Nat.eqb_spec k0 n) as [->|N].
  - rewrite Nat.ltb_irrefl.
    replace (n <? S n)%nat with true by (symmetry; apply Nat.ltb_lt; lia).
    ring.
  - destruct (Nat.ltb_spec k0 n), (Nat.ltb_spec k0 (S n)); try lia; ring.
Qed.

Lemma adds_add_at (i : nat) (v : R) :
  adds (fun buf => add_at buf i v) (fun p => if (p =? i)%nat then v else 0).
Proof.
  intros buf. unfold add_at. split; [apply write_length|].
  intros p Hp. destruct (Nat.eqb_spec p i) as [->|N].
  - now rewrite get_write_same.
  - rewrite get_write_other by auto. ring.
Qed.

Lemma adds_ext (F : list R -> list R) (c d : nat -> R) :
  adds F c -> (forall p, c p = d p) -> adds F d.
Proof.
  intros H E buf. destruct (H buf) as [Hl Hg]. split; [exact Hl|].
  intros p Hp. rewrite <- E. auto.
Qed.

Lemma adds_for_loop (n : nat) (body : nat -> list R -> list R)
      (c : nat -> nat -> R) :
  (forall k, (k < n)%nat -> adds (body k) (c k)) ->
  adds (for_loop n body) (fun p => Rsum n (fun k => c k p)).
Proof.
  intros H. induction n as [|n IH]; intros buf.
  - split; [reflexivity|]. intros p _. simpl. rewrite for_loop_0. ring.
  - rewrite for_loop_S.
    destruct (IH (fun k Hk => H k (Nat.lt_lt_succ_r _ _ Hk)) buf) as [Hl Hg].
    destruct (H n (Nat.lt_succ_diag_r n) (for_loop n body buf)) as [Hl' Hg'].
    split; [congruence|].
    intros p Hp. rewrite Hg' by congruence. rewrite Hg by exact Hp.
    simpl. ring.
Qed.

(** What an accumulating transformer does to any buffer is what it does
    to the zero buffer, added on top. *)
Lemma adds_from_zero (F : list R -> list R) (c : nat -> R) (buf : list R) :
  adds F c ->
  forall p, get (F buf) p = get buf p + get (F (repeat 0 (length buf))) p.
Proof.
  intros H p. destruct (H buf) as [Hl Hg].
  destruct (H (repeat 0 (length buf))) as [Hl0 Hg0].
  rewrite repeat_length in Hl0, Hg0.
  destruct (Nat.lt_ge_cases p (length buf)) as [Hp|Hp].
  - rewrite Hg, Hg0, get_repeat_0 by exact Hp. ring.
  - rewrite !get_overflow by lia. ring.
Qed.

Lemma adds_twice (F : list R -> list R) (c : nat -> R) (n : nat) :
  adds F c ->
  F (F (repeat 0 n)) = map (fun x => 2 * x) (F (repeat 0 n)).
Proof.
  intros H. destruct (H (repeat 0 n)) as [Hl0 Hg0].
  destruct (H (F (repeat 0 n))) as [Hl Hg].
  rewrite repeat_length in Hl0, Hg0.
  apply list_eq_get; [now rewrite length_map|].
  intros p. destruct (Nat.lt_ge_cases p n) as [Hp|Hp].
  - rewrite Hg, get_map_scal, Hg0, get_repeat_0 by lia. ring.
  - rewrite !get_overflow by (rewrite ?length_map; lia). reflexivity.
Qed.

(** ** The element kernels as accumulations *)

Section Kernels.

Variable order : nat.
Variable getGaussPtsWts : nat -> list R * list R.
Variable lagrangeSFKnotsDeriv : R -> list R -> nat -> list R * list R.
Variable jacobian2d : list R -> R * list R.
Variable q : PoissonQuad.t.

Local Abbreviation getShapeFunctionsDeriv :=
  (PoissonQuad.getShapeFunctionsDeriv order lagrangeSFKnotsDeriv).
Local Abbreviation getJacobianTransform :=
  (PoissonQuad.getJacobianTransform order).
Local Abbreviation addResidual :=
  (PoissonQuad.addResidual order getGaussPtsWts lagrangeSFKnotsDeriv
                           jacobian2d).
Local Abbreviation residualTerm :=
  (residualTerm order getGaussPtsWts lagrangeSFKnotsDeriv jacobian2d q).
Local Abbreviation residualIncrement :=
  (residualIncrement order getGaussPtsWts lagrangeSFKnotsDeriv jacobian2d q).

Lemma addResidual_loops (time : R) (res Xpts vars dvars ddvars : list R) :
  addResidual q time res Xpts vars dvars ddvars =
  for_loop order (fun m res =>
    for_loop order (fun n res =>
      for_loop (order * order) (fun i res =>
        add_at res i (residualTerm Xpts vars m n i)) res) res) res.
Proof.
  unfold PoissonQuad.addResidual, residualTerm.
  destruct (getGaussPtsWts order) as [pts wts].
  apply for_loop_ext; intros m st _.
  apply for_loop_ext; intros n st' _.
  destruct (getShapeFunctionsDeriv q [get pts n; get pts m]) as [[N Na] Nb].
  destruct (jacobian2d (getJacobianTransform Na Nb Xpts)) as [h J].
  destruct (for_loop (order * order) _ (0, 0, 0)) as [[fval px] py].
  reflexivity.
Qed.

Lemma addResidual_adds (time : R) (Xpts vars dvars ddvars : list R) :
  adds (fun res => addResidual q time res Xpts vars dvars ddvars)
       (residualIncrement Xpts vars).
Proof.
  eapply adds_ext.
  - intros buf. rewrite addResidual_loops. revert buf.
    apply adds_for_loop with
      (body := fun m res => for_loop order (fun n res =>
                 for_loop (order * order) (fun i res =>
                   add_at res i (residualTerm Xpts vars m n i)) res) res).
    intros m _.
    apply adds_for_loop with
      (body := fun n res => for_loop (order * order) (fun i res =>
                 add_at res i (residualTerm Xpts vars m n i)) res).
    intros n _.
    apply adds_for_loop with
      (body := fun i res => add_at res i (residualTerm Xpts vars m n i)).
    intros i _. apply adds_add_at.
  - reflexivity.
Qed.

End Kernels.

(** ** Additivity of the residual (C1) *)

(** C1: [addResidual] only adds to the caller's buffer and reads no hidden
    state.  The call is a sequence of updates [res[i] += term], one per
    quadrature point [(m, n)] and node [i], whose terms are fixed by the
    element (its [f] and knots), [Xpts] and [vars] and never read [res].
    So, numbers being reals, whatever [res] holds on entry each entry of
    the final buffer is the initial entry plus the entry a call on the
    zero buffer produces; [time], [dvars] and [ddvars] do not enter; and
    two calls in a row on a zero buffer give twice the result of one
    call. *)
Theorem addResidual_additive
    (order : nat) (getGaussPtsWts : nat -> list R * list R)
    (lagrangeSFKnotsDeriv : R -> list R -> nat -> list R * list R)
    (jacobian2d : list R -> R * list R)
    (q : PoissonQuad.t) (Xpts vars : list R)
    (time time' : R) (dvars ddvars dvars' ddvars' : list R)
    (res : list R) (len : nat) :
  let addResidual :=
    PoissonQuad.addResidual order getGaussPtsWts lagrangeSFKnotsDeriv
                            jacobian2d q in
  let once := addResidual time (repeat 0 len) Xpts vars dvars ddvars in
  addResidual time res Xpts vars dvars ddvars
    = for_loop order (fun m res =>
        for_loop order (fun n res =>
          for_loop (order * order) (fun i res =>
            add_at res i
              (residualTerm order getGaussPtsWts lagrangeSFKnotsDeriv
                            jacobian2d q Xpts vars m n i)) res) res) res
  /\ length (addResidual time res Xpts vars dvars ddvars) = length res
  /\ (forall i,
        get (addResidual time res Xpts vars dvars ddvars) i
          = get res i
            + get (addResidual time' (repeat 0 (length res)) Xpts vars
                               dvars' ddvars') i)
  /\ addResidual time' once Xpts vars dvars' ddvars'
       = map (fun x => 2 * x) once.
Proof.
  intros addResidual once.
  pose proof (addResidual_adds order getGaussPtsWts lagrangeSFKnotsDeriv
                jacobian2d q time Xpts vars dvars ddvars) as H.
  split; [apply addResidual_loops|].
  split; [apply (H res)|]. split.
  - intros i. apply (adds_from_zero res H).
  - apply (adds_twice len H).
Qed.

(** ** The tangent matrix (C2, C7) *)

Section Jacobian.

Variable order : nat.
Variable getGaussPtsWts : nat -> list R * list R.
Variable lagrangeSFKnotsDeriv : R -> list R -> nat -> list R * list R.
Variable jacobian2d : list R -> R * list R.
Variable q : PoissonQuad.t.

Local Abbreviation getShapeFunctionsDeriv :=
  (PoissonQuad.getShapeFunctionsDeriv order lagrangeSFKnotsDeriv).
Local Abbreviation getJacobianTransform :=
  (PoissonQuad.getJacobianTransform order).
Local Abbreviation addJacobian :=
  (PoissonQuad.addJacobian order getGaussPtsWts lagrangeSFKnotsDeriv
                           jacobian2d).
Local Abbreviation jacobianTerm :=
  (jacobianTerm order getGaussPtsWts lagrangeSFKnotsDeriv jacobian2d q).
Local Abbreviation jacobianIncrement :=
  (jacobianIncrement order getGaussPtsWts lagrangeSFKnotsDeriv jacobian2d q).

Lemma addJacobian_loops (time : R) (mat : list R) (alpha beta gamma : R)
      (Xpts vars dvars ddvars : list R) :
  addJacobian q time mat alpha beta gamma Xpts vars dvars ddvars =
  for_loop order (fun m mat =>
    for_loop order (fun n mat =>
      for_loop (order * order) (fun j mat =>
        for_loop (order * order) (fun i mat =>
          add_at mat (i + j * order * order)
                 (jacobianTerm alpha Xpts m n i j)) mat) mat) mat) mat.
Proof.
  unfold PoissonQuad.addJacobian, jacobianTerm.
  destruct (getGaussPtsWts order) as [pts wts].
  apply for_loop_ext; intros m st _.
  apply for_loop_ext; intros n st' _.
  destruct (getShapeFunctionsDeriv q [get pts n; get pts m]) as [[N Na] Nb].
  destruct (jacobian2d (getJacobianTransform Na Nb Xpts)) as [h J].
  reflexivity.
Qed.

Lemma addJacobian_adds (time alpha beta gamma : R)
      (Xpts vars dvars ddvars : list R) :
  adds (fun mat =>
          addJacobian q time mat alpha beta gamma Xpts vars dvars ddvars)
       (jacobianIncrement alpha Xpts).
Proof.
  eapply adds_ext.
  - intros buf. rewrite addJacobian_loops. revert buf.
    apply adds_for_loop with
      (body := fun m mat => for_loop order (fun n mat =>
         for_loop (order * order) (fun j mat =>
           for_loop (order * order) (fun i mat =>
             add_at mat (i + j * order * order)
                    (jacobianTerm alpha Xpts m n i j)) mat) mat) mat).
    intros m _.
    apply adds_for_loop with
      (body := fun n mat => for_loop (order * order) (fun j mat =>
           for_loop (order * order) (fun i mat =>
             add_at mat (i + j * order * order)
                    (jacobianTerm alpha Xpts m n i j)) mat) mat).
    intros n _.
    apply adds_for_loop with
      (body := fun j mat => for_loop (order * order) (fun i mat =>
             add_at mat (i + j * order * order)
                    (jacobianTerm alpha Xpts m n i j)) mat).
    intros j _.
    apply adds_for_loop with
      (body := fun i mat => add_at mat (i + j * order * order)
                    (jacobianTerm alpha Xpts m n i j)).
    intros i _. apply adds_add_at.
  - reflexivity.
Qed.

Lemma jacobianTerm_sym (alpha : R) (Xpts : list R) (m n i j : nat) :
  jacobianTerm alpha Xpts m n i j = jacobianTerm alpha Xpts m n j i.
Proof.
  unfold jacobianTerm.
  destruct (getGaussPtsWts order) as [pts wts].
  destruct (getShapeFunctionsDeriv q [get pts n; get pts m]) as [[N Na] Nb].
  destruct (jacobian2d (getJacobianTransform Na Nb Xpts)) as [h J].
  ring.
Qed.

Lemma jacobianTerm_alpha (alpha : R) (Xpts : list R) (m n i j : nat) :
  jacobianTerm alpha Xpts m n i j = alpha * jacobianTerm 1 Xpts m n i j.
Proof.
  unfold jacobianTerm.
  destruct (getGaussPtsWts order) as [pts wts].
  destruct (getShapeFunctionsDeriv q [get pts n; get pts m]) as [[N Na] Nb].
  destruct (jacobian2d (getJacobianTransform Na Nb Xpts)) as [h J].
  ring.
Qed.

(** Entry [i + j*order*order] collects exactly the terms of the pair
    [(i, j)]. *)
Lemma jacobianIncrement_entry (alpha : R) (Xpts : list R) (i j : nat) :
  (i < order * order)%nat -> (j < order * order)%nat ->
  jacobianIncrement alpha Xpts (i + j * order * order)
    = Rsum order (fun m => Rsum order (fun n =>
        jacobianTerm alpha Xpts m n i j)).
Proof.
  intros Hi Hj. unfold jacobianIncrement.
  apply Rsum_ext; intros m _. apply Rsum_ext; intros n _.
  rewrite Rsum_ext with
    (g' := fun j' => if (j =? j')%nat
                     then jacobianTerm alpha Xpts m n i j' else 0).
  - rewrite Rsum_delta.
    now replace (j <? order * order)%nat with true
      by (symmetry; apply Nat.ltb_lt; exact Hj).
  - intros j' Hj'.
    rewrite Rsum_ext with
      (g' := fun i' => if (i =? i')%nat
                       then (if (j =? j')%nat
                             then jacobianTerm alpha Xpts m n i' j'
                             else 0)
                       else 0).
    + rewrite Rsum_delta.
      now replace (i <? order * order)%nat with true
        by (symmetry; apply Nat.ltb_lt; exact Hi).
    + intros i' Hi'.
      destruct (Nat.eqb_spec (i + j * order * order)
                             (i' + j' * order * order)) as [E|NE].
      * assert (j = j') by nia. subst j'.
        assert (i = i') by lia. subst i'.
        now rewrite !Nat.eqb_refl.
      * destruct (Nat.eqb_spec i i') as [->|]; [|reflexivity].
        destruct (Nat.eqb_spec j j') as [->|]; [|reflexivity].
        congruence.
Qed.

Lemma jacobianIncrement_alpha (alpha : R) (Xpts : list R) (p : nat) :
  jacobianIncrement alpha Xpts p = alpha * jacobianIncrement 1 Xpts p.
Proof.
  unfold jacobianIncrement.
  rewrite <- Rsum_scal. apply Rsum_ext; intros m _.
  rewrite <- Rsum_scal. apply Rsum_ext; intros n _.
  rewrite <- Rsum_scal. apply Rsum_ext; intros j _.
  rewrite <- Rsum_scal. apply Rsum_ext; intros i _.
  destruct (p =? i + j * order * order)%nat; [|ring].
  apply jacobianTerm_alpha.
Qed.

End Jacobian.

(** C2: the increment [addJacobian] adds to [mat] is a symmetric matrix:
    for all [i], [j] below [order*order] the amount added to
    [mat[i + j*order*order]] is the amount added to
    [mat[j + i*order*order]], for every geometry, state and
    [alpha], [beta], [gamma]. *)
Theorem addJacobian_symmetric
    (order : nat) (getGaussPtsWts : nat -> list R * list R)
    (lagrangeSFKnotsDeriv : R -> list R -> nat -> list R * list R)
    (jacobian2d : list R -> R * list R)
    (q : PoissonQuad.t) (time alpha beta gamma : R)
    (mat Xpts vars dvars ddvars : list R) (i j : nat)
    (Hlen : ((order * order) * (order * order) <= length mat)%nat)
    (Hi : (i < order * order)%nat) (Hj : (j < order * order)%nat) :
  let mat' :=
    PoissonQuad.addJacobian order getGaussPtsWts lagrangeSFKnotsDeriv
      jacobian2d q time mat alpha beta gamma Xpts vars dvars ddvars in
  get mat' (i + j * order * order) - get mat (i + j * order * order)
    = get mat' (j + i * order * order) - get mat (j + i * order * order).
Proof.
  intros mat'.
  destruct (addJacobian_adds order getGaussPtsWts lagrangeSFKnotsDeriv
              jacobian2d q time alpha beta gamma Xpts vars dvars ddvars mat)
    as [_ Hg].
  fold mat' in Hg.
  rewrite !Hg by nia.
  rewrite !jacobianIncrement_entry by assumption.
  rewrite Rsum_ext with
    (g' := fun m => Rsum order (fun n =>
             jacobianTerm order getGaussPtsWts lagrangeSFKnotsDeriv
                          jacobian2d q alpha Xpts m n j i)).
  - ring.
  - intros m _. apply Rsum_ext; intros n _. apply jacobianTerm_sym.
Qed.

Lemma addJacobian_symmetric_witness :
  let q := PoissonQuad.PoissonQuad 2 [1; 1; 1; 1] in
  let Xpts := [0; 0; 0; 1; 0; 0; 0; 1; 0; 1; 1; 0] in
  let mat := repeat 0 16 in
  let mat' :=
    PoissonQuad.addJacobian 2 FElibrary.getGaussPtsWts
      FElibrary.lagrangeSFKnotsDeriv FElibrary.jacobian2d
      q 0 mat 1 0 0 Xpts [0; 0; 0; 0] [] [] in
  get mat' (1 + 2 * 2 * 2) - get mat (1 + 2 * 2 * 2)
    = get mat' (2 + 1 * 2 * 2) - get mat (2 + 1 * 2 * 2).
Proof.
  intros q Xpts mat mat'.
  apply (@addJacobian_symmetric 2 FElibrary.getGaussPtsWts
           FElibrary.lagrangeSFKnotsDeriv FElibrary.jacobian2d
           q 0 1 0 0 mat Xpts [0; 0; 0; 0] [] [] 1%nat 2%nat).
  - simpl. lia.
  - simpl. lia.
  - simpl. lia.
Defined.

(** C7: the increment [addJacobian] adds to [mat] is linear in [alpha]
    and does not depend on [beta] or [gamma]: with [alpha = 0] the buffer
    comes back unchanged, the increment for [alpha] is [alpha] times the
    increment for [alpha = 1], and any two choices of [beta] and [gamma]
    give the same buffer. *)
Theorem addJacobian_alpha_linear
    (order : nat) (getGaussPtsWts : nat -> list R * list R)
    (lagrangeSFKnotsDeriv : R -> list R -> nat -> list R * list R)
    (jacobian2d : list R -> R * list R)
    (q : PoissonQuad.t) (time alpha beta gamma beta' gamma' : R)
    (mat Xpts vars dvars ddvars : list R) :
  let addJacobian a b c :=
    PoissonQuad.addJacobian order getGaussPtsWts lagrangeSFKnotsDeriv
      jacobian2d q time mat a b c Xpts vars dvars ddvars in
  addJacobian 0 beta gamma = mat
  /\ (forall p,
        get (addJacobian alpha beta gamma) p - get mat p
          = alpha * (get (addJacobian 1 beta gamma) p - get mat p))
  /\ addJacobian alpha beta gamma = addJacobian alpha beta' gamma'.
Proof.
  intros addJacobian.
  assert (H : forall a,
    length (addJacobian a beta gamma) = length mat
    /\ forall p, (p < length mat)%nat ->
         get (addJacobian a beta gamma) p
           = get mat p
             + a * jacobianIncrement order getGaussPtsWts
                     lagrangeSFKnotsDeriv jacobian2d q 1 Xpts p).
  { intros a.
    destruct (addJacobian_adds order getGaussPtsWts lagrangeSFKnotsDeriv
                jacobian2d q time a beta gamma Xpts vars dvars ddvars mat)
      as [Hl Hg].
    split; [exact Hl|]. intros p Hp.
    unfold addJacobian. rewrite Hg by exact Hp.
    now rewrite jacobianIncrement_alpha. }
  split; [|split].
  - destruct (H 0) as [Hl Hg]. apply list_eq_get; [exact Hl|].
    intros p. destruct (Nat.lt_ge_cases p (length mat)) as [Hp|Hp].
    + rewrite Hg by exact Hp. ring.
    + rewrite !get_overflow by lia. reflexivity.
  - intros p. destruct (H alpha) as [Hl Hg]. destruct (H 1) as [Hl1 Hg1].
    destruct (Nat.lt_ge_cases p (length mat)) as [Hp|Hp].
    + rewrite Hg, Hg1 by exact Hp. ring.
    + rewrite !get_overflow by lia. ring.
  - reflexivity.
Qed.

(** ** The localized error (C6) *)

Lemma adds_comp (F G : list R -> list R) (c d : nat -> R) :
  adds F c -> adds G d -> adds (fun buf => G (F buf)) (fun p => c p + d p).
Proof.
  intros HF HG buf. destruct (HF buf) as [Hl Hg].
  destruct (HG (F buf)) as [Hl' Hg'].
  split; [congruence|]. intros p Hp.
  rewrite Hg' by congruence. rewrite Hg by exact Hp. ring.
Qed.

Lemma Rsum_swap (n m : nat) (g : nat -> nat -> R) :
  Rsum n (fun p => Rsum m (fun k => g k p))
    = Rsum m (fun k => Rsum n (fun p => g k p)).
Proof.
  induction m as [|m IH]; simpl.
  - apply Rsum_0.
  - rewrite Rsum_plus, IH. reflexivity.
Qed.

Lemma sum_list_Rsum (a : list R) : sum_list a = Rsum (length a) (get a).
Proof.
  induction a as [|x a IH] using rev_ind; [reflexivity|].
  rewrite length_app; simpl length. rewrite Nat.add_1_r; simpl Rsum.
  unfold sum_list in *. rewrite fold_right_app; simpl.
  assert (E : forall (l : list R) (z : R),
             fold_right Rplus z l = fold_right Rplus 0 l + z).
  { induction l as [|y l IHl]; intros z; simpl; [ring|].
    rewrite IHl. ring. }
  rewrite E, IH. f_equal.
  - apply Rsum_ext. intros k Hk. unfold get. now rewrite app_nth1.
  - unfold get. rewrite app_nth2, Nat.sub_diag by lia. simpl. ring.
Qed.

(** An accumulation raises the sum of the buffer by the sum of its
    increments. *)
Lemma adds_sum_list (F : list R -> list R) (c : nat -> R) (buf : list R) :
  adds F c -> sum_list (F buf) = sum_list buf + Rsum (length buf) c.
Proof.
  intros H. destruct (H buf) as [Hl Hg].
  rewrite !sum_list_Rsum, Hl, <- Rsum_plus.
  apply Rsum_ext. exact Hg.
Qed.

Lemma quarter_eq : 0.25 = / 4.
Proof. lra. Qed.

Section LocalizedError.

Variable order : nat.
Variable getGaussPtsWts : nat -> list R * list R.
Variable lagrangeSFKnotsDeriv : R -> list R -> nat -> list R * list R.
Variable jacobian2d : list R -> R * list R.
Variable q : PoissonQuad.t.

Local Abbreviation getShapeFunctionsDeriv :=
  (PoissonQuad.getShapeFunctionsDeriv order lagrangeSFKnotsDeriv).
Local Abbreviation getJacobianTransform :=
  (PoissonQuad.getJacobianTransform order).
Local Abbreviation addLocalizedError :=
  (PoissonQuad.addLocalizedError order getGaussPtsWts lagrangeSFKnotsDeriv
                                 jacobian2d).
Local Abbreviation quadraturePoint := (quadraturePoint order getGaussPtsWts).
Local Abbreviation errorProduct :=
  (errorProduct order getGaussPtsWts lagrangeSFKnotsDeriv jacobian2d q).
Local Abbreviation errorIncrement :=
  (errorIncrement order getGaussPtsWts lagrangeSFKnotsDeriv jacobian2d q).

Lemma addLocalizedError_loops (time : R) (err adjoint Xpts vars : list R) :
  addLocalizedError q time err adjoint Xpts vars =
  for_loop order (fun m err =>
    for_loop order (fun n err =>
      let w := PoissonQuad.Nerr (quadraturePoint m n) in
      let product := errorProduct adjoint Xpts vars m n in
      add_at
        (add_at
           (add_at
              (add_at err 0 (get w 0 * product))
              (order - 1) (get w 1 * product))
           (order * (order - 1)) (get w 2 * product))
        (order * order - 1) (get w 3 * product)) err) err.
Proof.
  unfold PoissonQuad.addLocalizedError, errorProduct, quadraturePoint.
  destruct (getGaussPtsWts order) as [pts wts].
  apply for_loop_ext; intros m st _.
  apply for_loop_ext; intros n st' _.
  destruct (getShapeFunctionsDeriv q [get pts n; get pts m]) as [[N Na] Nb].
  destruct (jacobian2d (getJacobianTransform Na Nb Xpts)) as [h J].
  destruct (for_loop (order * order) _ (0, 0, 0, 0, 0, 0))
    as [[[[[fval adj] px] py] ax] ay].
  reflexivity.
Qed.

Lemma addLocalizedError_adds (time : R) (adjoint Xpts vars : list R) :
  adds (fun err => addLocalizedError q time err adjoint Xpts vars)
       (errorIncrement adjoint Xpts vars).
Proof.
  eapply adds_ext.
  - intros buf. rewrite addLocalizedError_loops. revert buf.
    apply adds_for_loop with
      (body := fun m err => for_loop order (fun n err =>
         let w := PoissonQuad.Nerr (quadraturePoint m n) in
         let product := errorProduct adjoint Xpts vars m n in
         add_at (add_at (add_at (add_at err 0 (get w 0 * product))
           (order - 1) (get w 1 * product))
           (order * (order - 1)) (get w 2 * product))
           (order * order - 1) (get w 3 * product)) err).
    intros m _.
    apply adds_for_loop with
      (body := fun n err =>
         let w := PoissonQuad.Nerr (quadraturePoint m n) in
         let product := errorProduct adjoint Xpts vars m n in
         add_at (add_at (add_at (add_at err 0 (get w 0 * product))
           (order - 1) (get w 1 * product))
           (order * (order - 1)) (get w 2 * product))
           (order * order - 1) (get w 3 * product)).
    intros n _. cbv zeta.
    apply adds_comp with
      (F := fun err => add_at (add_at (add_at err 0 _) (order - 1) _)
                              (order * (order - 1)) _)
      (G := fun err => add_at err (order * order - 1) _);
      [|apply adds_add_at].
    apply adds_comp with
      (F := fun err => add_at (add_at err 0 _) (order - 1) _)
      (G := fun err => add_at err (order * (order - 1)) _);
      [|apply adds_add_at].
    apply adds_comp with
      (F := fun err => add_at err 0 _)
      (G := fun err => add_at err (order - 1) _); apply adds_add_at.
  - reflexivity.
Qed.

Lemma Nerr_sum (pt : list R) : sum_list (PoissonQuad.Nerr pt) = 1.
Proof.
  unfold PoissonQuad.Nerr, sum_list.
  generalize (get pt 0) (get pt 1); intros a b. cbn [fold_right].
  rewrite quarter_eq. field.
Qed.

Lemma errorIncrement_frame (adjoint Xpts vars : list R) (p : nat) :
  p <> 0%nat -> p <> (order - 1)%nat -> p <> (order * (order - 1))%nat ->
  p <> (order * order - 1)%nat ->
  errorIncrement adjoint Xpts vars p = 0.
Proof.
  intros H0 H1 H2 H3. unfold errorIncrement.
  rewrite <- (Rsum_0 order) at 1. apply Rsum_ext; intros m _.
  rewrite <- (Rsum_0 order) at 1. apply Rsum_ext; intros n _.
  cbv zeta.
  destruct (Nat.eqb_spec p 0); [contradiction|].
  destruct (Nat.eqb_spec p (order - 1)); [contradiction|].
  destruct (Nat.eqb_spec p (order * (order - 1))); [contradiction|].
  destruct (Nat.eqb_spec p (order * order - 1)); [contradiction|].
  ring.
Qed.

(** With at least two nodes a side the four corner entries are four
    different entries, and each receives its own weight times [product]. *)
Lemma errorIncrement_corner (adjoint Xpts vars : list R) (c : nat) :
  (2 <= order)%nat -> (c < 4)%nat ->
  errorIncrement adjoint Xpts vars
    (nth c [0; order - 1; order * (order - 1); order * order - 1] 0)%nat
  = Rsum order (fun m => Rsum order (fun n =>
      get (PoissonQuad.Nerr (quadraturePoint m n)) c
      * errorProduct adjoint Xpts vars m n)).
Proof.
  intros Hord Hc. unfold errorIncrement.
  apply Rsum_ext; intros m _. apply Rsum_ext; intros n _. cbv zeta.
  assert (H1 : (1 <= order - 1)%nat) by lia.
  assert (H2 : (order - 1 < order * (order - 1))%nat) by nia.
  assert (H3 : (order * (order - 1) < order * order - 1)%nat) by nia.
  destruct c as [|[|[|[|c]]]]; [| | | |lia]; cbn [nth];
    repeat match goal with
      | |- context [(?a =? ?b)%nat] => destruct (Nat.eqb_spec a b); try lia
      end; ring.
Qed.

Lemma errorIncrement_total (adjoint Xpts vars : list R) (len : nat) :
  (1 <= order)%nat -> (order * order <= len)%nat ->
  Rsum len (errorIncrement adjoint Xpts vars)
    = Rsum order (fun m => Rsum order (fun n =>
        errorProduct adjoint Xpts vars m n)).
Proof.
  intros Hord Hlen. unfold errorIncrement.
  rewrite Rsum_swap. apply Rsum_ext; intros m _.
  rewrite Rsum_swap. apply Rsum_ext; intros n _.
  cbv zeta.
  set (w := PoissonQuad.Nerr (quadraturePoint m n)).
  set (product := errorProduct adjoint Xpts vars m n).
  assert (D : forall (k : nat) (v : R), (k < len)%nat ->
            Rsum len (fun p => if (p =? k)%nat then v else 0) = v).
  { intros k v Hk.
    rewrite Rsum_ext with (g' := fun p => if (k =? p)%nat then v else 0)
      by (intros; now rewrite Nat.eqb_sym).
    rewrite (Rsum_delta len k (fun _ => v)).
    now replace (k <? len)%nat with true by (symmetry; apply Nat.ltb_lt; lia). }
  rewrite !Rsum_plus, !D by nia.
  subst w. unfold PoissonQuad.Nerr.
  generalize (get (quadraturePoint m n) 0) (get (quadraturePoint m n) 1).
  intros a b. unfold get; cbn [nth]. rewrite quarter_eq. field.
Qed.

End LocalizedError.

(** C6: [addLocalizedError] accumulates into the four corner entries of
    [err] only, the indices [0], [order-1], [order*(order-1)] and
    [order*order-1]; every other entry is left as it was.  At each
    quadrature point the scalar [product] is split over the corners with
    the bilinear weights [0.25*(1 -+ pt[0])*(1 -+ pt[1])], which sum to 1:
    corner number [c] grows by the sum over the quadrature points of
    weight [c] at the point times [product] at the point (for order 1 the
    four corners are the one entry [0], which receives all four shares),
    so that the entries of [err] grow, in total, by the sum of [product]
    over the quadrature points. *)
Theorem addLocalizedError_corners
    (order : nat) (getGaussPtsWts : nat -> list R * list R)
    (lagrangeSFKnotsDeriv : R -> list R -> nat -> list R * list R)
    (jacobian2d : list R -> R * list R)
    (q : PoissonQuad.t) (time : R) (err adjoint Xpts vars : list R)
    (Hord : (1 <= order)%nat)
    (Hlen : (order * order <= length err)%nat) :
  let err' :=
    PoissonQuad.addLocalizedError order getGaussPtsWts lagrangeSFKnotsDeriv
      jacobian2d q time err adjoint Xpts vars in
  length err' = length err
  /\ (forall p, p <> 0%nat -> p <> (order - 1)%nat ->
                p <> (order * (order - 1))%nat ->
                p <> (order * order - 1)%nat ->
                get err' p = get err p)
  /\ (forall pt,
        PoissonQuad.Nerr pt
          = [ 0.25 * (1 - get pt 0) * (1 - get pt 1);
              0.25 * (1 + get pt 0) * (1 - get pt 1);
              0.25 * (1 - get pt 0) * (1 + get pt 1);
              0.25 * (1 + get pt 0) * (1 + get pt 1) ]
        /\ sum_list (PoissonQuad.Nerr pt) = 1)
  /\ (forall c, (2 <= order)%nat -> (c < 4)%nat ->
        let corner :=
          nth c [0; order - 1; order * (order - 1); order * order - 1]%nat
              0%nat in
        get err' corner
        = get err corner
          + Rsum order (fun m => Rsum order (fun n =>
              get (PoissonQuad.Nerr
                     (quadraturePoint order getGaussPtsWts m n)) c
              * errorProduct order getGaussPtsWts lagrangeSFKnotsDeriv
                             jacobian2d q adjoint Xpts vars m n)))
  /\ (order = 1%nat ->
        get err' 0
        = get err 0
          + Rsum order (fun m => Rsum order (fun n =>
              (get (PoissonQuad.Nerr
                      (quadraturePoint order getGaussPtsWts m n)) 0
               + get (PoissonQuad.Nerr
                        (quadraturePoint order getGaussPtsWts m n)) 1
               + get (PoissonQuad.Nerr
                        (quadraturePoint order getGaussPtsWts m n)) 2
               + get (PoissonQuad.Nerr
                        (quadraturePoint order getGaussPtsWts m n)) 3)
              * errorProduct order getGaussPtsWts lagrangeSFKnotsDeriv
                             jacobian2d q adjoint Xpts vars m n)))
  /\ sum_list err'
       = sum_list err
         + Rsum order (fun m => Rsum order (fun n =>
             errorProduct order getGaussPtsWts lagrangeSFKnotsDeriv
                          jacobian2d q adjoint Xpts vars m n)).
Proof.
  intros err'.
  pose proof (addLocalizedError_adds order getGaussPtsWts
                lagrangeSFKnotsDeriv jacobian2d q time adjoint Xpts vars)
    as H.
  destruct (H err) as [Hl Hg]. fold err' in Hl, Hg.
  split; [exact Hl|]. split; [|split; [|split; [|split]]].
  - intros p H0 H1 H2 H3.
    destruct (Nat.lt_ge_cases p (length err)) as [Hp|Hp].
    + rewrite Hg by exact Hp.
      rewrite errorIncrement_frame by assumption. ring.
    + rewrite !get_overflow by lia. reflexivity.
  - intros pt. split; [reflexivity | apply Nerr_sum].
  - intros c Hord2 Hc corner.
    assert (Hcorner : (corner < length err)%nat).
    { subst corner. destruct c as [|[|[|[|c]]]]; cbn [nth]; nia. }
    rewrite Hg by exact Hcorner. f_equal.
    apply errorIncrement_corner; assumption.
  - intros Hone. rewrite Hg by lia. f_equal.
    unfold errorIncrement. subst order.
    apply Rsum_ext; intros m _. apply Rsum_ext; intros n _.
    cbv zeta. cbn [Nat.eqb Nat.sub Nat.mul Nat.add]. ring.
  - unfold err'. rewrite (adds_sum_list err H).
    now rewrite errorIncrement_total.
Qed.

Lemma addLocalizedError_corners_witness :
  let err := [1; 2; 3; 4; 5; 6; 7; 8; 9] in
  let err' :=
    PoissonQuad.addLocalizedError 3 FElibrary.getGaussPtsWts
      FElibrary.lagrangeSFKnotsDeriv FElibrary.jacobian2d
      (PoissonQuad.PoissonQuad 3 [1; 1; 1; 1; 1; 1; 1; 1; 1]) 0 err
      [1; 0; 0; 0; 1; 0; 0; 0; 1]
      [0; 0; 0; 1; 0; 0; 2; 0; 0; 0; 1; 0; 1; 1; 0; 2; 1; 0;
       0; 2; 0; 1; 2; 0; 2; 2; 0]
      [0; 1; 2; 1; 2; 3; 2; 3; 4] in
  get err' 4 = 5
  /\ get err' 2
     = 3 + Rsum 3 (fun m => Rsum 3 (fun n =>
             get (PoissonQuad.Nerr
                    (quadraturePoint 3 FElibrary.getGaussPtsWts m n)) 1
             * errorProduct 3 FElibrary.getGaussPtsWts
                 FElibrary.lagrangeSFKnotsDeriv FElibrary.jacobian2d
                 (PoissonQuad.PoissonQuad 3 [1; 1; 1; 1; 1; 1; 1; 1; 1])
                 [1; 0; 0; 0; 1; 0; 0; 0; 1]
                 [0; 0; 0; 1; 0; 0; 2; 0; 0; 0; 1; 0; 1; 1; 0; 2; 1; 0;
                  0; 2; 0; 1; 2; 0; 2; 2; 0]
                 [0; 1; 2; 1; 2; 3; 2; 3; 4] m n)).
Proof.
  intros err err'.
  assert (Hord : (1 <= 3)%nat) by lia.
  assert (Hlen : (3 * 3 <= length err)%nat) by (simpl; lia).
  destruct (@addLocalizedError_corners 3%nat FElibrary.getGaussPtsWts
              FElibrary.lagrangeSFKnotsDeriv FElibrary.jacobian2d
              (PoissonQuad.PoissonQuad 3 [1; 1; 1; 1; 1; 1; 1; 1; 1]) 0 err
              [1; 0; 0; 0; 1; 0; 0; 0; 1]
              [0; 0; 0; 1; 0; 0; 2; 0; 0; 0; 1; 0; 1; 1; 0; 2; 1; 0;
               0; 2; 0; 1; 2; 0; 2; 2; 0]
              [0; 1; 2; 1; 2; 3; 2; 3; 4] Hord Hlen)
    as (_ & Hframe & _ & Hcorner & _).
  fold err' in Hframe, Hcorner.
  split.
  - rewrite (Hframe 4%nat) by (simpl; lia).
    reflexivity.
  - apply (Hcorner 1%nat); lia.
Defined.

(** ** Partition of unity of the Lagrange basis *)

Section Lagrange.

Variable k : nat -> R.

Local Abbreviation Lag := (Lag k).
Local Abbreviation W := (W k).

Lemma Lag_S (u : R) (t i : nat) :
  Lag u (S t) i =
  if (i =? t)%nat then Lag u t i
  else Lag u t i * ((u - k t) * (1 / (k i - k t))).
Proof. unfold Lag. now rewrite for_loop_S. Qed.

Lemma W_S (u : R) (t : nat) : W u (S t) = W u t * (u - k t).
Proof. unfold W. now rewrite for_loop_S. Qed.

(** Two evaluation points give the same basis function up to the
    products [W]. *)
Lemma Lag_cross (u v : R) (t i : nat) :
  (if (i <? t)%nat
   then Lag u t i * (u - k i) * W v t = Lag v t i * (v - k i) * W u t
   else Lag u t i * W v t = Lag v t i * W u t).
Proof.
  induction t as [|t IH].
  - replace (i <? 0)%nat with false by (symmetry; apply Nat.ltb_ge; lia).
    reflexivity.
  - rewrite !Lag_S, !W_S.
    destruct (Nat.eqb_spec i t) as [->|N].
    + rewrite Nat.ltb_irrefl in IH.
      replace (t <? S t)%nat with true by (symmetry; apply Nat.ltb_lt; lia).
      transitivity ((Lag u t t * W v t) * ((u - k t) * (v - k t))); [ring|].
      rewrite IH. ring.
    + destruct (Nat.ltb_spec i t) as [Hlt|Hge].
      * replace (i <? S t)%nat with true by (symmetry; apply Nat.ltb_lt; lia).
        transitivity ((Lag u t i * (u - k i) * W v t)
                      * ((u - k t) * (v - k t) * (1 / (k i - k t)))); [ring|].
        rewrite IH. ring.
      * replace (i <? S t)%nat with false by (symmetry; apply Nat.ltb_ge; lia).
        transitivity ((Lag u t i * W v t)
                      * ((u - k t) * (v - k t) * (1 / (k i - k t)))); [ring|].
        rewrite IH. ring.
Qed.

Lemma W_nonzero (u : R) (t : nat) :
  (forall j, (j < t)%nat -> u <> k j) -> W u t <> 0.
Proof.
  induction t as [|t IH]; intros H.
  - unfold W. rewrite for_loop_0. lra.
  - rewrite W_S. apply Rmult_integral_contrapositive_currified.
    + apply IH. intros; apply H; lia.
    + specialize (H t (Nat.lt_succ_diag_r t)). lra.
Qed.

(** The basis function of the last knot. *)
Lemma Lag_last (u : R) (n t : nat) :
  (t <= n)%nat -> (forall j, (j < t)%nat -> k n <> k j) ->
  Lag u t n * W (k n) t = W u t.
Proof.
  induction t as [|t IH]; intros Ht H.
  - unfold Lag, W. rewrite !for_loop_0. ring.
  - rewrite Lag_S, !W_S.
    destruct (Nat.eqb_spec n t) as [->|N]; [lia|].
    rewrite <- IH by (try lia; intros; apply H; lia).
    specialize (H t (Nat.lt_succ_diag_r t)).
    field. lra.
Qed.

(** Partition of unity: over pairwise distinct knots the Lagrange basis
    functions sum to 1 at every point. *)
Lemma Lag_sum (n : nat) :
  (forall i j, (i < j)%nat -> (j <= n)%nat -> k i <> k j) ->
  forall u, Rsum (S n) (Lag u (S n)) = 1.
Proof.
  induction n as [|n IH]; intros Hk u.
  - simpl. rewrite Lag_S. simpl. unfold Lag. rewrite for_loop_0. ring.
  - assert (Hk' : forall i j, (i < j)%nat -> (j <= n)%nat -> k i <> k j)
      by (intros; apply Hk; lia).
    specialize (IH Hk').
    set (t := S n) in *.
    assert (Hlast : forall j, (j < t)%nat -> k t <> k j).
    { intros j Hj E. apply (Hk j t); [exact Hj | lia | now symmetry]. }
    pose proof (@W_nonzero (k t) t Hlast) as HW.
    change (Rsum (S t) (Lag u (S t)))
      with (Rsum t (Lag u (S t)) + Lag u (S t) t).
    rewrite (Lag_S u t t), Nat.eqb_refl.
    rewrite Rsum_ext with
      (g' := fun i => Lag u t i
                      + - (W u t * / W (k t) t) * Lag (k t) t i).
    + rewrite Rsum_plus, Rsum_scal, !IH.
      pose proof (@Lag_last u t t (Nat.le_refl t) Hlast) as HL.
      rewrite <- HL. field. exact HW.
    + intros i Hi. rewrite Lag_S.
      destruct (Nat.eqb_spec i t) as [->|_]; [lia|].
      pose proof (Lag_cross u (k t) t i) as C.
      replace (i <? t)%nat with true in C by (symmetry; apply Nat.ltb_lt; lia).
      assert (Hd : k i - k t <> 0).
      { specialize (Hlast i Hi). lra. }
      apply (Rmult_eq_reg_r (W (k t) t * (k i - k t)));
        [|apply Rmult_integral_contrapositive_currified; assumption].
      transitivity
        (Lag u t i * (u - k t) * W (k t) t * ((k i - k t) * (1 / (k i - k t))));
        [ring|].
      replace ((k i - k t) * (1 / (k i - k t))) with 1 by (field; exact Hd).
      transitivity
        (Lag u t i * (k i - k t) * W (k t) t
         + Lag u t i * (u - k i) * W (k t) t); [ring|].
      rewrite C. field. exact HW.
Qed.

End Lagrange.

(** ** The modelled FElibrary routines

    Checks that the routines modelled after the spec are what the spec
    names: an interpolating basis, its derivative at order 2, the inverse
    of a 2 by 2 matrix and the two-point Gauss-Legendre rule. *)

Section LagrangeKnots.

Variable k : nat -> R.

Lemma Lag_own_knot (t i : nat) :
  (forall j, (j < t)%nat -> j <> i -> k i <> k j) -> Lag k (k i) t i = 1.
Proof.
  induction t as [|t IH]; intros H.
  - unfold Lag. now rewrite for_loop_0.
  - rewrite Lag_S, IH by (intros; apply H; lia).
    destruct (Nat.eqb_spec i t) as [E|N]; [reflexivity|].
    assert (k i <> k t) by (apply H; lia).
    field. lra.
Qed.

Lemma Lag_other_knot (t i j : nat) :
  i <> j -> (j < t)%nat -> Lag k (k j) t i = 0.
Proof.
  intros Hij. induction t as [|t IH]; intros Hj; [lia|].
  rewrite Lag_S.
  destruct (Nat.eqb_spec i t) as [E|N].
  - apply IH. lia.
  - destruct (Nat.eq_dec j t) as [->|Njt].
    + unfold Rminus at 1. rewrite Rplus_opp_r. ring.
    + rewrite IH by lia. ring.
Qed.

End LagrangeKnots.

(** The basis interpolates: over pairwise distinct knots, [N[i]] is 1 at
    knot [i] and 0 at every other knot. *)
Lemma lagrangeSFKnots_interpolates (knots : list R) (order i j : nat) :
  (forall a b, (a < order)%nat -> (b < order)%nat -> a <> b ->
               get knots a <> get knots b) ->
  (i < order)%nat -> (j < order)%nat ->
  get (FElibrary.lagrangeSFKnots (get knots j) knots order) i
    = if (i =? j)%nat then 1 else 0.
Proof.
  intros Hk Hi Hj.
  unfold FElibrary.lagrangeSFKnots. rewrite get_map_seq by exact Hi.
  change (Lag (get knots) (get knots j) order i
          = if (i =? j)%nat then 1 else 0).
  destruct (Nat.eqb_spec i j) as [->|N].
  - apply Lag_own_knot. intros a Ha Na. apply Hk; auto.
  - now apply Lag_other_knot.
Qed.

Lemma lagrangeSFKnotsDeriv_order2 (u : R) :
  FElibrary.lagrangeSFKnotsDeriv u [-1; 1] 2
    = ([(1 - u) / 2; (1 + u) / 2], [- (1 / 2); 1 / 2]).
Proof.
  cbv - [Rplus Rmult Rminus Ropp Rinv Rdiv IZR].
  repeat apply f_equal2; try reflexivity; field.
Qed.

(** [jacobian2d] returns the determinant and the inverse: for
    [Xd = [a, b; c, d]] with non-zero determinant, [J Xd] is the
    identity. *)
Lemma jacobian2d_inverse (Xd : list R) :
  let h := fst (FElibrary.jacobian2d Xd) in
  let J := snd (FElibrary.jacobian2d Xd) in
  h = get Xd 0 * get Xd 3 - get Xd 1 * get Xd 2
  /\ (h <> 0 ->
      get J 0 * get Xd 0 + get J 1 * get Xd 2 = 1
      /\ get J 0 * get Xd 1 + get J 1 * get Xd 3 = 0
      /\ get J 2 * get Xd 0 + get J 3 * get Xd 2 = 0
      /\ get J 2 * get Xd 1 + get J 3 * get Xd 3 = 1).
Proof.
  unfold FElibrary.jacobian2d. cbn [fst snd].
  split; [reflexivity|]. intros Hh.
  generalize dependent (get Xd 0). generalize (get Xd 1).
  generalize (get Xd 2). generalize (get Xd 3).
  intros d c b a Hh. unfold get; cbn [nth].
  repeat split; field; exact Hh.
Qed.

(** The two-point rule is the Gauss-Legendre one: it integrates [1], [x],
    [x^2] and [x^3] over [[-1, 1]] exactly. *)
Lemma getGaussPtsWts_2 :
  let pts := fst (FElibrary.getGaussPtsWts 2) in
  let wts := snd (FElibrary.getGaussPtsWts 2) in
  let rule g := get wts 0 * g (get pts 0) + get wts 1 * g (get pts 1) in
  rule (fun x => 1) = 2 /\ rule (fun x => x) = 0
  /\ rule (fun x => x * x) = 2 / 3 /\ rule (fun x => x * x * x) = 0.
Proof.
  cbv - [Rplus Rmult Rminus Ropp Rinv Rdiv sqrt IZR].
  assert (H3 : sqrt 3 * sqrt 3 = 3) by (apply sqrt_sqrt; lra).
  assert (Hn : sqrt 3 <> 0) by (intro E; rewrite E in H3; lra).
  repeat split; try (field; exact Hn).
  transitivity (2 / (sqrt 3 * sqrt 3)); [field; exact Hn|].
  rewrite H3. reflexivity.
Qed.

(** ** Partition of unity of the shape functions (C3) *)

Lemma lagrangeSFKnots_Lag (u : R) (knots : list R) (order : nat) :
  FElibrary.lagrangeSFKnots u knots order
    = map (Lag (get knots) u order) (seq 0 order).
Proof. reflexivity. Qed.

Lemma lagrangeSFKnotsDeriv_values (u : R) (knots : list R) (order : nat) :
  fst (FElibrary.lagrangeSFKnotsDeriv u knots order)
    = FElibrary.lagrangeSFKnots u knots order.
Proof. reflexivity. Qed.

Lemma sum_list_snoc (a : list R) (x : R) :
  sum_list (a ++ [x]) = sum_list a + x.
Proof.
  induction a as [|y a IH]; simpl; [ring|].
  unfold sum_list in *. simpl. rewrite IH. ring.
Qed.

Lemma append_loop_sum (n : nat) (g : nat -> R) (N0 : list R) :
  sum_list (for_loop n (fun i N => N ++ [g i]) N0) = sum_list N0 + Rsum n g
  /\ length (for_loop n (fun i N => N ++ [g i]) N0) = (length N0 + n)%nat.
Proof.
  induction n as [|n [IHs IHl]].
  - rewrite for_loop_0. simpl. split; [ring | lia].
  - rewrite for_loop_S. split.
    + rewrite sum_list_snoc, IHs. simpl. ring.
    + rewrite length_app, IHl. simpl. lia.
Qed.

Lemma tensor_loop_sum (order : nat) (a b : nat -> R) :
  let N := for_loop order (fun j N =>
             for_loop order (fun i N => N ++ [a i * b j]) N) [] in
  sum_list N = Rsum order a * Rsum order b
  /\ length N = (order * order)%nat.
Proof.
  intros N.
  assert (G : forall t,
    let Nt := for_loop t (fun j N =>
                for_loop order (fun i N => N ++ [a i * b j]) N) [] in
    sum_list Nt = Rsum order a * Rsum t b /\ length Nt = (t * order)%nat).
  { induction t as [|t [IHs IHl]]; cbv zeta.
    - rewrite for_loop_0. split; [unfold sum_list; simpl; ring | reflexivity].
    - rewrite for_loop_S.
      destruct (append_loop_sum order (fun i => a i * b t)
                  (for_loop t (fun j N =>
                     for_loop order (fun i N => N ++ [a i * b j]) N) []))
        as [Hs Hl].
      split.
      + rewrite Hs, IHs. simpl Rsum.
        rewrite Rsum_ext with (g := fun i => a i * b t)
                              (g' := fun i => b t * a i)
          by (intros; ring).
        rewrite Rsum_scal. ring.
      + rewrite Hl, IHl. simpl. lia. }
  apply G.
Qed.

Lemma for_loop_proj {S T : Type} (proj : S -> T) (n : nat)
      (body : nat -> S -> S) (body1 : nat -> T -> T) (s : S) :
  (forall i st, proj (body i st) = body1 i (proj st)) ->
  proj (for_loop n body s) = for_loop n body1 (proj s).
Proof.
  intros H. induction n as [|n IH]; [reflexivity|].
  now rewrite !for_loop_S, H, IH.
Qed.

(** The values [N] that [getShapeFunctions(pt, N, Na, Nb)] fills are those
    of [getShapeFunctions(pt, N)]. *)
Lemma getShapeFunctionsDeriv_values (order : nat) (q : PoissonQuad.t)
      (pt : list R) :
  fst (fst (PoissonQuad.getShapeFunctionsDeriv order
              FElibrary.lagrangeSFKnotsDeriv q pt))
    = PoissonQuad.getShapeFunctions order FElibrary.lagrangeSFKnots q pt.
Proof.
  unfold PoissonQuad.getShapeFunctionsDeriv, PoissonQuad.getShapeFunctions.
  unfold FElibrary.lagrangeSFKnotsDeriv.
  set (na := FElibrary.lagrangeSFKnots (get pt 0) (PoissonQuad.knots q) order).
  set (nb := FElibrary.lagrangeSFKnots (get pt 1) (PoissonQuad.knots q) order).
  apply (for_loop_proj (fun st : list R * list R * list R => fst (fst st))).
  intros j st.
  apply (for_loop_proj (fun st : list R * list R * list R => fst (fst st))).
  intros i [[N Na] Nb]. reflexivity.
Qed.

(** The knots the constructor sets are pairwise distinct. *)
Lemma knots_distinct (order : nat) (_f : list R) (i j : nat) :
  (i < j)%nat -> (j < order)%nat ->
  get (PoissonQuad.knots (PoissonQuad.PoissonQuad order _f)) i
    <> get (PoissonQuad.knots (PoissonQuad.PoissonQuad order _f)) j.
Proof.
  intros Hij Hj. unfold PoissonQuad.PoissonQuad; cbn [PoissonQuad.knots].
  destruct (Nat.eqb_spec order 2) as [->|N2].
  { assert (i = 0%nat /\ j = 1%nat) as [-> ->] by lia.
    unfold get; simpl. lra. }
  destruct (Nat.eqb_spec order 3) as [->|N3].
  { assert ((i = 0 /\ j = 1) \/ (i = 0 /\ j = 2) \/ (i = 1 /\ j = 2))%nat
      as [[-> ->]|[[-> ->]|[-> ->]]] by lia; unfold get; simpl; lra. }
  rewrite !get_map_seq by lia.
  assert (Hpos : 0 < INR (order - 1)) by (apply lt_0_INR; lia).
  assert (Hi : 0 <= INR i) by apply pos_INR.
  assert (Hlt : INR i < INR j) by (apply lt_INR; exact Hij).
  assert (Hle : INR j <= INR (order - 1)) by (apply le_INR; lia).
  pose proof PI_RGT_0 as Hpi.
  assert (Hinv : 0 < / INR (order - 1)) by (apply Rinv_0_lt_compat; exact Hpos).
  assert (E : forall x, PI * x / INR (order - 1) = PI * (x * / INR (order - 1)))
    by (intros; unfold Rdiv; ring).
  rewrite !E.
  assert (A0 : 0 <= INR i * / INR (order - 1))
    by (apply Rmult_le_pos; lra).
  assert (A1 : INR i * / INR (order - 1) < INR j * / INR (order - 1))
    by (apply Rmult_lt_compat_r; assumption).
  assert (A2 : INR j * / INR (order - 1) <= 1).
  { rewrite <- (Rinv_r (INR (order - 1))) by lra.
    apply Rmult_le_compat_r; lra. }
  assert (C : cos (PI * (INR j * / INR (order - 1)))
              < cos (PI * (INR i * / INR (order - 1)))).
  { apply cos_decreasing_1; nra. }
  lra.
Qed.

(** C3: for an element of order at least 1 and every parametric point,
    the shape functions that [getShapeFunctions] returns, built as the
    tensor product of the Lagrange bases over the knots the constructor
    sets, are [order*order] values that sum to 1; the overload that also
    returns the derivatives fills the same values. *)
Theorem getShapeFunctions_partition_of_unity
    (order : nat) (_f pt : list R) (Hord : (1 <= order)%nat) :
  let q := PoissonQuad.PoissonQuad order _f in
  let N := PoissonQuad.getShapeFunctions order FElibrary.lagrangeSFKnots
             q pt in
  length N = (order * order)%nat
  /\ sum_list N = 1
  /\ fst (fst (PoissonQuad.getShapeFunctionsDeriv order
                 FElibrary.lagrangeSFKnotsDeriv q pt)) = N.
Proof.
  intros q N.
  destruct (tensor_loop_sum order
    (get (FElibrary.lagrangeSFKnots (get pt 0) (PoissonQuad.knots q) order))
    (get (FElibrary.lagrangeSFKnots (get pt 1) (PoissonQuad.knots q) order)))
    as [Hs Hl].
  split; [exact Hl|]. split; [|apply getShapeFunctionsDeriv_values].
  unfold N, PoissonQuad.getShapeFunctions. rewrite Hs.
  assert (S1 : forall u,
    Rsum order (get (FElibrary.lagrangeSFKnots u (PoissonQuad.knots q) order))
      = 1).
  { intros u. rewrite lagrangeSFKnots_Lag.
    rewrite Rsum_ext with (g' := Lag (get (PoissonQuad.knots q)) u order)
      by (intros i Hi; now rewrite get_map_seq).
    destruct order as [|n]; [lia|].
    apply Lag_sum. intros i j Hij Hj. apply knots_distinct; lia. }
  rewrite !S1. ring.
Qed.

Lemma getShapeFunctions_partition_of_unity_witness :
  sum_list (PoissonQuad.getShapeFunctions 5 FElibrary.lagrangeSFKnots
              (PoissonQuad.PoissonQuad 5 []) [1 / 3; - (1 / 2)]) = 1.
Proof.
  assert (Hord : (1 <= 5)%nat) by lia.
  apply (@getShapeFunctions_partition_of_unity 5%nat [] [1 / 3; - (1 / 2)]
           Hord).
Defined.

(** ** The order-2 element on the unit square (C4) *)

(** C4: one [PoissonQuad<2>] element whose four nodes are the corners of
    the unit square, [(0,0)], [(1,0)], [(0,1)], [(1,1)] with zero third
    coordinates, with source [f = [1,1,1,1]] and [vars = 0]: [addResidual]
    into a zero buffer gives [res[i] = -1/4] at each of the four nodes,
    the 2 by 2 Gauss quadrature of [-N_i f] over the square. *)
Theorem addResidual_unit_square (time : R) (dvars ddvars : list R) :
  PoissonQuad.addResidual 2 FElibrary.getGaussPtsWts
    FElibrary.lagrangeSFKnotsDeriv FElibrary.jacobian2d
    (PoissonQuad.PoissonQuad 2 [1; 1; 1; 1]) time
    [0; 0; 0; 0]
    [0; 0; 0;  1; 0; 0;  0; 1; 0;  1; 1; 0]
    [0; 0; 0; 0] dvars ddvars
  = [- (1 / 4); - (1 / 4); - (1 / 4); - (1 / 4)].
Proof.
  cbv - [Rplus Rmult Rminus Ropp Rinv Rdiv sqrt IZR].
  generalize (1 / sqrt 3). intros g.
  repeat apply f_equal2; try reflexivity.
  all: field.
  all: match goal with
       | |- ?e <> 0 => replace e with 16384 by ring; lra
       end.
Qed.

(** ** The beam constitutive operator (C8) *)

Lemma memcpy_spec (dst src : list R) (n : nat) :
  length (TACSBeamConstitutive.memcpy dst src n) = length dst
  /\ forall i,
       get (TACSBeamConstitutive.memcpy dst src n) i
         = if (i <? n)%nat && (i <? length dst)%nat then get src i
           else get dst i.
Proof.
  unfold TACSBeamConstitutive.memcpy.
  induction n as [|n [IHl IHg]].
  - rewrite for_loop_0. split; [reflexivity|]. intros i. reflexivity.
  - rewrite for_loop_S. split; [now rewrite write_length|].
    intros i. destruct (Nat.eq_dec n i) as [->|N].
    + replace (i <? S i)%nat with true by (symmetry; apply Nat.ltb_lt; lia).
      destruct (Nat.ltb_spec i (length dst)) as [Hi|Hi]; simpl.
      * rewrite get_write_same by lia. reflexivity.
      * rewrite !get_overflow by (rewrite ?write_length; lia). reflexivity.
    + rewrite get_write_other, IHg by exact N.
      destruct (Nat.ltb_spec i n), (Nat.ltb_spec i (S n)); try lia;
        reflexivity.
Qed.

Lemma tri6_sym (i j : nat) : tri6 i j = tri6 j i.
Proof. unfold tri6. now rewrite Nat.min_comm, Nat.max_comm. Qed.

Lemma computeStress_spec (Ct e s : list R) :
  (6 <= length s)%nat ->
  length (TACSBeamConstitutive.computeStress Ct e s) = length s
  /\ (forall i, (i < 6)%nat ->
        get (TACSBeamConstitutive.computeStress Ct e s) i
          = Rsum 6 (fun j => sym6 Ct i j * get e j))
  /\ (forall i, (6 <= i)%nat ->
        get (TACSBeamConstitutive.computeStress Ct e s) i = get s i).
Proof.
  intros Hs. unfold TACSBeamConstitutive.computeStress. cbv zeta.
  split; [now rewrite !write_length|]. split.
  - intros i Hi.
    destruct i as [|[|[|[|[|[|i]]]]]]; try lia;
      repeat (first [ rewrite get_write_same by (rewrite ?write_length; lia)
                    | rewrite get_write_other by lia ]);
      unfold sym6, tri6; simpl; ring.
  - intros i Hi. now rewrite !get_write_other by lia.
Qed.

(** C8: [evalStress] returns [s = C e] for the symmetric 6 by 6 operator
    whose upper triangle is the stored array [C], whatever [elemIndex],
    [pt] and [X] are; [evalTangentStiffness] copies out exactly that
    array; so [evalStress] is linear in [e] and its result is the matrix
    of [evalTangentStiffness] applied to [e]. *)
Theorem evalStress_linear_operator
    (self : TACSBeamConstitutive.t) (elemIndex elemIndex' : Z)
    (pt X pt' X' e s C0 : list R)
    (Hs : (6 <= length s)%nat)
    (HC0 : (TACSBeamConstitutive.NUM_TANGENT_STIFFNESS_ENTRIES
              <= length C0)%nat) :
  let stress e := TACSBeamConstitutive.evalStress self elemIndex pt X e s in
  let Ct := TACSBeamConstitutive.evalTangentStiffness self elemIndex' pt' X'
              C0 in
  (forall i j, sym6 (TACSBeamConstitutive.C self) i j
               = sym6 (TACSBeamConstitutive.C self) j i)
  /\ (forall i, (i < 6)%nat ->
        get (stress e) i
          = Rsum 6 (fun j => sym6 (TACSBeamConstitutive.C self) i j * get e j))
  /\ (forall i, (6 <= i)%nat -> get (stress e) i = get s i)
  /\ (forall n, (n < TACSBeamConstitutive.NUM_TANGENT_STIFFNESS_ENTRIES)%nat ->
        get Ct n = get (TACSBeamConstitutive.C self) n)
  /\ (forall i, (i < 6)%nat ->
        get (stress e) i = Rsum 6 (fun j => sym6 Ct i j * get e j))
  /\ (forall a b e1 e2 i, (i < 6)%nat ->
        get (stress (combine6 a e1 b e2)) i
          = a * get (stress e1) i + b * get (stress e2) i).
Proof.
  intros stress Ct.
  assert (HCt : forall n,
    (n < TACSBeamConstitutive.NUM_TANGENT_STIFFNESS_ENTRIES)%nat ->
    get Ct n = get (TACSBeamConstitutive.C self) n).
  { intros n Hn. unfold Ct, TACSBeamConstitutive.evalTangentStiffness.
    destruct (memcpy_spec C0 (TACSBeamConstitutive.C self)
                TACSBeamConstitutive.NUM_TANGENT_STIFFNESS_ENTRIES)
      as [_ Hg].
    rewrite Hg.
    replace (n <? TACSBeamConstitutive.NUM_TANGENT_STIFFNESS_ENTRIES)%nat
      with true by (symmetry; apply Nat.ltb_lt; lia).
    now replace (n <? length C0)%nat with true
      by (symmetry; apply Nat.ltb_lt; lia). }
  assert (Hstress : forall e' i, (i < 6)%nat ->
    get (stress e') i
      = Rsum 6 (fun j => sym6 (TACSBeamConstitutive.C self) i j * get e' j)).
  { intros e' i Hi. unfold stress, TACSBeamConstitutive.evalStress.
    now apply computeStress_spec. }
  split.
  { intros i j. unfold sym6. now rewrite tri6_sym. }
  split; [apply Hstress|]. split.
  { intros i Hi. unfold stress, TACSBeamConstitutive.evalStress.
    now apply computeStress_spec. }
  split; [exact HCt|]. split.
  - intros i Hi. rewrite Hstress by exact Hi.
    apply Rsum_ext. intros j Hj. unfold sym6. rewrite HCt; [reflexivity|].
    unfold tri6, TACSBeamConstitutive.NUM_TANGENT_STIFFNESS_ENTRIES.
    destruct i as [|[|[|[|[|[|i]]]]]]; try lia;
      destruct j as [|[|[|[|[|[|j]]]]]]; try lia; simpl; lia.
  - intros a b e1 e2 i Hi. rewrite !Hstress by exact Hi.
    rewrite <- !Rsum_scal, <- Rsum_plus.
    apply Rsum_ext. intros j Hj. unfold combine6.
    rewrite get_map_seq by exact Hj. ring.
Qed.

Lemma evalStress_linear_operator_witness :
  let self :=
    TACSBeamConstitutive.TACSBeamConstitutive_2
      (TACSBeamConstitutive.mk (repeat 0 21) (repeat 0 4) (repeat 0 3))
      1 2 3 4 10 20 30 40 50 60 [0; 0; 2] in
  get (TACSBeamConstitutive.evalStress self 0 [] [] [1; 1; 1; 1; 1; 1]
         (repeat 0 6)) 2
    = Rsum 6 (fun j => sym6 (TACSBeamConstitutive.C self) 2 j
                       * get [1; 1; 1; 1; 1; 1] j).
Proof.
  intros self.
  assert (Hs : (6 <= length (repeat 0 6))%nat) by (simpl; lia).
  assert (HC0 : (TACSBeamConstitutive.NUM_TANGENT_STIFFNESS_ENTRIES
                   <= length (repeat 0 21))%nat)
    by (unfold TACSBeamConstitutive.NUM_TANGENT_STIFFNESS_ENTRIES; simpl; lia).
  destruct (@evalStress_linear_operator self 0%Z 0%Z [] [] [] []
              [1; 1; 1; 1; 1; 1] (repeat 0 6) (repeat 0 21) Hs HC0)
    as (_ & H & _).
  apply H. lia.
Defined.

(** ** The reference axis (C10) *)

Lemma setAxis_spec (axis axs : list R) :
  length axis = 3%nat ->
  TACSBeamConstitutive.setAxis axis axs = unitAxis axs.
Proof.
  intros H.
  destruct axis as [|x [|y [|z [|w axis]]]]; try discriminate.
  unfold TACSBeamConstitutive.setAxis, unitAxis, norm2, get; simpl.
  unfold Rdiv. repeat f_equal; ring.
Qed.

Lemma norm2_pos (axs : list R) :
  ~ (get axs 0 = 0 /\ get axs 1 = 0 /\ get axs 2 = 0) -> 0 < norm2 axs.
Proof.
  intros H. unfold norm2.
  destruct (Req_dec (get axs 0) 0) as [E0|N0]; [|nra].
  destruct (Req_dec (get axs 1) 0) as [E1|N1]; [|nra].
  destruct (Req_dec (get axs 2) 0) as [E2|N2]; [|nra].
  exfalso. apply H. auto.
Qed.

Lemma unit_components (a b c s : R) :
  s * s = a * a + b * b + c * c -> s <> 0 ->
  a / s * (a / s) + b / s * (b / s) + c / s * (c / s) = 1.
Proof.
  intros H Hs.
  transitivity ((a * a + b * b + c * c) / (s * s)); [field; exact Hs|].
  rewrite <- H. field. exact Hs.
Qed.

Lemma unitAxis_norm2 (axs : list R) :
  0 < norm2 axs -> norm2 (unitAxis axs) = 1.
Proof.
  intros H.
  assert (Hs : sqrt (norm2 axs) * sqrt (norm2 axs) = norm2 axs)
    by (apply sqrt_sqrt; lra).
  assert (Hn : sqrt (norm2 axs) <> 0).
  { intro E. rewrite E in Hs. lra. }
  change (norm2 (unitAxis axs))
    with (get axs 0 / sqrt (norm2 axs) * (get axs 0 / sqrt (norm2 axs))
          + get axs 1 / sqrt (norm2 axs) * (get axs 1 / sqrt (norm2 axs))
          + get axs 2 / sqrt (norm2 axs) * (get axs 2 / sqrt (norm2 axs))).
  apply unit_components; [exact Hs | exact Hn].
Qed.

Lemma setAxis_storesUnitAxis (o : TACSBeamConstitutive.t) (axs : list R) :
  TACSBeamConstitutive.axis o = unitAxis axs ->
  0 < norm2 axs -> storesUnitAxis axs o.
Proof.
  intros E H. unfold storesUnitAxis.
  split; [exact E|]. rewrite E.
  split; [now apply unitAxis_norm2|].
  split; [rewrite unitAxis_norm2 by exact H; apply sqrt_1|].
  intros rho0 C0 out Hout.
  unfold TACSBeamConstitutive.getProperties. cbn [snd]. rewrite E.
  destruct out as [|x [|y [|z [|w out]]]]; try discriminate.
  reflexivity.
Qed.

(** C10, as the code has it: after either explicit constructor, the
    constructor that takes the full matrix, or a call of [setProperties],
    each with an axis argument that is neither null nor the zero vector,
    the stored reference axis is the argument divided by its Euclidean
    length, a unit vector, and it is this normalized axis that
    [getProperties] returns. *)
Theorem axis_normalized
    (fresh self : TACSBeamConstitutive.t) (axs : list R)
    (EA EI22 EI33 EI23 GJ kG22 kG33 kG23 m00 m11 m22 m33
     xm2 xm3 xc2 xc3 xk2 xk3 muS : R)
    (rhoA rhoIy rhoIz rhoIyz EIy EIz kGAy kGAz : R)
    (rho0 C0 : option (list R))
    (Hfresh : TACSBeamConstitutive.sized fresh)
    (Hself : TACSBeamConstitutive.sized self)
    (Hnz : ~ (get axs 0 = 0 /\ get axs 1 = 0 /\ get axs 2 = 0)) :
  storesUnitAxis axs
    (TACSBeamConstitutive.TACSBeamConstitutive_1 fresh axs
       EA EI22 EI33 EI23 GJ kG22 kG33 kG23 m00 m11 m22 m33
       xm2 xm3 xc2 xc3 xk2 xk3 muS)
  /\ storesUnitAxis axs
       (TACSBeamConstitutive.TACSBeamConstitutive_2 fresh
          rhoA rhoIy rhoIz rhoIyz EA GJ EIy EIz kGAy kGAz axs)
  /\ storesUnitAxis axs
       (TACSBeamConstitutive.TACSBeamConstitutive_3 fresh rho0 C0 (Some axs))
  /\ storesUnitAxis axs
       (TACSBeamConstitutive.setProperties self rho0 C0 (Some axs)).
Proof.
  pose proof (norm2_pos axs Hnz) as Hpos.
  destruct Hfresh as (_ & _ & Hf). destruct Hself as (_ & _ & Hsf).
  split; [|split; [|split]];
    (apply setAxis_storesUnitAxis; [|exact Hpos]);
    cbn [TACSBeamConstitutive.axis
         TACSBeamConstitutive.TACSBeamConstitutive_1
         TACSBeamConstitutive.TACSBeamConstitutive_2
         TACSBeamConstitutive.TACSBeamConstitutive_3
         TACSBeamConstitutive.setProperties];
    apply setAxis_spec; assumption.
Qed.

Lemma axis_normalized_witness :
  let fresh :=
    TACSBeamConstitutive.mk (repeat 0 21) (repeat 0 4) (repeat 0 3) in
  TACSBeamConstitutive.axis
    (TACSBeamConstitutive.setProperties fresh None None (Some [3; 0; 4]))
    = unitAxis [3; 0; 4].
Proof.
  intros fresh.
  assert (Hsized : TACSBeamConstitutive.sized fresh)
    by (repeat split; reflexivity).
  assert (Hnz : ~ (get [3; 0; 4] 0 = 0 /\ get [3; 0; 4] 1 = 0
                   /\ get [3; 0; 4] 2 = 0))
    by (unfold get; simpl; lra).
  destruct (@axis_normalized fresh fresh [3; 0; 4]
              1 1 1 0 1 1 1 0 1 1 1 1 0 0 0 0 0 0 0
              1 1 1 0 1 1 1 1 None None Hsized Hsized Hnz)
    as (_ & _ & _ & (H & _)).
  exact H.
Defined.

(** The claim of C10 as stated fails for the zero vector: the argument is
    not null, yet the stored axis is the zero vector again, whatever
    [1/sqrt(0)] is, and not a unit vector. *)
Lemma zero_axis_not_unit :
  let fresh :=
    TACSBeamConstitutive.mk (repeat 0 21) (repeat 0 4) (repeat 0 3) in
  norm2 (TACSBeamConstitutive.axis
           (TACSBeamConstitutive.setProperties fresh None None
              (Some [0; 0; 0]))) <> 1
  /\ norm2 (TACSBeamConstitutive.axis
              (TACSBeamConstitutive.TACSBeamConstitutive_2 fresh
                 1 1 1 0 1 1 1 1 1 1 [0; 0; 0])) <> 1
  /\ snd (TACSBeamConstitutive.getProperties
            (TACSBeamConstitutive.setProperties fresh None None
               (Some [0; 0; 0]))
            None None (Some [0; 0; 0]))
     = Some [0; 0; 0].
Proof.
  intros fresh.
  assert (E : TACSBeamConstitutive.setAxis (repeat 0 3) [0; 0; 0] = [0; 0; 0]).
  { rewrite setAxis_spec by reflexivity.
    unfold unitAxis, get; simpl nth. unfold Rdiv.
    now rewrite !Rmult_0_l. }
  subst fresh.
  unfold TACSBeamConstitutive.getProperties,
    TACSBeamConstitutive.setProperties,
    TACSBeamConstitutive.TACSBeamConstitutive_2.
  cbn [snd TACSBeamConstitutive.axis]. rewrite !E.
  unfold norm2, get; simpl.
  split; [lra | split; [lra | reflexivity]].
Qed.

(** * Further properties of the element kernels *)

(** ** Sums kept in loop variables *)

Lemma pair_loop (n : nat) (f1 f2 : nat -> R) (a b : R) :
  for_loop n (fun i '(x, y) => (x + f1 i, y + f2 i)) (a, b)
    = (a + Rsum n f1, b + Rsum n f2).
Proof.
  induction n as [|n IH].
  - rewrite for_loop_0. simpl. now rewrite !Rplus_0_r.
  - rewrite for_loop_S, IH. simpl. now rewrite !Rplus_assoc.
Qed.

Lemma triple_loop (n : nat) (f1 f2 f3 : nat -> R) (a b c : R) :
  for_loop n (fun i '(x, y, z) => (x + f1 i, y + f2 i, z + f3 i)) (a, b, c)
    = (a + Rsum n f1, b + Rsum n f2, c + Rsum n f3).
Proof.
  induction n as [|n IH].
  - rewrite for_loop_0. simpl. now rewrite !Rplus_0_r.
  - rewrite for_loop_S, IH. simpl. now rewrite !Rplus_assoc.
Qed.

Lemma sextuple_loop (n : nat) (f1 f2 f3 f4 f5 f6 : nat -> R) :
  for_loop n (fun i '(x1, x2, x3, x4, x5, x6) =>
                (x1 + f1 i, x2 + f2 i, x3 + f3 i,
                 x4 + f4 i, x5 + f5 i, x6 + f6 i)) (0, 0, 0, 0, 0, 0)
    = (Rsum n f1, Rsum n f2, Rsum n f3, Rsum n f4, Rsum n f5, Rsum n f6).
Proof.
  induction n as [|n IH].
  - rewrite for_loop_0. reflexivity.
  - rewrite for_loop_S, IH. reflexivity.
Qed.

Lemma Rsum_minus (n : nat) (g g' : nat -> R) :
  Rsum n (fun k => g k - g' k) = Rsum n g - Rsum n g'.
Proof. induction n as [|n IH]; simpl; [|rewrite IH]; ring. Qed.

Lemma Rsum_scal_r (n : nat) (a : R) (g : nat -> R) :
  Rsum n (fun k => g k * a) = Rsum n g * a.
Proof. induction n as [|n IH]; simpl; [|rewrite IH]; ring. Qed.

Lemma Rsum_nonneg (n : nat) (g : nat -> R) :
  (forall k, (k < n)%nat -> 0 <= g k) -> 0 <= Rsum n g.
Proof.
  intros H. induction n as [|n IH]; simpl; [lra|].
  assert (0 <= Rsum n g) by (apply IH; intros; apply H; lia).
  assert (0 <= g n) by (apply H; lia). lra.
Qed.

(** ** The residual against the tangent matrix *)

Section Consistency.

Variable order : nat.
Variable getGaussPtsWts : nat -> list R * list R.
Variable lagrangeSFKnotsDeriv : R -> list R -> nat -> list R * list R.
Variable jacobian2d : list R -> R * list R.

Local Abbreviation getShapeFunctionsDeriv :=
  (PoissonQuad.getShapeFunctionsDeriv order lagrangeSFKnotsDeriv).
Local Abbreviation getJacobianTransform :=
  (PoissonQuad.getJacobianTransform order).
Local Abbreviation residualTerm :=
  (residualTerm order getGaussPtsWts lagrangeSFKnotsDeriv jacobian2d).
Local Abbreviation residualIncrement :=
  (residualIncrement order getGaussPtsWts lagrangeSFKnotsDeriv jacobian2d).
Local Abbreviation jacobianTerm :=
  (jacobianTerm order getGaussPtsWts lagrangeSFKnotsDeriv jacobian2d).
Local Abbreviation jacobianIncrement :=
  (jacobianIncrement order getGaussPtsWts lagrangeSFKnotsDeriv jacobian2d).

(** The residual term with its three running sums written out. *)
Lemma residualTerm_sums (q : PoissonQuad.t) (Xpts vars : list R)
      (m n i : nat) :
  residualTerm q Xpts vars m n i =
  let '(pts, wts) := getGaussPtsWts order in
  let '(N, Na, Nb) := getShapeFunctionsDeriv q [get pts n; get pts m] in
  let '(h, J) := jacobian2d (getJacobianTransform Na Nb Xpts) in
  let Nx k := get Na k * get J 0 + get Nb k * get J 2 in
  let Ny k := get Na k * get J 1 + get Nb k * get J 3 in
  h * (get wts n * get wts m)
  * (Nx i * Rsum (order * order) (fun j => Nx j * get vars j)
     + Ny i * Rsum (order * order) (fun j => Ny j * get vars j)
     - Rsum (order * order) (fun j => get N j * get (PoissonQuad.f q) j)
       * get N i).
Proof.
  unfold residualTerm.
  destruct (getGaussPtsWts order) as [pts wts].
  destruct (getShapeFunctionsDeriv q [get pts n; get pts m]) as [[N Na] Nb].
  destruct (jacobian2d (getJacobianTransform Na Nb Xpts)) as [h J].
  rewrite (triple_loop (order * order)
             (fun i => get N i * get (PoissonQuad.f q) i)
             (fun i => (get Na i * get J 0 + get Nb i * get J 2) * get vars i)
             (fun i => (get Na i * get J 1 + get Nb i * get J 3) * get vars i)).
  cbv zeta. ring.
Qed.

Lemma residualTerm_jacobianTerm (q : PoissonQuad.t) (Xpts vars vars' : list R)
      (m n i : nat) :
  residualTerm q Xpts vars m n i - residualTerm q Xpts vars' m n i
    = Rsum (order * order) (fun j =>
        jacobianTerm q 1 Xpts m n i j * (get vars j - get vars' j)).
Proof.
  rewrite !residualTerm_sums. unfold jacobianTerm.
  destruct (getGaussPtsWts order) as [pts wts].
  destruct (getShapeFunctionsDeriv q [get pts n; get pts m]) as [[N Na] Nb].
  destruct (jacobian2d (getJacobianTransform Na Nb Xpts)) as [h J].
  cbv zeta.
  set (Nx := fun k => get Na k * get J 0 + get Nb k * get J 2).
  set (Ny := fun k => get Na k * get J 1 + get Nb k * get J 3).
  set (w := h * (get wts n * get wts m)).
  rewrite Rsum_ext with
    (g := fun j => h * (1 * get wts n * get wts m)
                   * (Nx i * Nx j + Ny i * Ny j)
                   * (get vars j - get vars' j))
    (g' := fun j => (w * Nx i) * (Nx j * get vars j)
                    + (- (w * Nx i)) * (Nx j * get vars' j)
                    + ((w * Ny i) * (Ny j * get vars j)
                       + (- (w * Ny i)) * (Ny j * get vars' j)))
    by (intros; cbv beta; unfold w, Nx, Ny; ring).
  rewrite !Rsum_plus, !Rsum_scal. unfold w, Nx, Ny. ring.
Qed.

Lemma residualIncrement_entry (q : PoissonQuad.t) (Xpts vars : list R)
      (p : nat) :
  (p < order * order)%nat ->
  residualIncrement q Xpts vars p
    = Rsum order (fun m => Rsum order (fun n => residualTerm q Xpts vars m n p)).
Proof.
  intros Hp. unfold residualIncrement.
  apply Rsum_ext; intros m _. apply Rsum_ext; intros n _.
  rewrite Rsum_delta.
  now replace (p <? order * order)%nat with true
    by (symmetry; apply Nat.ltb_lt; exact Hp).
Qed.

(** Sums over quadrature points and over nodes change places. *)
Lemma Rsum_points_nodes (a b : nat) (T : nat -> nat -> nat -> R)
      (d : nat -> R) :
  Rsum a (fun m => Rsum a (fun n => Rsum b (fun j => T m n j * d j)))
    = Rsum b (fun j => Rsum a (fun m => Rsum a (fun n => T m n j)) * d j).
Proof.
  rewrite Rsum_ext with
    (g := fun j => Rsum a (fun m => Rsum a (fun n => T m n j)) * d j)
    (g' := fun j => Rsum a (fun m => Rsum a (fun n => T m n j * d j))).
  - rewrite (Rsum_swap b a (fun m j => Rsum a (fun n => T m n j * d j))).
    apply Rsum_ext; intros m _.
    now rewrite (Rsum_swap b a (fun n j => T m n j * d j)).
  - intros j _. rewrite <- Rsum_scal_r. apply Rsum_ext; intros m _.
    now rewrite <- Rsum_scal_r.
Qed.

Lemma residualIncrement_jacobianIncrement (q : PoissonQuad.t)
      (Xpts vars vars' : list R) (i : nat) :
  (i < order * order)%nat ->
  residualIncrement q Xpts vars i - residualIncrement q Xpts vars' i
    = Rsum (order * order) (fun j =>
        jacobianIncrement q 1 Xpts (i + j * order * order)
        * (get vars j - get vars' j)).
Proof.
  intros Hi. rewrite !residualIncrement_entry by exact Hi.
  rewrite <- Rsum_minus.
  rewrite Rsum_ext with
    (g' := fun m => Rsum order (fun n =>
             Rsum (order * order) (fun j =>
               jacobianTerm q 1 Xpts m n i j * (get vars j - get vars' j)))).
  - rewrite (Rsum_points_nodes order (order * order)
               (fun m n j => jacobianTerm q 1 Xpts m n i j)).
    apply Rsum_ext; intros j Hj.
    now rewrite jacobianIncrement_entry.
  - intros m _. rewrite <- Rsum_minus. apply Rsum_ext; intros n _.
    apply residualTerm_jacobianTerm.
Qed.

End Consistency.

(** X1: the tangent matrix is the derivative of the residual.  The
    residual is affine in the state: changing [vars] to [vars'] changes
    entry [i] of the residual by the matrix that [addJacobian] assembles
    with [alpha = 1] into a zero buffer, applied to [vars - vars']. *)
Theorem addResidual_addJacobian_consistent
    (order : nat) (getGaussPtsWts : nat -> list R * list R)
    (lagrangeSFKnotsDeriv : R -> list R -> nat -> list R * list R)
    (jacobian2d : list R -> R * list R)
    (q : PoissonQuad.t) (time beta gamma : R)
    (res Xpts vars vars' dvars ddvars : list R) (i : nat)
    (Hi : (i < order * order)%nat)
    (Hlen : (order * order <= length res)%nat) :
  let addResidual v :=
    PoissonQuad.addResidual order getGaussPtsWts lagrangeSFKnotsDeriv
      jacobian2d q time res Xpts v dvars ddvars in
  let K :=
    PoissonQuad.addJacobian order getGaussPtsWts lagrangeSFKnotsDeriv
      jacobian2d q time (repeat 0 ((order * order) * (order * order)))
      1 beta gamma Xpts vars dvars ddvars in
  get (addResidual vars) i - get (addResidual vars') i
    = Rsum (order * order) (fun j =>
        get K (i + j * order * order) * (get vars j - get vars' j)).
Proof.
  intros addResidual K.
  destruct (addResidual_adds order getGaussPtsWts lagrangeSFKnotsDeriv
              jacobian2d q time Xpts vars dvars ddvars res) as [_ Hg].
  destruct (addResidual_adds order getGaussPtsWts lagrangeSFKnotsDeriv
              jacobian2d q time Xpts vars' dvars ddvars res) as [_ Hg'].
  destruct (addJacobian_adds order getGaussPtsWts lagrangeSFKnotsDeriv
              jacobian2d q time 1 beta gamma Xpts vars dvars ddvars
              (repeat 0 ((order * order) * (order * order)))) as [_ HK].
  rewrite repeat_length in HK. fold K in HK.
  unfold addResidual. rewrite Hg, Hg' by lia.
  transitivity
    (residualIncrement order getGaussPtsWts lagrangeSFKnotsDeriv jacobian2d
       q Xpts vars i
     - residualIncrement order getGaussPtsWts lagrangeSFKnotsDeriv jacobian2d
         q Xpts vars' i); [ring|].
  rewrite residualIncrement_jacobianIncrement by exact Hi.
  apply Rsum_ext; intros j Hj.
  rewrite HK by nia. rewrite get_repeat_0. ring.
Qed.

Lemma addResidual_addJacobian_consistent_witness :
  let q := PoissonQuad.PoissonQuad 2 [1; 1; 1; 1] in
  let Xpts := [0; 0; 0; 1; 0; 0; 0; 1; 0; 1; 1; 0] in
  let addResidual v :=
    PoissonQuad.addResidual 2 FElibrary.getGaussPtsWts
      FElibrary.lagrangeSFKnotsDeriv FElibrary.jacobian2d
      q 0 [0; 0; 0; 0] Xpts v [] [] in
  let K :=
    PoissonQuad.addJacobian 2 FElibrary.getGaussPtsWts
      FElibrary.lagrangeSFKnotsDeriv FElibrary.jacobian2d
      q 0 (repeat 0 ((2 * 2) * (2 * 2))) 1 0 0 Xpts [1; 2; 3; 4] [] [] in
  get (addResidual [1; 2; 3; 4]) 1 - get (addResidual [0; 0; 0; 0]) 1
    = Rsum (2 * 2) (fun j =>
        get K (1 + j * 2 * 2) * (get [1; 2; 3; 4] j - get [0; 0; 0; 0] j)).
Proof.
  intros q Xpts addResidual K.
  apply (@addResidual_addJacobian_consistent 2 FElibrary.getGaussPtsWts
           FElibrary.lagrangeSFKnotsDeriv FElibrary.jacobian2d
           q 0 0 0 [0; 0; 0; 0] Xpts [1; 2; 3; 4] [0; 0; 0; 0] [] [] 1%nat).
  - simpl. lia.
  - simpl. lia.
Defined.

(** ** Superposition, the adjoint-weighted residual, the quadratic form *)

Section Superposition.

Variable order : nat.
Variable getGaussPtsWts : nat -> list R * list R.
Variable lagrangeSFKnotsDeriv : R -> list R -> nat -> list R * list R.
Variable jacobian2d : list R -> R * list R.

Local Abbreviation getShapeFunctionsDeriv :=
  (PoissonQuad.getShapeFunctionsDeriv order lagrangeSFKnotsDeriv).
Local Abbreviation getJacobianTransform :=
  (PoissonQuad.getJacobianTransform order).
Local Abbreviation residualTerm :=
  (residualTerm order getGaussPtsWts lagrangeSFKnotsDeriv jacobian2d).
Local Abbreviation residualIncrement :=
  (residualIncrement order getGaussPtsWts lagrangeSFKnotsDeriv jacobian2d).
Local Abbreviation jacobianTerm :=
  (jacobianTerm order getGaussPtsWts lagrangeSFKnotsDeriv jacobian2d).
Local Abbreviation jacobianIncrement :=
  (jacobianIncrement order getGaussPtsWts lagrangeSFKnotsDeriv jacobian2d).
Local Abbreviation jacobianWeight :=
  (jacobianWeight order getGaussPtsWts lagrangeSFKnotsDeriv jacobian2d).
Local Abbreviation errorProduct :=
  (errorProduct order getGaussPtsWts lagrangeSFKnotsDeriv jacobian2d).

(** The shape functions depend on the element through its knots only. *)
Lemma getShapeFunctionsDeriv_knots (q q' : PoissonQuad.t) (pt : list R) :
  PoissonQuad.knots q = PoissonQuad.knots q' ->
  getShapeFunctionsDeriv q pt = getShapeFunctionsDeriv q' pt.
Proof.
  intros H. unfold PoissonQuad.getShapeFunctionsDeriv. now rewrite H.
Qed.

Lemma residualTerm_linear (q q1 q2 : PoissonQuad.t) (a b : R)
      (Xpts vars v1 v2 : list R) (m n i : nat) :
  PoissonQuad.knots q1 = PoissonQuad.knots q ->
  PoissonQuad.knots q2 = PoissonQuad.knots q ->
  (forall j, (j < order * order)%nat ->
     get (PoissonQuad.f q) j
       = a * get (PoissonQuad.f q1) j + b * get (PoissonQuad.f q2) j) ->
  (forall j, (j < order * order)%nat ->
     get vars j = a * get v1 j + b * get v2 j) ->
  residualTerm q Xpts vars m n i
    = a * residualTerm q1 Xpts v1 m n i + b * residualTerm q2 Xpts v2 m n i.
Proof.
  intros Hk1 Hk2 Hf Hv. rewrite !residualTerm_sums.
  destruct (getGaussPtsWts order) as [pts wts].
  rewrite (getShapeFunctionsDeriv_knots q1 q _ Hk1).
  rewrite (getShapeFunctionsDeriv_knots q2 q _ Hk2).
  destruct (getShapeFunctionsDeriv q [get pts n; get pts m]) as [[N Na] Nb].
  destruct (jacobian2d (getJacobianTransform Na Nb Xpts)) as [h J].
  cbv zeta.
  set (Nx := fun k => get Na k * get J 0 + get Nb k * get J 2).
  set (Ny := fun k => get Na k * get J 1 + get Nb k * get J 3).
  assert (L : forall (c : nat -> R) (u u1 u2 : list R),
    (forall j, (j < order * order)%nat ->
       get u j = a * get u1 j + b * get u2 j) ->
    Rsum (order * order) (fun j => c j * get u j)
      = a * Rsum (order * order) (fun j => c j * get u1 j)
        + b * Rsum (order * order) (fun j => c j * get u2 j)).
  { intros c u u1 u2 Hu. rewrite <- !Rsum_scal, <- Rsum_plus.
    apply Rsum_ext; intros j Hj. rewrite Hu by exact Hj. ring. }
  rewrite (L Nx vars v1 v2 Hv), (L Ny vars v1 v2 Hv).
  rewrite (L (get N) _ _ _ Hf). ring.
Qed.

(** The error product is the residual term weighted by the adjoint. *)
Lemma errorProduct_residualTerm (q : PoissonQuad.t)
      (adjoint Xpts vars : list R) (m n : nat) :
  errorProduct q adjoint Xpts vars m n
    = Rsum (order * order) (fun i =>
        get adjoint i * residualTerm q Xpts vars m n i).
Proof.
  unfold errorProduct.
  rewrite Rsum_ext with
    (g := fun i => get adjoint i * residualTerm q Xpts vars m n i)
    (g' := fun i => get adjoint i *
       (let '(pts, wts) := getGaussPtsWts order in
        let '(N, Na, Nb) := getShapeFunctionsDeriv q [get pts n; get pts m] in
        let '(h, J) := jacobian2d (getJacobianTransform Na Nb Xpts) in
        let Nx k := get Na k * get J 0 + get Nb k * get J 2 in
        let Ny k := get Na k * get J 1 + get Nb k * get J 3 in
        h * (get wts n * get wts m)
        * (Nx i * Rsum (order * order) (fun j => Nx j * get vars j)
           + Ny i * Rsum (order * order) (fun j => Ny j * get vars j)
           - Rsum (order * order)
               (fun j => get N j * get (PoissonQuad.f q) j)
             * get N i)))
    by (intros; now rewrite residualTerm_sums).
  destruct (getGaussPtsWts order) as [pts wts].
  destruct (getShapeFunctionsDeriv q [get pts n; get pts m]) as [[N Na] Nb].
  destruct (jacobian2d (getJacobianTransform Na Nb Xpts)) as [h J].
  rewrite (sextuple_loop (order * order)
             (fun i => get N i * get (PoissonQuad.f q) i)
             (fun i => get N i * get adjoint i)
             (fun i => (get Na i * get J 0 + get Nb i * get J 2) * get vars i)
             (fun i => (get Na i * get J 1 + get Nb i * get J 3) * get vars i)
             (fun i => (get Na i * get J 0 + get Nb i * get J 2)
                       * get adjoint i)
             (fun i => (get Na i * get J 1 + get Nb i * get J 3)
                       * get adjoint i)).
  cbv zeta.
  set (PX := Rsum (order * order) (fun j =>
               (get Na j * get J 0 + get Nb j * get J 2) * get vars j)).
  set (PY := Rsum (order * order) (fun j =>
               (get Na j * get J 1 + get Nb j * get J 3) * get vars j)).
  set (FV := Rsum (order * order) (fun j =>
               get N j * get (PoissonQuad.f q) j)).
  set (w := h * (get wts n * get wts m)).
  rewrite Rsum_ext with
    (g := fun i => get adjoint i *
            (w * ((get Na i * get J 0 + get Nb i * get J 2) * PX
                  + (get Na i * get J 1 + get Nb i * get J 3) * PY
                  - FV * get N i)))
    (g' := fun i =>
       (w * PX) * ((get Na i * get J 0 + get Nb i * get J 2) * get adjoint i)
       + ((w * PY)
          * ((get Na i * get J 1 + get Nb i * get J 3) * get adjoint i)
          + (- (w * FV)) * (get N i * get adjoint i)))
    by (intros; cbv beta; ring).
  rewrite !Rsum_plus, !Rsum_scal. ring.
Qed.

(** The quadratic form of the terms at one quadrature point. *)
Lemma jacobianTerm_quadratic (q : PoissonQuad.t) (alpha : R)
      (Xpts v : list R) (m n : nat) :
  0 <= jacobianWeight q alpha Xpts m n ->
  0 <= Rsum (order * order) (fun i => Rsum (order * order) (fun j =>
         get v i * jacobianTerm q alpha Xpts m n i j * get v j)).
Proof.
  unfold jacobianWeight, jacobianTerm.
  destruct (getGaussPtsWts order) as [pts wts].
  destruct (getShapeFunctionsDeriv q [get pts n; get pts m]) as [[N Na] Nb].
  destruct (jacobian2d (getJacobianTransform Na Nb Xpts)) as [h J].
  cbv zeta. intros Hw.
  set (w := h * (alpha * get wts n * get wts m)) in *.
  set (Nx := fun k => get Na k * get J 0 + get Nb k * get J 2).
  set (Ny := fun k => get Na k * get J 1 + get Nb k * get J 3).
  set (GX := Rsum (order * order) (fun j => Nx j * get v j)).
  set (GY := Rsum (order * order) (fun j => Ny j * get v j)).
  assert (E : Rsum (order * order) (fun i => Rsum (order * order) (fun j =>
                get v i * (w * (Nx i * Nx j + Ny i * Ny j)) * get v j))
              = w * (GX * GX + GY * GY)).
  { rewrite Rsum_ext with
      (g' := fun i => (w * GX) * (Nx i * get v i)
                      + (w * GY) * (Ny i * get v i)).
    - rewrite Rsum_plus, !Rsum_scal. fold GX GY. ring.
    - intros i _.
      rewrite Rsum_ext with
        (g' := fun j => (get v i * w * Nx i) * (Nx j * get v j)
                        + (get v i * w * Ny i) * (Ny j * get v j))
        by (intros; ring).
      rewrite Rsum_plus, !Rsum_scal. fold GX GY. ring. }
  unfold Nx, Ny in E. rewrite E.
  apply Rmult_le_pos; [exact Hw | nra].
Qed.

End Superposition.

Lemma Rsum_nodes_points (a b : nat) (G : nat -> nat -> nat -> nat -> R) :
  Rsum b (fun i => Rsum b (fun j =>
    Rsum a (fun m => Rsum a (fun n => G m n i j))))
  = Rsum a (fun m => Rsum a (fun n =>
      Rsum b (fun i => Rsum b (fun j => G m n i j)))).
Proof.
  rewrite Rsum_ext with
    (g' := fun i => Rsum a (fun m => Rsum b (fun j =>
                      Rsum a (fun n => G m n i j))))
    by (intros i _;
        apply (Rsum_swap b a (fun m j => Rsum a (fun n => G m n i j)))).
  rewrite (Rsum_swap b a (fun m i => Rsum b (fun j =>
             Rsum a (fun n => G m n i j)))).
  apply Rsum_ext; intros m _.
  rewrite Rsum_ext with
    (g' := fun i => Rsum a (fun n => Rsum b (fun j => G m n i j)))
    by (intros i _; apply (Rsum_swap b a (fun n j => G m n i j))).
  apply (Rsum_swap b a (fun n i => Rsum b (fun j => G m n i j))).
Qed.

(** X2: superposition.  The residual assembled into a zero buffer is
    linear in the pair (state, source): for elements with the same knots
    whose sources and states combine as [a (.)1 + b (.)2] on the
    [order*order] nodes, the residuals combine the same way.  In
    particular a zero source with a zero state leaves any buffer as it
    was. *)
Theorem addResidual_superposition
    (order : nat) (getGaussPtsWts : nat -> list R * list R)
    (lagrangeSFKnotsDeriv : R -> list R -> nat -> list R * list R)
    (jacobian2d : list R -> R * list R)
    (q q1 q2 : PoissonQuad.t) (a b time : R)
    (Xpts vars v1 v2 dvars ddvars : list R) (len : nat)
    (Hk1 : PoissonQuad.knots q1 = PoissonQuad.knots q)
    (Hk2 : PoissonQuad.knots q2 = PoissonQuad.knots q)
    (Hf : forall j, (j < order * order)%nat ->
            get (PoissonQuad.f q) j
              = a * get (PoissonQuad.f q1) j + b * get (PoissonQuad.f q2) j)
    (Hv : forall j, (j < order * order)%nat ->
            get vars j = a * get v1 j + b * get v2 j) :
  let addResidual e res v :=
    PoissonQuad.addResidual order getGaussPtsWts lagrangeSFKnotsDeriv
      jacobian2d e time res Xpts v dvars ddvars in
  (forall i,
     get (addResidual q (repeat 0 len) vars) i
       = a * get (addResidual q1 (repeat 0 len) v1) i
         + b * get (addResidual q2 (repeat 0 len) v2) i)
  /\ (a = 0 -> b = 0 -> forall res, addResidual q res vars = res).
Proof.
  intros addResidual.
  assert (Hinc : forall p,
    residualIncrement order getGaussPtsWts lagrangeSFKnotsDeriv jacobian2d
      q Xpts vars p
    = a * residualIncrement order getGaussPtsWts lagrangeSFKnotsDeriv
            jacobian2d q1 Xpts v1 p
      + b * residualIncrement order getGaussPtsWts lagrangeSFKnotsDeriv
              jacobian2d q2 Xpts v2 p).
  { intros p. unfold residualIncrement.
    rewrite <- !Rsum_scal, <- Rsum_plus. apply Rsum_ext; intros m _.
    rewrite <- !Rsum_scal, <- Rsum_plus. apply Rsum_ext; intros n _.
    rewrite <- !Rsum_scal, <- Rsum_plus. apply Rsum_ext; intros i _.
    destruct (p =? i)%nat; [|ring].
    now apply residualTerm_linear. }
  split.
  - intros i.
    destruct (addResidual_adds order getGaussPtsWts lagrangeSFKnotsDeriv
                jacobian2d q time Xpts vars dvars ddvars (repeat 0 len))
      as [Hl Hg].
    destruct (addResidual_adds order getGaussPtsWts lagrangeSFKnotsDeriv
                jacobian2d q1 time Xpts v1 dvars ddvars (repeat 0 len))
      as [Hl1 Hg1].
    destruct (addResidual_adds order getGaussPtsWts lagrangeSFKnotsDeriv
                jacobian2d q2 time Xpts v2 dvars ddvars (repeat 0 len))
      as [Hl2 Hg2].
    rewrite repeat_length in *. unfold addResidual.
    destruct (Nat.lt_ge_cases i len) as [Hi|Hi].
    + rewrite Hg, Hg1, Hg2, Hinc, get_repeat_0 by exact Hi. ring.
    + rewrite !get_overflow by lia. ring.
  - intros -> -> res.
    destruct (addResidual_adds order getGaussPtsWts lagrangeSFKnotsDeriv
                jacobian2d q time Xpts vars dvars ddvars res) as [Hl Hg].
    apply list_eq_get; [exact Hl|]. intros i.
    destruct (Nat.lt_ge_cases i (length res)) as [Hi|Hi].
    + unfold addResidual. rewrite Hg, Hinc by exact Hi. ring.
    + unfold addResidual. rewrite !get_overflow by lia. reflexivity.
Qed.

Lemma addResidual_superposition_witness :
  let k := [-1; 1] in
  let Xpts := [0; 0; 0; 1; 0; 0; 0; 1; 0; 1; 1; 0] in
  let addResidual e v :=
    PoissonQuad.addResidual 2 FElibrary.getGaussPtsWts
      FElibrary.lagrangeSFKnotsDeriv FElibrary.jacobian2d
      e 0 (repeat 0 4) Xpts v [] [] in
  get (addResidual (PoissonQuad.mk [5; 8; 11; 14] k) [2; 3; 4; 5]) 0
    = 2 * get (addResidual (PoissonQuad.mk [1; 1; 1; 1] k) [1; 0; 2; 1]) 0
      + 3 * get (addResidual (PoissonQuad.mk [1; 2; 3; 4] k) [0; 1; 0; 1]) 0.
Proof.
  intros k Xpts addResidual.
  assert (Hf : forall j, (j < 2 * 2)%nat ->
            get [5; 8; 11; 14] j
              = 2 * get [1; 1; 1; 1] j + 3 * get [1; 2; 3; 4] j).
  { intros [|[|[|[|j]]]] Hj; try lia; unfold get; simpl; lra. }
  assert (Hv : forall j, (j < 2 * 2)%nat ->
            get [2; 3; 4; 5] j
              = 2 * get [1; 0; 2; 1] j + 3 * get [0; 1; 0; 1] j).
  { intros [|[|[|[|j]]]] Hj; try lia; unfold get; simpl; lra. }
  apply (@addResidual_superposition 2 FElibrary.getGaussPtsWts
           FElibrary.lagrangeSFKnotsDeriv FElibrary.jacobian2d
           (PoissonQuad.mk [5; 8; 11; 14] k) (PoissonQuad.mk [1; 1; 1; 1] k)
           (PoissonQuad.mk [1; 2; 3; 4] k) 2 3 0 Xpts
           [2; 3; 4; 5] [1; 0; 2; 1] [0; 1; 0; 1] [] [] 4
           eq_refl eq_refl Hf Hv).
Defined.

(** X3: the localized error sums to the adjoint-weighted residual: the
    entries of [err] grow, in total, by the sum over the nodes of
    [adjoint[i]] times entry [i] of the residual that [addResidual]
    assembles into a zero buffer. *)
Theorem addLocalizedError_adjoint_residual
    (order : nat) (getGaussPtsWts : nat -> list R * list R)
    (lagrangeSFKnotsDeriv : R -> list R -> nat -> list R * list R)
    (jacobian2d : list R -> R * list R)
    (q : PoissonQuad.t) (time : R)
    (err adjoint Xpts vars dvars ddvars : list R)
    (Hord : (1 <= order)%nat)
    (Hlen : (order * order <= length err)%nat) :
  let err' :=
    PoissonQuad.addLocalizedError order getGaussPtsWts lagrangeSFKnotsDeriv
      jacobian2d q time err adjoint Xpts vars in
  let res :=
    PoissonQuad.addResidual order getGaussPtsWts lagrangeSFKnotsDeriv
      jacobian2d q time (repeat 0 (order * order)) Xpts vars dvars ddvars in
  sum_list err'
    = sum_list err
      + Rsum (order * order) (fun i => get adjoint i * get res i).
Proof.
  intros err' res.
  pose proof (addLocalizedError_adds order getGaussPtsWts
                lagrangeSFKnotsDeriv jacobian2d q time adjoint Xpts vars)
    as H.
  unfold err'. rewrite (adds_sum_list err H).
  rewrite errorIncrement_total by assumption. f_equal.
  rewrite Rsum_ext with
    (g' := fun m => Rsum order (fun n => Rsum (order * order) (fun i =>
             residualTerm order getGaussPtsWts lagrangeSFKnotsDeriv
               jacobian2d q Xpts vars m n i * get adjoint i))).
  - rewrite (Rsum_points_nodes order (order * order)
               (fun m n i =>
                  residualTerm order getGaussPtsWts lagrangeSFKnotsDeriv
                    jacobian2d q Xpts vars m n i)).
    apply Rsum_ext; intros i Hi.
    destruct (addResidual_adds order getGaussPtsWts lagrangeSFKnotsDeriv
                jacobian2d q time Xpts vars dvars ddvars
                (repeat 0 (order * order))) as [_ Hg].
    rewrite repeat_length in Hg. fold res in Hg.
    rewrite Hg, get_repeat_0, residualIncrement_entry by exact Hi. ring.
  - intros m _. apply Rsum_ext; intros n _.
    rewrite errorProduct_residualTerm.
    apply Rsum_ext; intros i _. ring.
Qed.

Lemma addLocalizedError_adjoint_residual_witness :
  let q := PoissonQuad.PoissonQuad 2 [1; 1; 1; 1] in
  let Xpts := [0; 0; 0; 1; 0; 0; 0; 1; 0; 1; 1; 0] in
  let err' :=
    PoissonQuad.addLocalizedError 2 FElibrary.getGaussPtsWts
      FElibrary.lagrangeSFKnotsDeriv FElibrary.jacobian2d
      q 0 [0; 0; 0; 0] [1; 2; 3; 4] Xpts [0; 1; 0; 1] in
  let res :=
    PoissonQuad.addResidual 2 FElibrary.getGaussPtsWts
      FElibrary.lagrangeSFKnotsDeriv FElibrary.jacobian2d
      q 0 (repeat 0 (2 * 2)) Xpts [0; 1; 0; 1] [] [] in
  sum_list err'
    = sum_list [0; 0; 0; 0]
      + Rsum (2 * 2) (fun i => get [1; 2; 3; 4] i * get res i).
Proof.
  intros q Xpts err' res.
  apply (@addLocalizedError_adjoint_residual 2 FElibrary.getGaussPtsWts
           FElibrary.lagrangeSFKnotsDeriv FElibrary.jacobian2d
           q 0 [0; 0; 0; 0] [1; 2; 3; 4] Xpts [0; 1; 0; 1] [] []).
  - lia.
  - simpl. lia.
Defined.

(** X4: the tangent matrix is positive semidefinite.  When the factor
    [h], the determinant times [alpha] times the two quadrature weights,
    is not negative at any quadrature point, the matrix [K] that
    [addJacobian] assembles into a zero buffer satisfies
    [sum_i sum_j v[i] K[i + j*order*order] v[j] >= 0] for every [v]. *)
Theorem addJacobian_positive_semidefinite
    (order : nat) (getGaussPtsWts : nat -> list R * list R)
    (lagrangeSFKnotsDeriv : R -> list R -> nat -> list R * list R)
    (jacobian2d : list R -> R * list R)
    (q : PoissonQuad.t) (time alpha beta gamma : R)
    (Xpts vars dvars ddvars v : list R)
    (Hw : forall m n, (m < order)%nat -> (n < order)%nat ->
            0 <= jacobianWeight order getGaussPtsWts lagrangeSFKnotsDeriv
                   jacobian2d q alpha Xpts m n) :
  let K :=
    PoissonQuad.addJacobian order getGaussPtsWts lagrangeSFKnotsDeriv
      jacobian2d q time (repeat 0 ((order * order) * (order * order)))
      alpha beta gamma Xpts vars dvars ddvars in
  0 <= Rsum (order * order) (fun i => Rsum (order * order) (fun j =>
         get v i * get K (i + j * order * order) * get v j)).
Proof.
  intros K.
  destruct (addJacobian_adds order getGaussPtsWts lagrangeSFKnotsDeriv
              jacobian2d q time alpha beta gamma Xpts vars dvars ddvars
              (repeat 0 ((order * order) * (order * order)))) as [_ HK].
  rewrite repeat_length in HK. fold K in HK.
  rewrite Rsum_ext with
    (g' := fun i => Rsum (order * order) (fun j =>
             Rsum order (fun m => Rsum order (fun n =>
               get v i
               * jacobianTerm order getGaussPtsWts lagrangeSFKnotsDeriv
                   jacobian2d q alpha Xpts m n i j
               * get v j)))).
  - rewrite (Rsum_nodes_points order (order * order)
               (fun m n i j =>
                  get v i
                  * jacobianTerm order getGaussPtsWts lagrangeSFKnotsDeriv
                      jacobian2d q alpha Xpts m n i j
                  * get v j)).
    apply Rsum_nonneg; intros m Hm. apply Rsum_nonneg; intros n Hn.
    apply jacobianTerm_quadratic. now apply Hw.
  - intros i Hi. apply Rsum_ext; intros j Hj.
    rewrite HK by nia.
    rewrite get_repeat_0, jacobianIncrement_entry by assumption.
    rewrite Rplus_0_l, <- Rsum_scal, <- Rsum_scal_r.
    apply Rsum_ext; intros m _.
    rewrite <- Rsum_scal, <- Rsum_scal_r. reflexivity.
Qed.

Lemma unit_square_weights (m n : nat) :
  (m < 2)%nat -> (n < 2)%nat ->
  jacobianWeight 2 FElibrary.getGaussPtsWts FElibrary.lagrangeSFKnotsDeriv
    FElibrary.jacobian2d (PoissonQuad.PoissonQuad 2 [1; 1; 1; 1]) 1
    [0; 0; 0; 1; 0; 0; 0; 1; 0; 1; 1; 0] m n = 1 / 4.
Proof.
  intros Hm Hn.
  destruct m as [|[|m]]; try lia; destruct n as [|[|n]]; try lia;
    cbv - [Rplus Rmult Rminus Ropp Rinv Rdiv sqrt IZR];
    generalize (1 / sqrt 3); intros g; field.
Qed.

Lemma addJacobian_positive_semidefinite_witness :
  let q := PoissonQuad.PoissonQuad 2 [1; 1; 1; 1] in
  let Xpts := [0; 0; 0; 1; 0; 0; 0; 1; 0; 1; 1; 0] in
  let K :=
    PoissonQuad.addJacobian 2 FElibrary.getGaussPtsWts
      FElibrary.lagrangeSFKnotsDeriv FElibrary.jacobian2d
      q 0 (repeat 0 ((2 * 2) * (2 * 2))) 1 0 0 Xpts [] [] [] in
  0 <= Rsum (2 * 2) (fun i => Rsum (2 * 2) (fun j =>
         get [1; -2; 3; 5] i * get K (i + j * 2 * 2) * get [1; -2; 3; 5] j)).
Proof.
  intros q Xpts K.
  apply (@addJacobian_positive_semidefinite 2 FElibrary.getGaussPtsWts
           FElibrary.lagrangeSFKnotsDeriv FElibrary.jacobian2d
           q 0 1 0 0 Xpts [] [] [] [1; -2; 3; 5]).
  intros m n Hm Hn. unfold q, Xpts.
  rewrite unit_square_weights by assumption. lra.
Defined.

(** ** The quadrature points by index *)

Lemma Rsum_add (x y : nat) (g : nat -> R) :
  Rsum (x + y) g = Rsum x g + Rsum y (fun k => g (x + k)%nat).
Proof.
  induction y as [|y IH].
  - rewrite Nat.add_0_r. simpl. ring.
  - rewrite Nat.add_succ_r. simpl. rewrite IH. ring.
Qed.

Lemma grid_mod_div (b m n : nat) :
  (n < b)%nat ->
  ((n + m * b) mod b = n /\ (n + m * b) / b = m)%nat.
Proof.
  intros Hn. split.
  - symmetry. apply (Nat.mod_unique _ _ m); [exact Hn | lia].
  - symmetry. apply (Nat.div_unique _ _ _ n); [exact Hn | lia].
Qed.

Lemma Rsum_grid (a b : nat) (F : nat -> nat -> R) :
  Rsum (a * b) (fun k => F (k mod b)%nat (k / b)%nat)
    = Rsum a (fun m => Rsum b (fun n => F n m)).
Proof.
  induction a as [|a IH]; [reflexivity|].
  replace (S a * b)%nat with (a * b + b)%nat by lia.
  rewrite Rsum_add, IH. simpl. f_equal.
  apply Rsum_ext; intros n Hn.
  replace (a * b + n)%nat with (n + a * b)%nat by lia.
  destruct (@grid_mod_div b a n Hn) as [-> ->]. reflexivity.
Qed.

(** X5: [getGaussWtsPts] enumerates the tensor grid the kernels loop
    over.  Index [n + m*order] is the point [(pts[n], pts[m])], the one
    the kernels set at [(m, n)], with weight [wts[n]*wts[m]], so a sum
    over the [getNumGaussPts] indices is the double sum over [m] and
    [n]. *)
Theorem getGaussWtsPts_grid
    (order : nat) (getGaussPtsWts : nat -> list R * list R) :
  let pts := fst (getGaussPtsWts order) in
  let wts := snd (getGaussPtsWts order) in
  (forall m n, (n < order)%nat ->
     PoissonQuad.getGaussWtsPts order getGaussPtsWts (n + m * order)
       = (get wts n * get wts m, quadraturePoint order getGaussPtsWts m n))
  /\ (forall g : R -> list R -> R,
        Rsum (PoissonQuad.getNumGaussPts order) (fun num =>
          g (fst (PoissonQuad.getGaussWtsPts order getGaussPtsWts num))
            (snd (PoissonQuad.getGaussWtsPts order getGaussPtsWts num)))
        = Rsum order (fun m => Rsum order (fun n =>
            g (get wts n * get wts m) [get pts n; get pts m]))).
Proof.
  intros pts wts. unfold pts, wts. split.
  - intros m n Hn.
    unfold PoissonQuad.getGaussWtsPts, quadraturePoint.
    destruct (@grid_mod_div order m n Hn) as [-> ->].
    destruct (getGaussPtsWts order) as [p w]. reflexivity.
  - intros g. unfold PoissonQuad.getNumGaussPts, PoissonQuad.getGaussWtsPts.
    destruct (getGaussPtsWts order) as [p w]. cbn [fst snd].
    apply (Rsum_grid order order
             (fun n m => g (get w n * get w m) [get p n; get p m])).
Qed.

(** ** The third coordinate *)

Lemma getJacobianTransform_xy (order : nat) (Na Nb Xpts Xpts' : list R) :
  (forall i, (i < order * order)%nat ->
     get Xpts (3 * i) = get Xpts' (3 * i)
     /\ get Xpts (3 * i + 1) = get Xpts' (3 * i + 1)) ->
  PoissonQuad.getJacobianTransform order Na Nb Xpts
    = PoissonQuad.getJacobianTransform order Na Nb Xpts'.
Proof.
  intros H. unfold PoissonQuad.getJacobianTransform.
  apply for_loop_ext. intros i Xd Hi.
  destruct (H i Hi) as [-> ->]. reflexivity.
Qed.

(** X6: the element is planar: the kernels read the first two coordinates
    of each node and never the third.  Two coordinate arrays that agree
    on [Xpts[3*i]] and [Xpts[3*i+1]] for the [order*order] nodes give the
    same residual, tangent matrix, localized error and determinant. *)
Theorem kernels_ignore_third_coordinate
    (order : nat) (getGaussPtsWts : nat -> list R * list R)
    (lagrangeSFKnotsDeriv : R -> list R -> nat -> list R * list R)
    (jacobian2d : list R -> R * list R)
    (q : PoissonQuad.t) (time alpha beta gamma : R)
    (res mat err adjoint pt Xpts Xpts' vars dvars ddvars : list R)
    (Hxy : forall i, (i < order * order)%nat ->
             get Xpts (3 * i) = get Xpts' (3 * i)
             /\ get Xpts (3 * i + 1) = get Xpts' (3 * i + 1)) :
  PoissonQuad.addResidual order getGaussPtsWts lagrangeSFKnotsDeriv
    jacobian2d q time res Xpts vars dvars ddvars
  = PoissonQuad.addResidual order getGaussPtsWts lagrangeSFKnotsDeriv
      jacobian2d q time res Xpts' vars dvars ddvars
  /\ PoissonQuad.addJacobian order getGaussPtsWts lagrangeSFKnotsDeriv
       jacobian2d q time mat alpha beta gamma Xpts vars dvars ddvars
     = PoissonQuad.addJacobian order getGaussPtsWts lagrangeSFKnotsDeriv
         jacobian2d q time mat alpha beta gamma Xpts' vars dvars ddvars
  /\ PoissonQuad.addLocalizedError order getGaussPtsWts lagrangeSFKnotsDeriv
       jacobian2d q time err adjoint Xpts vars
     = PoissonQuad.addLocalizedError order getGaussPtsWts
         lagrangeSFKnotsDeriv jacobian2d q time err adjoint Xpts' vars
  /\ PoissonQuad.getDetJacobian order lagrangeSFKnotsDeriv q pt Xpts
     = PoissonQuad.getDetJacobian order lagrangeSFKnotsDeriv q pt Xpts'.
Proof.
  assert (E : forall Na Nb,
    PoissonQuad.getJacobianTransform order Na Nb Xpts
      = PoissonQuad.getJacobianTransform order Na Nb Xpts')
    by (intros; now apply getJacobianTransform_xy).
  repeat split.
  - unfold PoissonQuad.addResidual.
    destruct (getGaussPtsWts order) as [pts wts].
    apply for_loop_ext; intros m st _. apply for_loop_ext; intros n st' _.
    destruct (PoissonQuad.getShapeFunctionsDeriv order lagrangeSFKnotsDeriv
                q [get pts n; get pts m]) as [[N Na] Nb].
    now rewrite E.
  - unfold PoissonQuad.addJacobian.
    destruct (getGaussPtsWts order) as [pts wts].
    apply for_loop_ext; intros m st _. apply for_loop_ext; intros n st' _.
    destruct (PoissonQuad.getShapeFunctionsDeriv order lagrangeSFKnotsDeriv
                q [get pts n; get pts m]) as [[N Na] Nb].
    now rewrite E.
  - unfold PoissonQuad.addLocalizedError.
    destruct (getGaussPtsWts order) as [pts wts].
    apply for_loop_ext; intros m st _. apply for_loop_ext; intros n st' _.
    destruct (PoissonQuad.getShapeFunctionsDeriv order lagrangeSFKnotsDeriv
                q [get pts n; get pts m]) as [[N Na] Nb].
    now rewrite E.
  - unfold PoissonQuad.getDetJacobian.
    destruct (PoissonQuad.getShapeFunctionsDeriv order lagrangeSFKnotsDeriv
                q pt) as [[N Na] Nb].
    now rewrite E.
Qed.

Lemma kernels_ignore_third_coordinate_witness :
  PoissonQuad.getDetJacobian 2 FElibrary.lagrangeSFKnotsDeriv
    (PoissonQuad.PoissonQuad 2 [1; 1; 1; 1]) [0; 0]
    [0; 0; 0; 1; 0; 0; 0; 1; 0; 1; 1; 0]
  = PoissonQuad.getDetJacobian 2 FElibrary.lagrangeSFKnotsDeriv
      (PoissonQuad.PoissonQuad 2 [1; 1; 1; 1]) [0; 0]
      [0; 0; 7; 1; 0; 8; 0; 1; 9; 1; 1; 10].
Proof.
  assert (Hxy : forall i, (i < 2 * 2)%nat ->
    get [0; 0; 0; 1; 0; 0; 0; 1; 0; 1; 1; 0] (3 * i)
      = get [0; 0; 7; 1; 0; 8; 0; 1; 9; 1; 1; 10] (3 * i)
    /\ get [0; 0; 0; 1; 0; 0; 0; 1; 0; 1; 1; 0] (3 * i + 1)
       = get [0; 0; 7; 1; 0; 8; 0; 1; 9; 1; 1; 10] (3 * i + 1)).
  { intros [|[|[|[|i]]]] Hi; try lia; split; reflexivity. }
  apply (@kernels_ignore_third_coordinate 2 (fun _ => ([], []))
           FElibrary.lagrangeSFKnotsDeriv FElibrary.jacobian2d
           (PoissonQuad.PoissonQuad 2 [1; 1; 1; 1]) 0 0 0 0
           [] [] [] [] [0; 0] _ _ [] [] [] Hxy).
Defined.

(** ** The knots of the constructor *)

Lemma cos_spacing_increasing (o i j : nat) :
  (i < j)%nat -> (j <= o)%nat ->
  - cos (PI * INR i / INR o) < - cos (PI * INR j / INR o).
Proof.
  intros Hij Hj.
  assert (Hpos : 0 < INR o) by (apply lt_0_INR; lia).
  assert (Hi : 0 <= INR i) by apply pos_INR.
  assert (Hlt : INR i < INR j) by (apply lt_INR; exact Hij).
  assert (Hle : INR j <= INR o) by (apply le_INR; lia).
  pose proof PI_RGT_0 as Hpi.
  assert (Hinv : 0 < / INR o) by (apply Rinv_0_lt_compat; exact Hpos).
  assert (E : forall x, PI * x / INR o = PI * (x * / INR o))
    by (intros; unfold Rdiv; ring).
  rewrite !E.
  assert (A0 : 0 <= INR i * / INR o) by (apply Rmult_le_pos; lra).
  assert (A1 : INR i * / INR o < INR j * / INR o)
    by (apply Rmult_lt_compat_r; assumption).
  assert (A2 : INR j * / INR o <= 1).
  { rewrite <- (Rinv_r (INR o)) by lra. apply Rmult_le_compat_r; lra. }
  assert (C : cos (PI * (INR j * / INR o)) < cos (PI * (INR i * / INR o))).
  { apply cos_decreasing_1; nra. }
  lra.
Qed.

Lemma cos_spacing_symmetric (o i : nat) :
  (1 <= o)%nat -> (i <= o)%nat ->
  - cos (PI * INR (o - i) / INR o) = - - cos (PI * INR i / INR o).
Proof.
  intros Ho Hi.
  assert (Hpos : 0 < INR o) by (apply lt_0_INR; lia).
  rewrite minus_INR by exact Hi.
  replace (PI * (INR o - INR i) / INR o)
    with (- (PI * INR i / INR o) + PI) by (field; lra).
  rewrite neg_cos, cos_neg. reflexivity.
Qed.

Lemma knots_get (order : nat) (_f : list R) (i : nat) :
  (2 <= order)%nat -> (i < order)%nat ->
  get (PoissonQuad.knots (PoissonQuad.PoissonQuad order _f)) i
    = - cos (PI * INR i / INR (order - 1)).
Proof.
  intros Hord Hi. unfold PoissonQuad.PoissonQuad; cbn [PoissonQuad.knots].
  assert (H0 : cos (PI * 0 / 1) = 1).
  { replace (PI * 0 / 1) with 0 by field. apply cos_0. }
  assert (H1 : cos (PI * 1 / 1) = -1).
  { replace (PI * 1 / 1) with PI by field. apply cos_PI. }
  assert (H2 : cos (PI * 1 / 2) = 0).
  { replace (PI * 1 / 2) with (PI / 2) by field. apply cos_PI2. }
  assert (H3 : cos (PI * 2 / 2) = -1).
  { replace (PI * 2 / 2) with PI by field. apply cos_PI. }
  assert (H4 : cos (PI * 0 / 2) = 1).
  { replace (PI * 0 / 2) with 0 by field. apply cos_0. }
  destruct (Nat.eqb_spec order 2) as [->|N2].
  { destruct i as [|[|i]]; try lia; unfold get; simpl; lra. }
  destruct (Nat.eqb_spec order 3) as [->|N3].
  { destruct i as [|[|[|i]]]; try lia; unfold get; simpl;
      rewrite ?Rplus_0_l; try replace (1 + 1) with 2 by ring; lra. }
  now rewrite get_map_seq.
Qed.

Lemma knots_first (order : nat) (_f : list R) :
  (2 <= order)%nat ->
  get (PoissonQuad.knots (PoissonQuad.PoissonQuad order _f)) 0 = -1.
Proof.
  intros Hord. rewrite knots_get by lia. simpl INR.
  replace (PI * 0 / INR (order - 1)) with 0 by (unfold Rdiv; ring).
  rewrite cos_0. reflexivity.
Qed.

Lemma knots_last (order : nat) (_f : list R) :
  (2 <= order)%nat ->
  get (PoissonQuad.knots (PoissonQuad.PoissonQuad order _f)) (order - 1) = 1.
Proof.
  intros Hord. rewrite knots_get by lia.
  assert (Hpos : 0 < INR (order - 1)) by (apply lt_0_INR; lia).
  replace (PI * INR (order - 1) / INR (order - 1)) with PI by (field; lra).
  rewrite cos_PI. ring.
Qed.

(** X7: the constructor copies the first [order*order] entries of the
    source and, for order 2 and more, sets [order] knots that rise
    strictly from [-1] at index 0 to [1] at index [order-1] and are
    symmetric about 0: all three branches (order 2, order 3, cosine
    spacing) give [knots[k] = -cos(pi k / (order-1))]. *)
Theorem PoissonQuad_knots
    (order : nat) (_f : list R) (Hord : (2 <= order)%nat) :
  let q := PoissonQuad.PoissonQuad order _f in
  let k := PoissonQuad.knots q in
  length (PoissonQuad.f q) = (order * order)%nat
  /\ (forall i, (i < order * order)%nat ->
        get (PoissonQuad.f q) i = get _f i)
  /\ length k = order
  /\ (forall i, (i < order)%nat ->
        get k i = - cos (PI * INR i / INR (order - 1)))
  /\ get k 0 = -1
  /\ get k (order - 1) = 1
  /\ (forall i j, (i < j)%nat -> (j < order)%nat -> get k i < get k j)
  /\ (forall i, (i < order)%nat -> get k (order - 1 - i) = - get k i).
Proof.
  intros q k. subst k q.
  split; [cbn; now rewrite length_map, length_seq|].
  split; [intros i Hi; cbn [PoissonQuad.f PoissonQuad.PoissonQuad];
          now rewrite get_map_seq|].
  split.
  { unfold PoissonQuad.PoissonQuad; cbn [PoissonQuad.knots].
    destruct (Nat.eqb_spec order 2) as [->|N2]; [reflexivity|].
    destruct (Nat.eqb_spec order 3) as [->|N3]; [reflexivity|].
    now rewrite length_map, length_seq. }
  split; [intros i Hi; now apply knots_get|].
  split; [now apply knots_first|].
  split; [now apply knots_last|].
  split.
  - intros i j Hij Hj. rewrite !knots_get by lia.
    apply cos_spacing_increasing; lia.
  - intros i Hi. rewrite !knots_get by lia.
    rewrite cos_spacing_symmetric by lia. reflexivity.
Qed.

Lemma PoissonQuad_knots_witness :
  get (PoissonQuad.knots (PoissonQuad.PoissonQuad 5 [])) 1
    < get (PoissonQuad.knots (PoissonQuad.PoissonQuad 5 [])) 3.
Proof.
  assert (Hord : (2 <= 5)%nat) by lia.
  destruct (@PoissonQuad_knots 5 [] Hord) as (_ & _ & _ & _ & _ & _ & H & _).
  apply H; lia.
Defined.

(** X8: the weights [Nerr] are the bilinear basis of the four corner
    nodes.  On the reference square each weight lies between 0 and 1,
    and at the parametric location [(knots[n], knots[m])] of a corner
    node the weight of that corner is 1 and the other three are 0, the
    corners being taken in the order of the entries [0], [order-1],
    [order*(order-1)], [order*order-1] that [addLocalizedError]
    updates. *)
Theorem Nerr_corner_basis
    (order : nat) (_f : list R) (Hord : (2 <= order)%nat) :
  let k := PoissonQuad.knots (PoissonQuad.PoissonQuad order _f) in
  let node n m := [get k n; get k m] in
  (forall pt c, -1 <= get pt 0 <= 1 -> -1 <= get pt 1 <= 1 -> (c < 4)%nat ->
     0 <= get (PoissonQuad.Nerr pt) c <= 1)
  /\ PoissonQuad.Nerr (node 0%nat 0%nat) = [1; 0; 0; 0]
  /\ PoissonQuad.Nerr (node (order - 1)%nat 0%nat) = [0; 1; 0; 0]
  /\ PoissonQuad.Nerr (node 0%nat (order - 1)%nat) = [0; 0; 1; 0]
  /\ PoissonQuad.Nerr (node (order - 1)%nat (order - 1)%nat) = [0; 0; 0; 1].
Proof.
  intros k node. unfold node, k.
  split.
  { intros pt c H0 H1 Hc. unfold PoissonQuad.Nerr.
    generalize dependent (get pt 0). generalize dependent (get pt 1).
    intros b Hb a Ha. rewrite quarter_eq.
    destruct c as [|[|[|[|c]]]]; try lia; unfold get; cbn [nth]; nra. }
  assert (L : forall a b c d a' b' c' d' : R,
             a = a' -> b = b' -> c = c' -> d = d' ->
             [a; b; c; d] = [a'; b'; c'; d']) by (intros; subst; reflexivity).
  assert (E : forall a b,
    PoissonQuad.Nerr [a; b]
      = [ / 4 * (1 - a) * (1 - b); / 4 * (1 + a) * (1 - b);
          / 4 * (1 - a) * (1 + b); / 4 * (1 + a) * (1 + b) ]).
  { intros a b. unfold PoissonQuad.Nerr, get; cbn [nth].
    now rewrite quarter_eq. }
  rewrite !E, !knots_first, !knots_last by exact Hord.
  repeat split; apply L; field.
Qed.

Lemma Nerr_corner_basis_witness :
  PoissonQuad.Nerr
    [get (PoissonQuad.knots (PoissonQuad.PoissonQuad 4 [])) (4 - 1);
     get (PoissonQuad.knots (PoissonQuad.PoissonQuad 4 [])) 0]
  = [0; 1; 0; 0].
Proof.
  assert (Hord : (2 <= 4)%nat) by lia.
  destruct (@Nerr_corner_basis 4 [] Hord) as (_ & _ & H & _).
  exact H.
Defined.

(** * Further properties of the beam constitutive object *)

Lemma memcpy_full (dst src : list R) (n : nat) :
  length dst = n -> length src = n ->
  TACSBeamConstitutive.memcpy dst src n = src.
Proof.
  intros Hd Hs. destruct (memcpy_spec dst src n) as [Hl Hg].
  apply list_eq_get; [congruence|]. intros i. rewrite Hg, Hd.
  destruct (Nat.ltb_spec i n) as [Hi|Hi]; [reflexivity|].
  simpl. rewrite !get_overflow by lia. reflexivity.
Qed.

Lemma write3_full (a v : list R) :
  length a = 3%nat -> length v = 3%nat ->
  write (write (write a 0 (get v 0)) 1 (get v 1)) 2 (get v 2) = v.
Proof.
  intros Ha Hv.
  destruct a as [|a0 [|a1 [|a2 [|a3 a]]]]; try discriminate.
  destruct v as [|v0 [|v1 [|v2 [|v3 v]]]]; try discriminate.
  reflexivity.
Qed.

Lemma unitAxis_length (axs : list R) : length (unitAxis axs) = 3%nat.
Proof. reflexivity. Qed.

(** X9: what [setProperties] stores, [getProperties] returns: after
    setting a density array of 4 entries, a stiffness array of 21 entries
    and an axis, a query into buffers of these sizes returns the two
    arrays as given and the axis divided by its length.  A null argument
    of [setProperties] leaves its member alone, and a null argument of
    [getProperties] is not written. *)
Theorem setProperties_getProperties
    (self : TACSBeamConstitutive.t) (rho0 C0 axs r c a : list R)
    (Hself : TACSBeamConstitutive.sized self)
    (Hrho0 : length rho0 = 4%nat)
    (HC0 : length C0 = TACSBeamConstitutive.NUM_TANGENT_STIFFNESS_ENTRIES)
    (Hr : length r = 4%nat)
    (Hc : length c = TACSBeamConstitutive.NUM_TANGENT_STIFFNESS_ENTRIES)
    (Ha : length a = 3%nat) :
  let stored :=
    TACSBeamConstitutive.setProperties self (Some rho0) (Some C0)
      (Some axs) in
  TACSBeamConstitutive.getProperties stored (Some r) (Some c) (Some a)
    = (Some rho0, Some C0, Some (unitAxis axs))
  /\ TACSBeamConstitutive.sized stored
  /\ TACSBeamConstitutive.setProperties self None None None = self
  /\ (let o := TACSBeamConstitutive.setProperties self None None (Some axs) in
      TACSBeamConstitutive.rho o = TACSBeamConstitutive.rho self
      /\ TACSBeamConstitutive.C o = TACSBeamConstitutive.C self)
  /\ (let o := TACSBeamConstitutive.setProperties self (Some rho0) (Some C0)
                 None in
      TACSBeamConstitutive.axis o = TACSBeamConstitutive.axis self)
  /\ TACSBeamConstitutive.getProperties stored None None None
     = (None, None, None).
Proof.
  intros stored. destruct Hself as (HC & Hrho & Hax).
  assert (E : stored = TACSBeamConstitutive.mk C0 rho0 (unitAxis axs)).
  { unfold stored, TACSBeamConstitutive.setProperties.
    rewrite setAxis_spec by exact Hax.
    now rewrite !memcpy_full by assumption. }
  split.
  { rewrite E. unfold TACSBeamConstitutive.getProperties.
    cbn [TACSBeamConstitutive.C TACSBeamConstitutive.rho
         TACSBeamConstitutive.axis].
    rewrite !memcpy_full by assumption.
    now rewrite (write3_full a (unitAxis axs) Ha (unitAxis_length axs)). }
  split; [rewrite E; repeat split; assumption|].
  split; [destruct self; reflexivity|].
  repeat split; reflexivity.
Qed.

Lemma setProperties_getProperties_witness :
  let self :=
    TACSBeamConstitutive.mk (repeat 0 21) (repeat 0 4) (repeat 0 3) in
  TACSBeamConstitutive.getProperties
    (TACSBeamConstitutive.setProperties self (Some [1; 2; 3; 4])
       (Some (repeat 5 21)) (Some [0; 3; 4]))
    (Some (repeat 0 4)) (Some (repeat 0 21)) (Some (repeat 0 3))
  = (Some [1; 2; 3; 4], Some (repeat 5 21), Some (unitAxis [0; 3; 4])).
Proof.
  intros self.
  assert (Hself : TACSBeamConstitutive.sized self)
    by (repeat split; reflexivity).
  apply (@setProperties_getProperties self [1; 2; 3; 4] (repeat 5 21)
           [0; 3; 4] (repeat 0 4) (repeat 0 21) (repeat 0 3) Hself
           eq_refl eq_refl eq_refl eq_refl eq_refl).
Defined.

Lemma unitAxis_of_unit (a : list R) :
  length a = 3%nat -> norm2 a = 1 -> unitAxis a = a.
Proof.
  intros Ha Hn. unfold unitAxis. rewrite Hn, sqrt_1.
  destruct a as [|a0 [|a1 [|a2 [|a3 a]]]]; try discriminate.
  unfold get; cbn [nth]. unfold Rdiv. now rewrite Rinv_1, !Rmult_1_r.
Qed.

(** X10: properties move from one object to another unchanged.  When the
    axis of [self] is a unit vector, as it is after construction from a
    non-zero axis, querying [self] with [getProperties] and handing the
    three arrays to [setProperties] of any other object of the same
    sizes makes that object equal to [self]: normalizing the axis again
    does not change it. *)
Theorem getProperties_setProperties
    (self other : TACSBeamConstitutive.t) (r c a : list R)
    (Hself : TACSBeamConstitutive.sized self)
    (Hother : TACSBeamConstitutive.sized other)
    (Hunit : norm2 (TACSBeamConstitutive.axis self) = 1)
    (Hr : length r = 4%nat)
    (Hc : length c = TACSBeamConstitutive.NUM_TANGENT_STIFFNESS_ENTRIES)
    (Ha : length a = 3%nat) :
  let out := TACSBeamConstitutive.getProperties self (Some r) (Some c)
               (Some a) in
  TACSBeamConstitutive.setProperties other (fst (fst out)) (snd (fst out))
    (snd out) = self
  /\ TACSBeamConstitutive.setProperties self None None
       (Some (TACSBeamConstitutive.axis self)) = self.
Proof.
  intros out. destruct Hself as (HC & Hrho & Hax).
  destruct Hother as (HC' & Hrho' & Hax').
  unfold out, TACSBeamConstitutive.getProperties. cbn [fst snd].
  rewrite !memcpy_full by assumption.
  rewrite (write3_full a (TACSBeamConstitutive.axis self) Ha Hax).
  unfold TACSBeamConstitutive.setProperties.
  rewrite !setAxis_spec by assumption.
  rewrite !memcpy_full by assumption.
  rewrite unitAxis_of_unit by assumption.
  destruct self; split; reflexivity.
Qed.

Lemma getProperties_setProperties_witness :
  let self :=
    TACSBeamConstitutive.mk (repeat 7 21) [1; 2; 3; 4] [0; 1; 0] in
  let other :=
    TACSBeamConstitutive.mk (repeat 0 21) (repeat 0 4) (repeat 0 3) in
  let out := TACSBeamConstitutive.getProperties self (Some (repeat 0 4))
               (Some (repeat 0 21)) (Some (repeat 0 3)) in
  TACSBeamConstitutive.setProperties other (fst (fst out)) (snd (fst out))
    (snd out) = self.
Proof.
  intros self other out.
  assert (Hself : TACSBeamConstitutive.sized self)
    by (repeat split; reflexivity).
  assert (Hother : TACSBeamConstitutive.sized other)
    by (repeat split; reflexivity).
  assert (Hunit : norm2 (TACSBeamConstitutive.axis self) = 1)
    by (unfold norm2, get; simpl; ring).
  apply (@getProperties_setProperties self other (repeat 0 4) (repeat 0 21)
           (repeat 0 3) Hself Hother Hunit eq_refl eq_refl eq_refl).
Defined.

(** X11: the stored axis depends on the direction of the argument only:
    scaling the argument by a positive factor gives the same object, in
    each of the three constructors and in [setProperties]. *)
Theorem axis_scale_invariant
    (self : TACSBeamConstitutive.t) (axs : list R) (s : R)
    (rho0 C0 : option (list R))
    (EA EI22 EI33 EI23 GJ kG22 kG33 kG23 m00 m11 m22 m33
     xm2 xm3 xc2 xc3 xk2 xk3 muS : R)
    (rhoA rhoIy rhoIz rhoIyz EIy EIz kGAy kGAz : R)
    (Hself : TACSBeamConstitutive.sized self)
    (Hs : 0 < s) :
  let scaled := [s * get axs 0; s * get axs 1; s * get axs 2] in
  TACSBeamConstitutive.axis
    (TACSBeamConstitutive.setProperties self rho0 C0 (Some scaled))
  = TACSBeamConstitutive.axis
      (TACSBeamConstitutive.setProperties self rho0 C0 (Some axs))
  /\ TACSBeamConstitutive.setAxis (TACSBeamConstitutive.axis self) scaled
     = TACSBeamConstitutive.setAxis (TACSBeamConstitutive.axis self) axs
  /\ TACSBeamConstitutive.TACSBeamConstitutive_1 self scaled
       EA EI22 EI33 EI23 GJ kG22 kG33 kG23 m00 m11 m22 m33
       xm2 xm3 xc2 xc3 xk2 xk3 muS
     = TACSBeamConstitutive.TACSBeamConstitutive_1 self axs
         EA EI22 EI33 EI23 GJ kG22 kG33 kG23 m00 m11 m22 m33
         xm2 xm3 xc2 xc3 xk2 xk3 muS
  /\ TACSBeamConstitutive.TACSBeamConstitutive_2 self
       rhoA rhoIy rhoIz rhoIyz EA GJ EIy EIz kGAy kGAz scaled
     = TACSBeamConstitutive.TACSBeamConstitutive_2 self
         rhoA rhoIy rhoIz rhoIyz EA GJ EIy EIz kGAy kGAz axs
  /\ TACSBeamConstitutive.TACSBeamConstitutive_3 self rho0 C0 (Some scaled)
     = TACSBeamConstitutive.TACSBeamConstitutive_3 self rho0 C0 (Some axs).
Proof.
  intros scaled. destruct Hself as (_ & _ & Hax).
  assert (E : TACSBeamConstitutive.setAxis (TACSBeamConstitutive.axis self)
                scaled
              = TACSBeamConstitutive.setAxis (TACSBeamConstitutive.axis self)
                  axs).
  { rewrite !setAxis_spec by exact Hax.
    assert (Hn : norm2 scaled = (s * s) * norm2 axs)
      by (unfold norm2, scaled, get; cbn [nth]; ring).
    assert (Hpos : 0 <= norm2 axs) by (unfold norm2; nra).
    assert (Hsq : sqrt (norm2 scaled) = s * sqrt (norm2 axs)).
    { rewrite Hn, sqrt_mult by nra. now rewrite sqrt_square by lra. }
    unfold unitAxis. rewrite Hsq.
    change (get scaled 0) with (s * get axs 0).
    change (get scaled 1) with (s * get axs 1).
    change (get scaled 2) with (s * get axs 2).
    destruct (Req_dec (sqrt (norm2 axs)) 0) as [Z|NZ].
    - assert (N0 : norm2 axs = 0).
      { rewrite <- (sqrt_sqrt (norm2 axs)) by exact Hpos. rewrite Z. ring. }
      assert (get axs 0 = 0 /\ get axs 1 = 0 /\ get axs 2 = 0) as (-> & -> & ->)
        by (unfold norm2 in N0; repeat split; nra).
      unfold Rdiv. now rewrite !Rmult_0_r, !Rmult_0_l.
    - assert (L : forall x y z x' y' z' : R,
                 x = x' -> y = y' -> z = z' -> [x; y; z] = [x'; y'; z'])
        by (intros; subst; reflexivity).
      apply L; field; split; lra. }
  unfold TACSBeamConstitutive.TACSBeamConstitutive_1,
    TACSBeamConstitutive.TACSBeamConstitutive_2,
    TACSBeamConstitutive.TACSBeamConstitutive_3,
    TACSBeamConstitutive.setProperties.
  cbn [TACSBeamConstitutive.axis]. rewrite E.
  repeat split; reflexivity.
Qed.

Lemma axis_scale_invariant_witness :
  let self :=
    TACSBeamConstitutive.mk (repeat 0 21) (repeat 0 4) (repeat 0 3) in
  TACSBeamConstitutive.setAxis (TACSBeamConstitutive.axis self)
    [5 * get [1; 2; 2] 0; 5 * get [1; 2; 2] 1; 5 * get [1; 2; 2] 2]
  = TACSBeamConstitutive.setAxis (TACSBeamConstitutive.axis self) [1; 2; 2].
Proof.
  intros self.
  assert (Hself : TACSBeamConstitutive.sized self)
    by (repeat split; reflexivity).
  assert (Hs : 0 < 5) by lra.
  destruct (@axis_scale_invariant self [1; 2; 2] 5 None None
              1 1 1 0 1 1 1 0 1 1 1 1 0 0 0 0 0 0 0
              1 1 1 0 1 1 1 1 Hself Hs) as (_ & H & _).
  exact H.
Defined.

(** ** The stiffness the constructors assemble *)

Lemma memset0_full (dst : list R) (n : nat) :
  length dst = n -> TACSBeamConstitutive.memset0 dst n = repeat 0 n.
Proof.
  intros Hd. unfold TACSBeamConstitutive.memset0.
  assert (G : forall t, (t <= n)%nat ->
    length (for_loop t (fun i d => write d i 0) dst) = n
    /\ forall i, get (for_loop t (fun i d => write d i 0) dst) i
                 = if (i <? t)%nat then 0 else get dst i).
  { induction t as [|t IH]; intros Ht.
    - rewrite for_loop_0. split; [exact Hd | reflexivity].
    - destruct (IH ltac:(lia)) as [IHl IHg]. rewrite for_loop_S.
      split; [now rewrite write_length|]. intros i.
      destruct (Nat.eq_dec t i) as [->|N].
      + rewrite get_write_same by lia.
        now replace (i <? S i)%nat with true
          by (symmetry; apply Nat.ltb_lt; lia).
      + rewrite get_write_other, IHg by exact N.
        destruct (Nat.ltb_spec i t), (Nat.ltb_spec i (S t)); try lia;
          reflexivity. }
  destruct (G n (Nat.le_refl n)) as [Hl Hg].
  apply list_eq_get; [now rewrite repeat_length|].
  intros i. rewrite Hg, get_repeat_0.
  destruct (Nat.ltb_spec i n); [reflexivity|].
  apply get_overflow. lia.
Qed.

Lemma energyForm_packed (Ct e : list R) :
  energyForm Ct e
  = get Ct 0 * get e 0 * get e 0 + get Ct 6 * get e 1 * get e 1
    + get Ct 11 * get e 2 * get e 2 + get Ct 15 * get e 3 * get e 3
    + get Ct 18 * get e 4 * get e 4 + get Ct 20 * get e 5 * get e 5
    + 2 * (get Ct 1 * get e 0 * get e 1 + get Ct 2 * get e 0 * get e 2
           + get Ct 3 * get e 0 * get e 3 + get Ct 4 * get e 0 * get e 4
           + get Ct 5 * get e 0 * get e 5 + get Ct 7 * get e 1 * get e 2
           + get Ct 8 * get e 1 * get e 3 + get Ct 9 * get e 1 * get e 4
           + get Ct 10 * get e 1 * get e 5 + get Ct 12 * get e 2 * get e 3
           + get Ct 13 * get e 2 * get e 4 + get Ct 14 * get e 2 * get e 5
           + get Ct 16 * get e 3 * get e 4 + get Ct 17 * get e 3 * get e 5
           + get Ct 19 * get e 4 * get e 5).
Proof.
  unfold energyForm, sym6, tri6. cbn [Rsum Nat.min Nat.max nth Nat.sub Nat.add].
  ring.
Qed.

Lemma quadratic2_nonneg (a b c x y : R) :
  0 <= a -> 0 <= c -> b * b <= a * c ->
  0 <= a * x * x - 2 * b * x * y + c * y * y.
Proof.
  intros Ha Hc Hb.
  destruct (Req_dec a 0) as [->|Na].
  - assert (Hb0 : b = 0).
    { destruct (Req_dec b 0) as [E|N]; [exact E|].
      pose proof (Rsqr_pos_lt b N) as P. unfold Rsqr in P. lra. }
    subst b.
    pose proof (Rmult_le_pos _ _ Hc (Rle_0_sqr y)) as P. unfold Rsqr in P.
    lra.
  - assert (0 <= a * (a * x * x - 2 * b * x * y + c * y * y)).
    { replace (a * (a * x * x - 2 * b * x * y + c * y * y))
        with (Rsqr (a * x - b * y) + (a * c - b * b) * Rsqr y)
        by (unfold Rsqr; ring).
      apply Rplus_le_le_0_compat; [apply Rle_0_sqr|].
      apply Rmult_le_pos; [lra | apply Rle_0_sqr]. }
    assert (0 < a) by lra.
    apply (Rmult_le_reg_l a); [assumption | lra].
Qed.

Lemma list_R_cons_eq (x x' : R) (l l' : list R) :
  x = x' -> l = l' -> x :: l = x' :: l'.
Proof. intros -> ->. reflexivity. Qed.

Ltac list_R_eq := repeat (apply list_R_cons_eq; [try ring|]); try reflexivity.

Lemma rho_written (r : list R) (a b c d : R) :
  length r = 4%nat ->
  write (write (write (write r 0 a) 1 b) 2 c) 3 d = [a; b; c; d].
Proof.
  intros H. destruct r as [|r0 [|r1 [|r2 [|r3 [|r4 r]]]]]; try discriminate.
  reflexivity.
Qed.

(** The stiffness array the Timoshenko constructor leaves. *)
Lemma Timoshenko_C (fresh : TACSBeamConstitutive.t) (axs : list R)
    (EA EI22 EI33 EI23 GJ kG22 kG33 kG23 m00 m11 m22 m33
     xm2 xm3 xc2 xc3 xk2 xk3 muS : R) :
  TACSBeamConstitutive.sized fresh ->
  TACSBeamConstitutive.C
    (TACSBeamConstitutive.TACSBeamConstitutive_1 fresh axs
       EA EI22 EI33 EI23 GJ kG22 kG33 kG23 m00 m11 m22 m33
       xm2 xm3 xc2 xc3 xk2 xk3 muS)
  = [ EA; 0; xc3 * EA; - xc2 * EA; 0; 0;
      GJ + xk2 * xk2 * kG33 + xk3 * xk3 * kG22 + 2 * xk2 * xk3 * kG23;
      0; 0; - xk2 * kG23 - xk3 * kG22; xk2 * kG33 + xk3 * kG23;
      EI22 + xc3 * xc3 * EA; - (EI23 + xc2 * xc3 * EA); 0; 0;
      EI33 + xc2 * xc2 * EA; 0; 0;
      kG22; - kG23;
      kG33 ].
Proof.
  intros (HC & _ & _).
  unfold TACSBeamConstitutive.TACSBeamConstitutive_1.
  cbn [TACSBeamConstitutive.C].
  rewrite (@memset0_full _ _ HC). reflexivity.
Qed.

(** The stiffness array the diagonal constructor leaves. *)
Lemma diagonal_C (fresh : TACSBeamConstitutive.t)
    (rhoA rhoIy rhoIz rhoIyz EA GJ EIy EIz kGAy kGAz : R) (axs : list R) :
  TACSBeamConstitutive.sized fresh ->
  TACSBeamConstitutive.C
    (TACSBeamConstitutive.TACSBeamConstitutive_2 fresh
       rhoA rhoIy rhoIz rhoIyz EA GJ EIy EIz kGAy kGAz axs)
  = [ EA; 0; 0; 0; 0; 0;
      GJ; 0; 0; 0; 0;
      EIy; 0; 0; 0;
      EIz; 0; 0;
      kGAy; 0;
      kGAz ].
Proof.
  intros (HC & _ & _).
  unfold TACSBeamConstitutive.TACSBeamConstitutive_2.
  cbn [TACSBeamConstitutive.C].
  rewrite (@memset0_full _ _ HC). reflexivity.
Qed.

(** X12: the constructor for the diagonal components builds the object
    the Timoshenko constructor builds when the centroid and the shear
    centre lie on the reference axis and the coupling stiffnesses [EI23]
    and [kG23] vanish, with [rhoIyz = rhoA*xm2*xm3]; the stiffness it
    stores is diagonal, with [EA, GJ, EIy, EIz, kGAy, kGAz] on the
    diagonal, [evalTangentStiffness] hands out that array and
    [evalDensity] returns [rhoA]. *)
Theorem diagonal_constructor_stiffness
    (fresh : TACSBeamConstitutive.t) (axs : list R)
    (rhoA rhoIy rhoIz rhoIyz EA GJ EIy EIz kGAy kGAz : R)
    (m33 xm2 xm3 muS : R)
    (Hfresh : TACSBeamConstitutive.sized fresh) :
  let o := TACSBeamConstitutive.TACSBeamConstitutive_2 fresh
             rhoA rhoIy rhoIz rhoIyz EA GJ EIy EIz kGAy kGAz axs in
  (forall i j, (i < 6)%nat -> (j < 6)%nat ->
     sym6 (TACSBeamConstitutive.C o) i j
     = if (i =? j)%nat then get [EA; GJ; EIy; EIz; kGAy; kGAz] i else 0)
  /\ TACSBeamConstitutive.rho o = [rhoA; rhoIy; rhoIz; rhoIyz]
  /\ TACSBeamConstitutive.sized o
  /\ (forall elemIndex pt X,
        TACSBeamConstitutive.evalDensity o elemIndex pt X = rhoA)
  /\ (forall elemIndex pt X C0,
        length C0 = TACSBeamConstitutive.NUM_TANGENT_STIFFNESS_ENTRIES ->
        TACSBeamConstitutive.evalTangentStiffness o elemIndex pt X C0
        = TACSBeamConstitutive.C o)
  /\ TACSBeamConstitutive.TACSBeamConstitutive_1 fresh axs
       EA EIy EIz 0 GJ kGAy kGAz 0 rhoA rhoIy rhoIz m33
       xm2 xm3 0 0 0 0 muS
     = TACSBeamConstitutive.TACSBeamConstitutive_2 fresh
         rhoA rhoIy rhoIz (rhoA * xm2 * xm3) EA GJ EIy EIz kGAy kGAz axs.
Proof.
  intros o.
  assert (HC : TACSBeamConstitutive.C o
               = [ EA; 0; 0; 0; 0; 0; GJ; 0; 0; 0; 0; EIy; 0; 0; 0;
                   EIz; 0; 0; kGAy; 0; kGAz ])
    by (apply diagonal_C; exact Hfresh).
  assert (Hrho : TACSBeamConstitutive.rho o = [rhoA; rhoIy; rhoIz; rhoIyz]).
  { destruct Hfresh as (_ & Hr & _). subst o.
    unfold TACSBeamConstitutive.TACSBeamConstitutive_2.
    cbn [TACSBeamConstitutive.rho]. now apply rho_written. }
  split; [|split; [|split; [|split; [|split]]]].
  - intros i j Hi Hj. unfold sym6. rewrite HC.
    do 6 (destruct i as [|i]; [do 6 (destruct j as [|j]; [reflexivity|]); lia|]).
    lia.
  - exact Hrho.
  - destruct Hfresh as (_ & _ & Ha). unfold TACSBeamConstitutive.sized.
    rewrite HC, Hrho. split; [reflexivity|]. split; [reflexivity|].
    subst o. unfold TACSBeamConstitutive.TACSBeamConstitutive_2.
    cbn [TACSBeamConstitutive.axis].
    rewrite (@setAxis_spec _ axs Ha). reflexivity.
  - intros. unfold TACSBeamConstitutive.evalDensity. now rewrite Hrho.
  - intros elemIndex pt X C0 HC0.
    unfold TACSBeamConstitutive.evalTangentStiffness.
    apply memcpy_full; [exact HC0 | now rewrite HC].
  - pose proof (@Timoshenko_C fresh axs EA EIy EIz 0 GJ kGAy kGAz 0
                  rhoA rhoIy rhoIz m33 xm2 xm3 0 0 0 0 muS Hfresh) as H1.
    pose proof (@diagonal_C fresh rhoA rhoIy rhoIz (rhoA * xm2 * xm3)
                  EA GJ EIy EIz kGAy kGAz axs Hfresh) as H2.
    unfold TACSBeamConstitutive.TACSBeamConstitutive_1,
      TACSBeamConstitutive.TACSBeamConstitutive_2 in *.
    cbn [TACSBeamConstitutive.C] in H1, H2.
    f_equal.
    rewrite H1, H2. list_R_eq.
Qed.

Lemma diagonal_constructor_stiffness_witness :
  TACSBeamConstitutive.rho
    (TACSBeamConstitutive.TACSBeamConstitutive_2
       (TACSBeamConstitutive.mk (repeat 7 21) (repeat 7 4) (repeat 7 3))
       2 3 4 5 10 20 30 40 50 60 [0; 3; 4])
  = [2; 3; 4; 5].
Proof.
  assert (Hfresh : TACSBeamConstitutive.sized
            (TACSBeamConstitutive.mk (repeat 7 21) (repeat 7 4) (repeat 7 3)))
    by (repeat split; reflexivity).
  destruct (@diagonal_constructor_stiffness
              (TACSBeamConstitutive.mk (repeat 7 21) (repeat 7 4) (repeat 7 3))
              [0; 3; 4] 2 3 4 5 10 20 30 40 50 60 0 0 0 0 Hfresh)
    as (_ & H & _).
  exact H.
Defined.

(** X13: the stiffness the Timoshenko constructor stores is the
    parallel-axis transfer of the sectional stiffnesses: its energy form
    pairs [EA] with the axial strain at the centroid
    [e0 + xc3*e2 - xc2*e3], the bending stiffnesses with the curvatures
    and the shear stiffnesses with the shear strains at the shear centre
    [e4 - xk3*e1] and [e5 + xk2*e1].  With non-negative direct
    stiffnesses and [EI23^2 <= EI22*EI33], [kG23^2 <= kG22*kG33] the
    form is non-negative.  The object does not depend on [m33] and
    [muS], and [evalDensity] returns [m00]. *)
Theorem Timoshenko_constructor_energy
    (fresh : TACSBeamConstitutive.t) (axs : list R)
    (EA EI22 EI33 EI23 GJ kG22 kG33 kG23 m00 m11 m22 m33
     xm2 xm3 xc2 xc3 xk2 xk3 muS : R)
    (Hfresh : TACSBeamConstitutive.sized fresh)
    (HEA : 0 <= EA) (HGJ : 0 <= GJ)
    (HEI22 : 0 <= EI22) (HEI33 : 0 <= EI33)
    (HEI23 : EI23 * EI23 <= EI22 * EI33)
    (HkG22 : 0 <= kG22) (HkG33 : 0 <= kG33)
    (HkG23 : kG23 * kG23 <= kG22 * kG33) :
  let o := TACSBeamConstitutive.TACSBeamConstitutive_1 fresh axs
             EA EI22 EI33 EI23 GJ kG22 kG33 kG23 m00 m11 m22 m33
             xm2 xm3 xc2 xc3 xk2 xk3 muS in
  (forall e : list R,
     let axial := get e 0 + xc3 * get e 2 - xc2 * get e 3 in
     let shear2 := get e 4 - xk3 * get e 1 in
     let shear3 := get e 5 + xk2 * get e 1 in
     energyForm (TACSBeamConstitutive.C o) e
     = EA * axial * axial + GJ * get e 1 * get e 1
       + (EI22 * get e 2 * get e 2 - 2 * EI23 * get e 2 * get e 3
          + EI33 * get e 3 * get e 3)
       + (kG22 * shear2 * shear2 - 2 * kG23 * shear2 * shear3
          + kG33 * shear3 * shear3))
  /\ (forall e : list R, 0 <= energyForm (TACSBeamConstitutive.C o) e)
  /\ (forall m33' muS',
        TACSBeamConstitutive.TACSBeamConstitutive_1 fresh axs
          EA EI22 EI33 EI23 GJ kG22 kG33 kG23 m00 m11 m22 m33'
          xm2 xm3 xc2 xc3 xk2 xk3 muS' = o)
  /\ TACSBeamConstitutive.rho o = [m00; m11; m22; m00 * xm2 * xm3]
  /\ (forall elemIndex pt X,
        TACSBeamConstitutive.evalDensity o elemIndex pt X = m00).
Proof.
  intros o.
  pose proof (@Timoshenko_C fresh axs EA EI22 EI33 EI23 GJ kG22 kG33 kG23
                m00 m11 m22 m33 xm2 xm3 xc2 xc3 xk2 xk3 muS Hfresh) as HC.
  fold o in HC.
  assert (Hform : forall e : list R,
     energyForm (TACSBeamConstitutive.C o) e
     = EA * (get e 0 + xc3 * get e 2 - xc2 * get e 3)
          * (get e 0 + xc3 * get e 2 - xc2 * get e 3)
       + GJ * get e 1 * get e 1
       + (EI22 * get e 2 * get e 2 - 2 * EI23 * get e 2 * get e 3
          + EI33 * get e 3 * get e 3)
       + (kG22 * (get e 4 - xk3 * get e 1) * (get e 4 - xk3 * get e 1)
          - 2 * kG23 * (get e 4 - xk3 * get e 1) * (get e 5 + xk2 * get e 1)
          + kG33 * (get e 5 + xk2 * get e 1) * (get e 5 + xk2 * get e 1))).
  { intros e. rewrite energyForm_packed, HC.
    unfold get at 1 4 7 10 13 16 19 22 25 28 31 34 37 40 43 46 49 52 55 58 61.
    cbn [nth]. ring. }
  assert (Hrho : TACSBeamConstitutive.rho o = [m00; m11; m22; m00 * xm2 * xm3]).
  { destruct Hfresh as (_ & Hr & _). subst o.
    unfold TACSBeamConstitutive.TACSBeamConstitutive_1.
    cbn [TACSBeamConstitutive.rho]. now apply rho_written. }
  split; [|split; [|split; [|split]]].
  - intros e. cbv zeta. apply Hform.
  - intros e. rewrite Hform.
    pose proof (Rmult_le_pos _ _ HEA
                  (Rle_0_sqr (get e 0 + xc3 * get e 2 - xc2 * get e 3))) as P1.
    pose proof (Rmult_le_pos _ _ HGJ (Rle_0_sqr (get e 1))) as P2.
    pose proof (@quadratic2_nonneg EI22 EI23 EI33 (get e 2) (get e 3)
                  HEI22 HEI33 HEI23) as P3.
    pose proof (@quadratic2_nonneg kG22 kG23 kG33
                  (get e 4 - xk3 * get e 1) (get e 5 + xk2 * get e 1)
                  HkG22 HkG33 HkG23) as P4.
    unfold Rsqr in P1, P2. lra.
  - intros m33' muS'. reflexivity.
  - exact Hrho.
  - intros. unfold TACSBeamConstitutive.evalDensity. now rewrite Hrho.
Qed.

Lemma Timoshenko_constructor_energy_witness :
  0 <= energyForm
         (TACSBeamConstitutive.C
            (TACSBeamConstitutive.TACSBeamConstitutive_1
               (TACSBeamConstitutive.mk (repeat 7 21) (repeat 7 4)
                  (repeat 7 3))
               [0; 3; 4] 10 4 9 (-6) 2 3 12 6 1 5 2 3 1 1 1 (-2) 3 (-1) 0))
         [1; -1; 2; -2; 3; -3].
Proof.
  assert (Hfresh : TACSBeamConstitutive.sized
            (TACSBeamConstitutive.mk (repeat 7 21) (repeat 7 4) (repeat 7 3)))
    by (repeat split; reflexivity).
  destruct (@Timoshenko_constructor_energy
              (TACSBeamConstitutive.mk (repeat 7 21) (repeat 7 4) (repeat 7 3))
              [0; 3; 4] 10 4 9 (-6) 2 3 12 6 1 5 2 3 1 1 1 (-2) 3 (-1) 0
              Hfresh ltac:(lra) ltac:(lra) ltac:(lra) ltac:(lra) ltac:(lra)
              ltac:(lra) ltac:(lra) ltac:(lra))
    as (_ & H & _).
  apply H.
Defined.

(** ** The layout of the shape functions *)

Lemma append_loop_get (n : nat) (g : nat -> R) (N0 : list R) :
  let N := for_loop n (fun i N => N ++ [g i]) N0 in
  length N = (length N0 + n)%nat
  /\ (forall k, (k < length N0)%nat -> get N k = get N0 k)
  /\ (forall i, (i < n)%nat -> get N (length N0 + i) = g i).
Proof.
  induction n as [|n (IHl & IHold & IHnew)]; cbv zeta.
  - rewrite for_loop_0. split; [lia|]. split; [reflexivity | intros; lia].
  - rewrite for_loop_S. split; [rewrite length_app, IHl; simpl; lia|].
    split.
    + intros k Hk. unfold get. rewrite app_nth1 by lia. now apply IHold.
    + intros i Hi. unfold get.
      destruct (Nat.eq_dec i n) as [->|Ni].
      * rewrite app_nth2 by lia. rewrite IHl.
        replace (length N0 + n - (length N0 + n))%nat with 0%nat by lia.
        reflexivity.
      * rewrite app_nth1 by lia. apply IHnew. lia.
Qed.

Lemma tensor_loop_get (order t : nat) (g : nat -> nat -> R) :
  let N := for_loop t (fun j N =>
             for_loop order (fun i N => N ++ [g i j]) N) [] in
  length N = (t * order)%nat
  /\ (forall i j, (i < order)%nat -> (j < t)%nat ->
        get N (i + j * order) = g i j).
Proof.
  induction t as [|t [IHl IHg]]; cbv zeta.
  - rewrite for_loop_0. split; [reflexivity | intros; lia].
  - rewrite for_loop_S.
    destruct (append_loop_get order (fun i => g i t)
                (for_loop t (fun j N =>
                   for_loop order (fun i N => N ++ [g i j]) N) []))
      as (Hl & Hold & Hnew).
    split; [rewrite Hl, IHl; simpl; lia|].
    intros i j Hi Hj.
    destruct (Nat.eq_dec j t) as [->|Nj].
    + rewrite <- (Hnew i Hi), IHl. f_equal. lia.
    + rewrite Hold by (rewrite IHl; nia). apply IHg; lia.
Qed.

(** X15: the shape functions are laid out as the tensor product of the
    two one-dimensional bases, the first parametric direction running
    fastest: both overloads of [getShapeFunctions] fill [order*order]
    entries, and entry [i + j*order] is [na[i]*nb[j]] for the values,
    [dna[i]*nb[j]] for the derivative along the first direction and
    [na[i]*dnb[j]] for the derivative along the second. *)
Theorem getShapeFunctions_tensor_layout
    (order : nat)
    (lagrangeSFKnots : R -> list R -> nat -> list R)
    (lagrangeSFKnotsDeriv : R -> list R -> nat -> list R * list R)
    (q : PoissonQuad.t) (pt : list R) (i j : nat)
    (Hi : (i < order)%nat) (Hj : (j < order)%nat) :
  let na := lagrangeSFKnots (get pt 0) (PoissonQuad.knots q) order in
  let nb := lagrangeSFKnots (get pt 1) (PoissonQuad.knots q) order in
  let a := lagrangeSFKnotsDeriv (get pt 0) (PoissonQuad.knots q) order in
  let b := lagrangeSFKnotsDeriv (get pt 1) (PoissonQuad.knots q) order in
  let N0 := PoissonQuad.getShapeFunctions order lagrangeSFKnots q pt in
  let S := PoissonQuad.getShapeFunctionsDeriv order lagrangeSFKnotsDeriv
             q pt in
  let N := fst (fst S) in
  let Na := snd (fst S) in
  let Nb := snd S in
  (length N0 = (order * order)%nat
   /\ get N0 (i + j * order) = get na i * get nb j)
  /\ (length N = (order * order)%nat
      /\ get N (i + j * order) = get (fst a) i * get (fst b) j)
  /\ (length Na = (order * order)%nat
      /\ get Na (i + j * order) = get (snd a) i * get (fst b) j)
  /\ (length Nb = (order * order)%nat
      /\ get Nb (i + j * order) = get (fst a) i * get (snd b) j).
Proof.
  intros na nb a b N0 S N Na Nb.
  assert (T : forall g : nat -> nat -> R,
    let L := for_loop order (fun j N =>
               for_loop order (fun i N => N ++ [g i j]) N) [] in
    length L = (order * order)%nat /\ get L (i + j * order) = g i j).
  { intros g. destruct (tensor_loop_get order order g) as [Hl Hg].
    split; [exact Hl | now apply Hg]. }
  split; [|split; [|split]].
  - subst N0. unfold PoissonQuad.getShapeFunctions. fold na nb.
    apply (T (fun i j => get na i * get nb j)).
  - subst N S. unfold PoissonQuad.getShapeFunctionsDeriv. fold a b.
    destruct a as [va da], b as [vb db]. cbn [fst snd].
    rewrite (for_loop_proj (fun st : list R * list R * list R => fst (fst st))
               order _
               (fun j N => for_loop order
                  (fun i N => N ++ [get va i * get vb j]) N)).
    + apply (T (fun i j => get va i * get vb j)).
    + intros j' st.
      apply (for_loop_proj
               (fun st : list R * list R * list R => fst (fst st))).
      intros i' [[x y] z]. reflexivity.
  - subst Na S. unfold PoissonQuad.getShapeFunctionsDeriv. fold a b.
    destruct a as [va da], b as [vb db]. cbn [fst snd].
    rewrite (for_loop_proj (fun st : list R * list R * list R => snd (fst st))
               order _
               (fun j N => for_loop order
                  (fun i N => N ++ [get da i * get vb j]) N)).
    + apply (T (fun i j => get da i * get vb j)).
    + intros j' st.
      apply (for_loop_proj
               (fun st : list R * list R * list R => snd (fst st))).
      intros i' [[x y] z]. reflexivity.
  - subst Nb S. unfold PoissonQuad.getShapeFunctionsDeriv. fold a b.
    destruct a as [va da], b as [vb db]. cbn [fst snd].
    rewrite (for_loop_proj (fun st : list R * list R * list R => snd st)
               order _
               (fun j N => for_loop order
                  (fun i N => N ++ [get va i * get db j]) N)).
    + apply (T (fun i j => get va i * get db j)).
    + intros j' st.
      apply (for_loop_proj
               (fun st : list R * list R * list R => snd st)).
      intros i' [[x y] z]. reflexivity.
Qed.

Lemma getShapeFunctions_tensor_layout_witness :
  let q := PoissonQuad.PoissonQuad 3 [1; 1; 1; 1; 1; 1; 1; 1; 1] in
  let pt := [1 / 2; 1 / 4] in
  get (PoissonQuad.getShapeFunctions 3 FElibrary.lagrangeSFKnots q pt)
      (2 + 1 * 3)
  = get (FElibrary.lagrangeSFKnots (get pt 0) (PoissonQuad.knots q) 3) 2
    * get (FElibrary.lagrangeSFKnots (get pt 1) (PoissonQuad.knots q) 3) 1.
Proof.
  intros q pt.
  destruct (@getShapeFunctions_tensor_layout 3 FElibrary.lagrangeSFKnots
              FElibrary.lagrangeSFKnotsDeriv q pt 2 1
              ltac:(lia) ltac:(lia)) as ((_ & H) & _).
  exact H.
Defined.

(** ** The rows of [getOutputData] *)

Lemma get_write (d : list R) (j : nat) (v : R) (i : nat) :
  get (write d j v) i
  = if ((i =? j) && (j <? length d))%nat then v else get d i.
Proof.
  destruct (Nat.eqb_spec i j) as [->|N]; cbn [andb].
  - destruct (Nat.ltb_spec j (length d)) as [H|H].
    + now apply get_write_same.
    + rewrite !get_overflow; [reflexivity | lia | rewrite write_length; lia].
  - apply get_write_other. congruence.
Qed.

Lemma get_cons_0 (x : R) (l : list R) : get (x :: l) 0 = x.
Proof. reflexivity. Qed.

Lemma get_cons_S (x : R) (l : list R) (k : nat) :
  get (x :: l) (S k) = get l k.
Proof. reflexivity. Qed.

Lemma outputRow_length (nodes disp strains stresses : bool)
      (Xpts vars : list R) (p : nat) (g : R * R) :
  length (outputRow nodes disp strains stresses Xpts vars p g)
  = outputWidth nodes disp strains stresses.
Proof. destruct nodes, disp, strains, stresses; reflexivity. Qed.

Ltac decide_indices :=
  repeat match goal with
    | |- context [(?a =? ?b)%nat] => destruct (Nat.eqb_spec a b); try lia
    | |- context [(?a <? ?b)%nat] => destruct (Nat.ltb_spec a b); try lia
    end;
  cbn [andb].

Section OutputData.

Variable order : nat.
Variable lagrangeSFKnotsDeriv : R -> list R -> nat -> list R * list R.
Variable jacobian2d : list R -> R * list R.
Variable q : PoissonQuad.t.
Variable ld_data : nat.
Variable Xpts vars data : list R.

Local Abbreviation gradient :=
  (nodalGradient order lagrangeSFKnotsDeriv jacobian2d q Xpts vars).
Local Abbreviation rowsWritten := (rowsWritten ld_data data).

Lemma rowsWritten_next (row : nat -> list R) (c base : nat)
      (d d' : list R) :
  (length (row c) <= ld_data)%nat ->
  rowsWritten row c (base, d) ->
  length d' = length d ->
  (forall k, (k < length (row c))%nat -> get d' (base + k) = get (row c) k) ->
  (forall i, (i < base \/ base + length (row c) <= i)%nat ->
     get d' i = get d i) ->
  rowsWritten row (S c) ((base + ld_data)%nat, d').
Proof.
  intros Hw (Hb & Hl & Hdone & Hrest) Hl' Hrow Hframe.
  cbn [fst snd] in *. subst base.
  split; [cbn [fst]; lia|]. split; [cbn [snd]; congruence|]. cbn [snd].
  split.
  - intros p k Hp Hk.
    destruct (Nat.eq_dec p c) as [->|Np].
    + destruct (Nat.ltb_spec k (length (row c))) as [Hk'|Hk'].
      * now apply Hrow.
      * rewrite Hframe by lia. apply Hrest. lia.
    + assert (p < c)%nat by lia.
      rewrite Hframe by nia. now apply Hdone.
  - intros i Hi. rewrite Hframe by lia. apply Hrest. lia.
Qed.

(** The two loops of [getOutputData], with the four conditions
    [out_type & FLAG] as [nodes], [disp], [strains] and [stresses]. *)
Lemma getOutputData_loops (nodes disp strains stresses : bool) :
  (outputWidth nodes disp strains stresses <= ld_data)%nat ->
  (order * order * ld_data <= length data)%nat ->
  rowsWritten
    (fun p => outputRow nodes disp strains stresses Xpts vars p
                (gradient (p / order)%nat (p mod order)%nat))
    (order * order)
    (for_loop order (fun m st =>
       for_loop order (fun n '(base, data) =>
         let p := (n + order * m)%nat in
         let index := 0%nat in
         let '(index, data) :=
           if nodes then
             ((index + 3)%nat,
              for_loop 3 (fun k data =>
                write data (base + (index + k))
                      (PoissonQuad.TacsRealPart (get Xpts (3 * p + k)))) data)
           else (index, data) in
         let '(index, data) :=
           if disp then
             ((index + 1)%nat,
              write data (base + index)
                    (PoissonQuad.TacsRealPart (get vars p)))
           else (index, data) in
         let pt := [get (PoissonQuad.knots q) n;
                    get (PoissonQuad.knots q) m] in
         let '(N, Na, Nb) :=
           PoissonQuad.getShapeFunctionsDeriv order lagrangeSFKnotsDeriv
             q pt in
         let Xd := PoissonQuad.getJacobianTransform order Na Nb Xpts in
         let '(_, J) := jacobian2d Xd in
         let '(px, py) :=
           for_loop (order * order) (fun i '(px, py) =>
             ((px + (get Na i * get J 0 + get Nb i * get J 2) * get vars i)%R,
              (py + (get Na i * get J 1 + get Nb i * get J 3) * get vars i)%R))
             (0, 0)%R in
         let '(index, data) :=
           if strains then
             ((index + 2)%nat,
              write (write data (base + index) px) (base + (index + 1)) py)
           else (index, data) in
         let '(index, data) :=
           if stresses then
             ((index + 2)%nat,
              write (write data (base + index) px) (base + (index + 1)) py)
           else (index, data) in
         ((base + ld_data)%nat, data)) st) (0%nat, data)).
Proof.
  intros Hw Hlen.
  set (row := fun p : nat => outputRow nodes disp strains stresses Xpts vars p
                (gradient (p / order)%nat (p mod order)%nat)).
  apply (@for_loop_invariant _ (fun m st => rowsWritten row (order * m) st)).
  { rewrite Nat.mul_0_r. repeat split; intros; cbn [fst snd]; lia. }
  intros m st Hm Hst.
  replace (order * S m)%nat with (order + order * m)%nat by lia.
  apply (@for_loop_invariant _
           (fun n st => rowsWritten row (n + order * m) st)); [exact Hst|].
  clear st Hst. intros n [base d] Hn Hst.
  change (S n + order * m)%nat with (S (n + order * m)).
  assert (Hc : (n + order * m < order * order)%nat) by nia.
  assert (Hbase : (base + ld_data <= length d)%nat).
  { destruct Hst as (Hb & Hl & _). cbn [fst snd] in Hb, Hl.
    rewrite Hl, Hb. nia. }
  assert (Hrow : row (n + order * m)%nat
    = outputRow nodes disp strains stresses Xpts vars (n + order * m)
        (gradient m n)).
  { unfold row. rewrite (Nat.mul_comm order m).
    destruct (@grid_mod_div order m n Hn) as [-> ->]. reflexivity. }
  assert (Hwr : (length (row (n + order * m)%nat) <= ld_data)%nat)
    by (unfold row; rewrite outputRow_length; exact Hw).
  cbv beta iota zeta.
  unfold nodalGradient in Hrow.
  destruct (PoissonQuad.getShapeFunctionsDeriv order lagrangeSFKnotsDeriv q
              [get (PoissonQuad.knots q) n; get (PoissonQuad.knots q) m])
    as [[N Na] Nb].
  destruct (jacobian2d (PoissonQuad.getJacobianTransform order Na Nb Xpts))
    as [h J].
  rewrite (pair_loop (order * order)
             (fun i => (get Na i * get J 0 + get Nb i * get J 2) * get vars i)
             (fun i => (get Na i * get J 1 + get Nb i * get J 3) * get vars i)).
  rewrite !Rplus_0_l.
  set (px := Rsum (order * order) _) in Hrow |- *.
  set (py := Rsum (order * order) _) in Hrow |- *.
  unfold PoissonQuad.TacsRealPart.
  clearbody row.
  destruct nodes, disp, strains, stresses;
    cbn [outputWidth Nat.add] in Hw;
    cbv beta iota zeta;
    (apply rowsWritten_next with (d := d);
     [ exact Hwr | exact Hst
     | cbn [for_loop seq fold_left]; rewrite ?write_length; reflexivity
     | rewrite Hrow; cbn [outputRow app length fst snd];
       intros k Hk; cbn [for_loop seq fold_left];
       rewrite ?get_write, ?write_length;
       do 8 (try (destruct k as [|k];
                  [decide_indices; rewrite ?get_cons_S, ?get_cons_0;
                   first [reflexivity | f_equal; lia]|]));
       exfalso; lia
     | rewrite Hrow; cbn [outputRow app length fst snd];
       intros i Hi; cbn [for_loop seq fold_left];
       rewrite ?get_write, ?write_length;
       decide_indices; reflexivity ]).
Qed.

End OutputData.

(** X14: [getOutputData] lays the output out one row per node, [ld_data]
    entries apart: the row of node [p = n + order*m] starts at
    [data[p*ld_data]] and holds, for the flags set in [out_type] and in
    this order, the three coordinates of the node, its value [vars[p]],
    the gradient [(px, py)] at the node as strain and the same pair again
    as stress.  When a row fits in [ld_data] entries and the buffer holds
    [order*order] rows, the rest of each row and everything past the last
    row keep their contents. *)
Theorem getOutputData_rows
    (order : nat)
    (lagrangeSFKnotsDeriv : R -> list R -> nat -> list R * list R)
    (jacobian2d : list R -> R * list R)
    (OUTPUT_NODES OUTPUT_DISPLACEMENTS OUTPUT_STRAINS OUTPUT_STRESSES : Z)
    (q : PoissonQuad.t) (out_type : Z) (data : list R) (ld_data : nat)
    (Xpts vars : list R)
    (Hwidth : (outputWidth (PoissonQuad.flagged out_type OUTPUT_NODES)
                 (PoissonQuad.flagged out_type OUTPUT_DISPLACEMENTS)
                 (PoissonQuad.flagged out_type OUTPUT_STRAINS)
                 (PoissonQuad.flagged out_type OUTPUT_STRESSES)
               <= ld_data)%nat)
    (Hlen : (order * order * ld_data <= length data)%nat) :
  let out :=
    PoissonQuad.getOutputData order lagrangeSFKnotsDeriv jacobian2d
      OUTPUT_NODES OUTPUT_DISPLACEMENTS OUTPUT_STRAINS OUTPUT_STRESSES
      q out_type data ld_data Xpts vars in
  let row m n :=
    outputRow (PoissonQuad.flagged out_type OUTPUT_NODES)
      (PoissonQuad.flagged out_type OUTPUT_DISPLACEMENTS)
      (PoissonQuad.flagged out_type OUTPUT_STRAINS)
      (PoissonQuad.flagged out_type OUTPUT_STRESSES)
      Xpts vars (n + order * m)
      (nodalGradient order lagrangeSFKnotsDeriv jacobian2d q Xpts vars m n) in
  length out = length data
  /\ (forall m n k, (m < order)%nat -> (n < order)%nat ->
        (k < length (row m n))%nat ->
        get out ((n + order * m) * ld_data + k) = get (row m n) k)
  /\ (forall m n k, (m < order)%nat -> (n < order)%nat ->
        (length (row m n) <= k < ld_data)%nat ->
        get out ((n + order * m) * ld_data + k)
        = get data ((n + order * m) * ld_data + k))
  /\ (forall i, (order * order * ld_data <= i)%nat ->
        get out i = get data i).
Proof.
  intros out row.
  destruct (@getOutputData_loops order lagrangeSFKnotsDeriv jacobian2d q
              ld_data Xpts vars data _ _ _ _ Hwidth Hlen)
    as (_ & Hl & Hdone & Hrest).
  fold (PoissonQuad.getOutputData order lagrangeSFKnotsDeriv jacobian2d
          OUTPUT_NODES OUTPUT_DISPLACEMENTS OUTPUT_STRAINS OUTPUT_STRESSES
          q out_type data ld_data Xpts vars) in Hl, Hdone, Hrest.
  fold out in Hl, Hdone, Hrest.
  assert (Hrow : forall m n, (n < order)%nat ->
    outputRow (PoissonQuad.flagged out_type OUTPUT_NODES)
      (PoissonQuad.flagged out_type OUTPUT_DISPLACEMENTS)
      (PoissonQuad.flagged out_type OUTPUT_STRAINS)
      (PoissonQuad.flagged out_type OUTPUT_STRESSES)
      Xpts vars (n + order * m)
      (nodalGradient order lagrangeSFKnotsDeriv jacobian2d q Xpts vars
         ((n + order * m) / order) ((n + order * m) mod order))
    = row m n).
  { intros m n Hn. unfold row. rewrite (Nat.mul_comm order m).
    destruct (@grid_mod_div order m n Hn) as [-> ->]. reflexivity. }
  split; [exact Hl|]. split; [|split].
  - intros m n k Hm Hn Hk.
    assert (Hw : (length (row m n) <= ld_data)%nat)
      by (unfold row; rewrite outputRow_length; exact Hwidth).
    rewrite Hdone by (try nia; lia). rewrite (Hrow m n Hn).
    destruct (Nat.ltb_spec k (length (row m n))); [reflexivity | lia].
  - intros m n k Hm Hn Hk.
    rewrite Hdone by (try nia; lia). rewrite (Hrow m n Hn).
    destruct (Nat.ltb_spec k (length (row m n))); [lia | reflexivity].
  - exact Hrest.
Qed.

Lemma getOutputData_rows_witness :
  let out :=
    PoissonQuad.getOutputData 2 FElibrary.lagrangeSFKnotsDeriv
      FElibrary.jacobian2d 1 2 4 8
      (PoissonQuad.PoissonQuad 2 [1; 1; 1; 1]) 3 (repeat 7 20) 5
      [0; 0; 0; 1; 0; 0; 0; 1; 0; 1; 1; 0] [10; 20; 30; 40] in
  get out 13 = 30 /\ get out 14 = 7.
Proof.
  intros out.
  assert (Hwidth : (outputWidth (PoissonQuad.flagged 3 1)
                      (PoissonQuad.flagged 3 2) (PoissonQuad.flagged 3 4)
                      (PoissonQuad.flagged 3 8) <= 5)%nat)
    by (vm_compute; lia).
  assert (Hlen : (2 * 2 * 5 <= length (repeat 7 20))%nat)
    by (simpl; lia).
  destruct (@getOutputData_rows 2 FElibrary.lagrangeSFKnotsDeriv
              FElibrary.jacobian2d 1 2 4 8
              (PoissonQuad.PoissonQuad 2 [1; 1; 1; 1]) 3 (repeat 7 20) 5
              [0; 0; 0; 1; 0; 0; 0; 1; 0; 1; 1; 0] [10; 20; 30; 40]
              Hwidth Hlen) as (_ & Hin & Hout & _).
  split.
  - apply (Hin 1%nat 0%nat 3%nat); simpl; lia.
  - apply (Hout 1%nat 0%nat 4%nat); simpl; lia.
Defined.

(** ** The nodes the connectivity refers to *)

(** X16: every entry that [getOutputConnectivity] writes is one of the
    [order*order] nodes of the element, counted from [node]: the
    connectivity never refers to a node outside the range that
    [addOutputCount] adds to [nnodes]; and the four nodes of a
    quadrilateral are pairwise different. *)
Theorem getOutputConnectivity_nodes_in_range
    (order : nat) (node : Z) (con : list Z) (i : nat)
    (Hlen : (4 * ((order - 1) * (order - 1)) <= length con)%nat)
    (Hi : (i < 4 * ((order - 1) * (order - 1)))%nat) :
  let con' := PoissonQuad.getOutputConnectivity order con node in
  (node <= nth i con' 0 < node + Z.of_nat (order * order))%Z
  /\ NoDup [ nth (4 * (i / 4)) con' 0%Z; nth (4 * (i / 4) + 1) con' 0%Z;
             nth (4 * (i / 4) + 2) con' 0%Z; nth (4 * (i / 4) + 3) con' 0%Z ].
Proof.
  intros con'.
  destruct (connectivityLoop_written order node con Hlen)
    as (_ & _ & Hdone & _).
  fold (PoissonQuad.getOutputConnectivity order con node) in Hdone.
  fold con' in Hdone.
  set (K := (order - 1)%nat) in *.
  assert (HK : (0 < K)%nat) by (destruct K; [simpl in Hi; lia | lia]).
  assert (Hord : order = S K) by lia.
  set (p := (i / 4)%nat).
  pose proof (Nat.div_mod_eq i 4) as Ei. fold p in Ei.
  pose proof (Nat.mod_upper_bound i 4 ltac:(lia)) as Hk.
  pose proof (Nat.div_mod_eq p K) as Ep.
  pose proof (Nat.mod_upper_bound p K ltac:(lia)) as Hn.
  set (n := (p mod K)%nat) in *. set (m := (p / K)%nat) in *.
  assert (Hp : (p < K * K)%nat) by lia.
  assert (Hm : (m < K)%nat) by nia.
  assert (Hpq : (n + m * K = p)%nat) by lia.
  assert (Q : forall k, (k < 4)%nat ->
            nth (4 * p + k) con' 0%Z = nth k (quadNodes order node m n) 0%Z).
  { intros k Hk4. rewrite <- Hpq. apply Hdone; [exact Hn | lia | exact Hk4]. }
  split.
  - rewrite Ei, (Q _ Hk). unfold quadNodes.
    destruct (i mod 4)%nat as [|[|[|[|k]]]]; cbn [nth]; try lia; nia.
  - rewrite <- (Nat.add_0_r (4 * p)) at 1.
    rewrite !Q by lia. unfold quadNodes. cbn [nth].
    repeat constructor; cbn [In]; intros H; nia.
Qed.

Lemma getOutputConnectivity_nodes_in_range_witness :
  (100 <= nth 7 (PoissonQuad.getOutputConnectivity 3 (repeat 0%Z 16) 100) 0
   < 100 + Z.of_nat (3 * 3))%Z.
Proof.
  destruct (@getOutputConnectivity_nodes_in_range 3 100 (repeat 0%Z 16) 7
              ltac:(simpl; lia) ltac:(simpl; lia)) as [H _].
  exact H.
Defined.
